(** * LeagueAkari, main shard [ongoing-game-main]

    A shallow embedding of [src/main/shards/ongoing-game/index.ts]: the
    orchestration of per-player loaders during champion select and in game,
    with its two queues, its two abort controllers, its two game-keyed
    caches, its settings handlers and its IPC calls.

    Conventions.
    - JS numbers that the code uses as counts, identifiers and priorities
      are [Z] (the priority [Infinity] has a constructor of its own).
    - JS objects used as dictionaries are [gmap]s; player identifiers are
      strings, game identifiers are integers.
    - An [async] method is split at its [await]s: the part that runs
      synchronously when the method is called, and one continuation per
      awaited queue task, run when that task settles.
    - Payloads of the collaborators (summoner, ranked stats, timeline ...)
      are opaque and stand as integers. *)

From stdpp Require Import gmap strings list fin_maps pretty sorting.
From Stdlib Require Import ZArith Lia.

Local Open Scope Z_scope.

(* ===================================================================== *)
(** ** Data model *)
(* ===================================================================== *)

(** ['lcu' | 'sgp'] *)
Inductive Source := lcu | sgp.

#[global] Instance Source_eq_dec : EqDecision Source.
Proof. solve_decision. Defined.

(** Loading state of a player's match history (declared in [./state]). *)
Inductive LoadingState := idle | loading | loaded | aborted | error.

#[global] Instance LoadingState_eq_dec : EqDecision LoadingState.
Proof. solve_decision. Defined.

Inductive Phase := unavailable | champ_select | in_game.

#[global] Instance Phase_eq_dec : EqDecision Phase.
Proof. solve_decision. Defined.

Record GameInfo := { queueId : Z; gi_gameId : Z }.

Record QueryStage := { phase : Phase; gameInfo : option GameInfo }.

Inductive TagPreference := pref_all | pref_current.

(** Opaque payload of a collaborator. *)
Definition Payload := Z.

(** A game of a match history: its identifier and the rest of the record. *)
Record Game := { gameId : Z; gameBody : Payload }.

#[global] Instance Game_eq_dec : EqDecision Game.
Proof. solve_decision. Defined.

(** [{ source, data }] *)
Record Sourced (T : Type) := mkSourced { s_source : Source; s_data : T }.
Arguments mkSourced {T}.
Arguments s_source {T}.
Arguments s_data {T}.

(** [{ data, targetCount, source, tag }], the value of
    [state.matchHistory[puuid]]. *)
Record MatchHistoryRecord := {
  mh_data : list Game;
  mh_targetCount : Z;
  mh_source : Source;
  mh_tag : option string
}.

(** The answer of [querySavedPlayerWithGames]: the encountered games, the
    tags that other players left (each with its [selfPuuid]), and the rest. *)
Record SavedInfo := {
  encounteredGames : list Z;
  tags : list string;
  si_rest : Payload
}.

Record OngoingGameSettings := {
  concurrency : Z;
  enabled : bool;
  matchHistoryLoadCount : Z;
  premadeTeamThreshold : Z;
  matchHistoryUseSgpApi : bool;
  matchHistoryTagPreference : TagPreference;
  gameTimelineLoadCount : Z
}.

Record OngoingGameState := {
  queryStage : QueryStage;
  matchHistory : gmap string MatchHistoryRecord;
  summoner : gmap string (Sourced Payload);
  rankedStats : gmap string (Sourced Payload);
  savedInfo : gmap string SavedInfo;
  championMastery : gmap string (Sourced Payload);
  gameTimeline : gmap Z (Sourced Payload);
  additionalGame : gmap Z (Sourced Game);
  matchHistoryTag : string;
  matchHistoryLoadingState : gmap string LoadingState
}.

(** [OngoingGameMain.LOADING_PRIORITY] *)
Module LOADING_PRIORITY.
Definition ADDITIONAL_SUMMONER : Z := -1.
Definition SUMMONER : Z := 6.
Definition MATCH_HISTORY : Z := 5.
Definition SAVED_INFO : Z := 4.
Definition RANKED_STATS : Z := 3.
Definition CHAMPION_MASTERY : Z := 2.
Definition ADDITIONAL_GAME : Z := 2.
Definition GAME_TIMELINE : Z := 1.
End LOADING_PRIORITY.

(** [OngoingGameMain.SAFE_TAGS] *)
Definition SAFE_TAGS : gset string :=
  list_to_set
    [ "q_420"; "q_430"; "q_440"; "q_450"; "q_480"; "q_490"; "q_900";
      "q_1400"; "q_1700"; "q_1900"; "q_2300" ]%string.

(** [SAFE_TAGS.has(tag)] *)
Definition SAFE_TAGS_has (tag : string) : bool := bool_decide (tag ∈ SAFE_TAGS).

(** Truthiness of a JS string: every string but the empty one. *)
Definition truthy (s : string) : bool := negb (bool_decide (s = ""%string)).

(* ===================================================================== *)
(** ** The bounded cache *)
(* ===================================================================== *)

(** The class [LRUMap] of both caches, keyed by game id. *)
Module LRUMap.
Section Cache.
Context {V : Type}.

(** Modelled from the spec: the cache class ([LRUMap], imported from the
    package [quick-lru]) is not part of the sources. The spec describes it as
    a bounded map keyed by game id with access-order tracking, where an
    insertion over capacity evicts the least-recently-accessed entry. The
    entries are kept most recently accessed first. *)
Record t := mk { maxSize : nat; entries : list (Z * V) }.

Definition create (n : nat) : t := {| maxSize := n; entries := [] |}.

Definition size (c : t) : nat := length (entries c).

Definition keys (c : t) : list Z := (entries c).*1.

Fixpoint assoc (k : Z) (l : list (Z * V)) : option V :=
  match l with
  | [] => None
  | (k', v) :: l' => if bool_decide (k' = k) then Some v else assoc k l'
  end.

Fixpoint remove (k : Z) (l : list (Z * V)) : list (Z * V) :=
  match l with
  | [] => []
  | (k', v) :: l' =>
      if bool_decide (k' = k) then remove k l' else (k', v) :: remove k l'
  end.

(** [has(key)]: a query, the access order is unchanged. *)
Definition has (k : Z) (c : t) : bool :=
  match assoc k (entries c) with Some _ => true | None => false end.

(** [get(key)]: a hit is an access, the entry becomes the most recent. *)
Definition get (k : Z) (c : t) : option V * t :=
  match assoc k (entries c) with
  | Some v =>
      (Some v, {| maxSize := maxSize c; entries := (k, v) :: remove k (entries c) |})
  | None => (None, c)
  end.

(** [set(key, value)]: the entry becomes the most recent; when the cache
    is over capacity afterwards, the least recently accessed entry (the
    last one) is evicted. *)
Definition set (k : Z) (v : V) (c : t) : t :=
  let l := (k, v) :: remove k (entries c) in
  {| maxSize := maxSize c;
     entries := if (maxSize c <? length l)%nat then removelast l else l |}.

(** The least recently accessed entry. *)
Definition lru (c : t) : option (Z * V) := last (entries c).

Inductive op := Set_ (k : Z) (v : V) | Get (k : Z) | Has (k : Z).

Definition run_op (o : op) (c : t) : t :=
  match o with
  | Set_ k v => set k v c
  | Get k => (get k c).2
  | Has _ => c
  end.

Definition run_ops (os : list op) (c : t) : t :=
  foldl (fun c o => run_op o c) c os.

(** Insert the keys one after the other, with the value [f k]. *)
Definition set_all (f : Z -> V) (ks : list Z) (c : t) : t :=
  foldl (fun c k => set k (f k) c) c ks.
End Cache.
Arguments t : clear implicits.
End LRUMap.

(* ===================================================================== *)
(** ** Errors, queue tasks and their continuations *)
(* ===================================================================== *)

(** What a [catch] handler looks at in the value it receives:
    [e instanceof Error], [e.name], [isAxiosError(e)], [e.response?.status]. *)
Record JsError := {
  instanceofError : bool;
  name : string;
  isAxiosError : bool;
  responseStatus : option Z
}.

(** The error a queue rejects with when the task's signal is aborted. *)
Definition AbortError : JsError :=
  {| instanceofError := true; name := "AbortError";
     isAxiosError := false; responseStatus := None |}.

Inductive QueueId := MhQueue | GeneralQueue.

#[global] Instance QueueId_eq_dec : EqDecision QueueId.
Proof. solve_decision. Defined.

(** A JS priority: a number or [Infinity]. *)
Inductive Priority := Prio (p : Z) | PrioInfinity.

#[global] Instance Priority_eq_dec : EqDecision Priority.
Proof. solve_decision. Defined.

(** The request a task performs when the queue runs it. *)
Inductive Call :=
| sgp_getMatchHistoryLcuFormat (puuid : string) (start count : Z) (tag : option string)
| lc_getMatchHistory (puuid : string) (begIndex endIndex : Z)
| lc_getGame (gameId : Z)
| sgp_getGameSummaryLcuFormat (gameId : Z)
| sgp_getTimelineLcuFormat (gameId : Z)
| lc_getTimeline (gameId : Z)
| lc_getSummonerByPuuid (puuid : string)
| lc_getRankedStats (puuid : string)
| lc_getPlayerChampionMastery (puuid : string)
| saved_querySavedPlayerWithGames (puuid : string).

(** What a request answers with; [r_nothing] is a falsy answer. *)
Inductive Response :=
| r_games (games : list Game)
| r_game (game : Game)
| r_payload (p : Payload)
| r_saved (info : SavedInfo)
| r_nothing.

Inductive Outcome := Resolved (r : Response) | Rejected (e : JsError).

(** The code after an [await this._queue.add(...)], with the variables it
    closes over. Signals are the identifiers of abort controllers. *)
Inductive Cont :=
| k_matchHistory_sgp (puuid : string) (count : Z) (tag : option string)
    (signal : option nat) (force useSgpApi : bool)
| k_matchHistory_lcu (puuid : string) (count : Z)
    (signal : option nat) (force useSgpApi : bool)
| k_matchHistory_lcu_game (inv : nat) (puuid : string) (gameId : Z)
| k_gameTimeline (gameId : Z) (src : Source)
| k_additionalGame (gameId : Z) (src : Source)
| k_summoner (puuid : string)
| k_savedInfo (puuid : string) (signal : option nat) (force useSgpApi : bool)
| k_rankedStats (puuid : string)
| k_championMastery (puuid : string).

Record Task := {
  tid : nat;
  t_queue : QueueId;
  t_signal : option nat;
  t_priority : Priority;
  t_call : Call;
  t_cont : Cont
}.

(** Modelled from the spec: the queue class ([PQueue], imported from the
    package [p-queue]) is not part of the sources. The spec describes a queue
    that admits work items with a priority and a cancellation token and
    throttles them to a configurable limit; an item bound to a cancelled
    token is dropped, or has its result discarded when it was in flight: in
    both cases the awaiting code receives the abort error. The model keeps
    the admitted, unsettled tasks in admission order. *)
Record PQueue := { pq_concurrency : Z; pq_tasks : list Task }.

(** The local path of the match-history loader between the answer of the
    list request and the end of [Promise.allSettled]: the listed games, the
    [detailedGameMap] filled so far and the number of unsettled [loadGame]. *)
Record LocalLoad := {
  ll_puuid : string;
  ll_count : Z;
  ll_games : list Game;
  detailedGameMap : gmap Z Game;
  ll_unsettled : nat
}.

Inductive LogLevel := debug | info | warn.

#[global] Instance LogLevel_eq_dec : EqDecision LogLevel.
Proof. solve_decision. Defined.

(** An argument of a logger call after the message. *)
Inductive LogArg := arg_str (s : string) | arg_num (z : Z) | arg_err (e : JsError).

Record LogEntry := { level : LogLevel; message : string; args : list LogArg }.

(** [this._ipc.sendEvent(id, name, key, ...)]: the name and the key. *)
Inductive IpcEvent :=
| ev_clear
| ev_player (evname : string) (puuid : string)
| ev_game (evname : string) (gameId : Z).

(* ===================================================================== *)
(** ** The shard and what surrounds it *)
(* ===================================================================== *)

(** [{ myTeam, theirTeam }] of a champ-select session, [{ teamOne, teamTwo }]
    of a gameflow session: the [puuid] of each member. *)
Record Session := { sideOne : list string; sideTwo : list string }.

(** What the shard reads from its collaborators: the constant
    [EMPTY_PUUID] of [@shared/constants/common], the state of the SGP shard
    and the data of the league client. *)
Record Collaborators := {
  EMPTY_PUUID : string;
  sgp_isTokenReady : bool;
  sgp_serversSupported_matchHistory : bool;
  champSelect_session : option Session;
  gameflow_session : option Session;
  lc_auth : bool;
  lc_summoner_me : option string
}.

(** The fields of the class. Abort controllers are numbered as they are
    created, and [abortedSignals] holds those whose [abort()] was called.
    [_debouncedUpdateMatchHistoryFn] counts the calls of the debounced
    function that its pending timer stands for ([0]: no timer is pending). [_log] and [_ipc] record the calls made on the logger and the
    events sent, most recent first. *)
Record OngoingGameMain := {
  settings : OngoingGameSettings;
  state : OngoingGameState;
  ext : Collaborators;
  _gameLruMap : LRUMap.t (Sourced Game);
  _gameTimelineLruMap : LRUMap.t (Sourced Payload);
  _mhQueue : PQueue;
  _mhController : option nat;
  _queue : PQueue;
  _controller : option nat;
  _debouncedUpdateMatchHistoryFn : nat;
  abortedSignals : gset nat;
  nextController : nat;
  nextTask : nat;
  localLoads : gmap nat LocalLoad;
  nextLocalLoad : nat;
  _log : list LogEntry;
  _ipc : list IpcEvent
}.

Section Updates.
Implicit Type w : OngoingGameMain.

Definition with_settings (f : OngoingGameSettings -> OngoingGameSettings) w :=
  {| settings := f (settings w); state := state w; ext := ext w;
     _gameLruMap := _gameLruMap w; _gameTimelineLruMap := _gameTimelineLruMap w;
     _mhQueue := _mhQueue w; _mhController := _mhController w;
     _queue := _queue w; _controller := _controller w;
     _debouncedUpdateMatchHistoryFn := _debouncedUpdateMatchHistoryFn w;
     abortedSignals := abortedSignals w; nextController := nextController w;
     nextTask := nextTask w; localLoads := localLoads w;
     nextLocalLoad := nextLocalLoad w; _log := _log w; _ipc := _ipc w |}.

Definition with_state (f : OngoingGameState -> OngoingGameState) w :=
  {| settings := settings w; state := f (state w); ext := ext w;
     _gameLruMap := _gameLruMap w; _gameTimelineLruMap := _gameTimelineLruMap w;
     _mhQueue := _mhQueue w; _mhController := _mhController w;
     _queue := _queue w; _controller := _controller w;
     _debouncedUpdateMatchHistoryFn := _debouncedUpdateMatchHistoryFn w;
     abortedSignals := abortedSignals w; nextController := nextController w;
     nextTask := nextTask w; localLoads := localLoads w;
     nextLocalLoad := nextLocalLoad w; _log := _log w; _ipc := _ipc w |}.

Definition with_ext (f : Collaborators -> Collaborators) w :=
  {| settings := settings w; state := state w; ext := f (ext w);
     _gameLruMap := _gameLruMap w; _gameTimelineLruMap := _gameTimelineLruMap w;
     _mhQueue := _mhQueue w; _mhController := _mhController w;
     _queue := _queue w; _controller := _controller w;
     _debouncedUpdateMatchHistoryFn := _debouncedUpdateMatchHistoryFn w;
     abortedSignals := abortedSignals w; nextController := nextController w;
     nextTask := nextTask w; localLoads := localLoads w;
     nextLocalLoad := nextLocalLoad w; _log := _log w; _ipc := _ipc w |}.

Definition with_gameLruMap (c : LRUMap.t (Sourced Game)) w :=
  {| settings := settings w; state := state w; ext := ext w;
     _gameLruMap := c; _gameTimelineLruMap := _gameTimelineLruMap w;
     _mhQueue := _mhQueue w; _mhController := _mhController w;
     _queue := _queue w; _controller := _controller w;
     _debouncedUpdateMatchHistoryFn := _debouncedUpdateMatchHistoryFn w;
     abortedSignals := abortedSignals w; nextController := nextController w;
     nextTask := nextTask w; localLoads := localLoads w;
     nextLocalLoad := nextLocalLoad w; _log := _log w; _ipc := _ipc w |}.

Definition with_gameTimelineLruMap (c : LRUMap.t (Sourced Payload)) w :=
  {| settings := settings w; state := state w; ext := ext w;
     _gameLruMap := _gameLruMap w; _gameTimelineLruMap := c;
     _mhQueue := _mhQueue w; _mhController := _mhController w;
     _queue := _queue w; _controller := _controller w;
     _debouncedUpdateMatchHistoryFn := _debouncedUpdateMatchHistoryFn w;
     abortedSignals := abortedSignals w; nextController := nextController w;
     nextTask := nextTask w; localLoads := localLoads w;
     nextLocalLoad := nextLocalLoad w; _log := _log w; _ipc := _ipc w |}.

Definition with_queues (mh q : PQueue) (next : nat) w :=
  {| settings := settings w; state := state w; ext := ext w;
     _gameLruMap := _gameLruMap w; _gameTimelineLruMap := _gameTimelineLruMap w;
     _mhQueue := mh; _mhController := _mhController w;
     _queue := q; _controller := _controller w;
     _debouncedUpdateMatchHistoryFn := _debouncedUpdateMatchHistoryFn w;
     abortedSignals := abortedSignals w; nextController := nextController w;
     nextTask := next; localLoads := localLoads w;
     nextLocalLoad := nextLocalLoad w; _log := _log w; _ipc := _ipc w |}.

Definition with_controllers (mh c : option nat) (ab : gset nat) (next : nat) w :=
  {| settings := settings w; state := state w; ext := ext w;
     _gameLruMap := _gameLruMap w; _gameTimelineLruMap := _gameTimelineLruMap w;
     _mhQueue := _mhQueue w; _mhController := mh;
     _queue := _queue w; _controller := c;
     _debouncedUpdateMatchHistoryFn := _debouncedUpdateMatchHistoryFn w;
     abortedSignals := ab; nextController := next;
     nextTask := nextTask w; localLoads := localLoads w;
     nextLocalLoad := nextLocalLoad w; _log := _log w; _ipc := _ipc w |}.

Definition with_debounced (b : nat) w :=
  {| settings := settings w; state := state w; ext := ext w;
     _gameLruMap := _gameLruMap w; _gameTimelineLruMap := _gameTimelineLruMap w;
     _mhQueue := _mhQueue w; _mhController := _mhController w;
     _queue := _queue w; _controller := _controller w;
     _debouncedUpdateMatchHistoryFn := b;
     abortedSignals := abortedSignals w; nextController := nextController w;
     nextTask := nextTask w; localLoads := localLoads w;
     nextLocalLoad := nextLocalLoad w; _log := _log w; _ipc := _ipc w |}.

Definition with_localLoads (m : gmap nat LocalLoad) (next : nat) w :=
  {| settings := settings w; state := state w; ext := ext w;
     _gameLruMap := _gameLruMap w; _gameTimelineLruMap := _gameTimelineLruMap w;
     _mhQueue := _mhQueue w; _mhController := _mhController w;
     _queue := _queue w; _controller := _controller w;
     _debouncedUpdateMatchHistoryFn := _debouncedUpdateMatchHistoryFn w;
     abortedSignals := abortedSignals w; nextController := nextController w;
     nextTask := nextTask w; localLoads := m;
     nextLocalLoad := next; _log := _log w; _ipc := _ipc w |}.

Definition with_log (l : list LogEntry) w :=
  {| settings := settings w; state := state w; ext := ext w;
     _gameLruMap := _gameLruMap w; _gameTimelineLruMap := _gameTimelineLruMap w;
     _mhQueue := _mhQueue w; _mhController := _mhController w;
     _queue := _queue w; _controller := _controller w;
     _debouncedUpdateMatchHistoryFn := _debouncedUpdateMatchHistoryFn w;
     abortedSignals := abortedSignals w; nextController := nextController w;
     nextTask := nextTask w; localLoads := localLoads w;
     nextLocalLoad := nextLocalLoad w; _log := l; _ipc := _ipc w |}.

Definition with_ipc (l : list IpcEvent) w :=
  {| settings := settings w; state := state w; ext := ext w;
     _gameLruMap := _gameLruMap w; _gameTimelineLruMap := _gameTimelineLruMap w;
     _mhQueue := _mhQueue w; _mhController := _mhController w;
     _queue := _queue w; _controller := _controller w;
     _debouncedUpdateMatchHistoryFn := _debouncedUpdateMatchHistoryFn w;
     abortedSignals := abortedSignals w; nextController := nextController w;
     nextTask := nextTask w; localLoads := localLoads w;
     nextLocalLoad := nextLocalLoad w; _log := _log w; _ipc := l |}.
End Updates.

Section StateUpdates.
Implicit Type s : OngoingGameState.

Definition set_queryStage (q : QueryStage) s :=
  {| queryStage := q; matchHistory := matchHistory s; summoner := summoner s;
     rankedStats := rankedStats s; savedInfo := savedInfo s;
     championMastery := championMastery s; gameTimeline := gameTimeline s;
     additionalGame := additionalGame s; matchHistoryTag := matchHistoryTag s;
     matchHistoryLoadingState := matchHistoryLoadingState s |}.

Definition set_matchHistory (m : gmap string MatchHistoryRecord) s :=
  {| queryStage := queryStage s; matchHistory := m; summoner := summoner s;
     rankedStats := rankedStats s; savedInfo := savedInfo s;
     championMastery := championMastery s; gameTimeline := gameTimeline s;
     additionalGame := additionalGame s; matchHistoryTag := matchHistoryTag s;
     matchHistoryLoadingState := matchHistoryLoadingState s |}.

Definition set_summoner (m : gmap string (Sourced Payload)) s :=
  {| queryStage := queryStage s; matchHistory := matchHistory s; summoner := m;
     rankedStats := rankedStats s; savedInfo := savedInfo s;
     championMastery := championMastery s; gameTimeline := gameTimeline s;
     additionalGame := additionalGame s; matchHistoryTag := matchHistoryTag s;
     matchHistoryLoadingState := matchHistoryLoadingState s |}.

Definition set_rankedStats (m : gmap string (Sourced Payload)) s :=
  {| queryStage := queryStage s; matchHistory := matchHistory s; summoner := summoner s;
     rankedStats := m; savedInfo := savedInfo s;
     championMastery := championMastery s; gameTimeline := gameTimeline s;
     additionalGame := additionalGame s; matchHistoryTag := matchHistoryTag s;
     matchHistoryLoadingState := matchHistoryLoadingState s |}.

Definition set_savedInfo (m : gmap string SavedInfo) s :=
  {| queryStage := queryStage s; matchHistory := matchHistory s; summoner := summoner s;
     rankedStats := rankedStats s; savedInfo := m;
     championMastery := championMastery s; gameTimeline := gameTimeline s;
     additionalGame := additionalGame s; matchHistoryTag := matchHistoryTag s;
     matchHistoryLoadingState := matchHistoryLoadingState s |}.

Definition set_championMastery (m : gmap string (Sourced Payload)) s :=
  {| queryStage := queryStage s; matchHistory := matchHistory s; summoner := summoner s;
     rankedStats := rankedStats s; savedInfo := savedInfo s;
     championMastery := m; gameTimeline := gameTimeline s;
     additionalGame := additionalGame s; matchHistoryTag := matchHistoryTag s;
     matchHistoryLoadingState := matchHistoryLoadingState s |}.

Definition set_gameTimeline (m : gmap Z (Sourced Payload)) s :=
  {| queryStage := queryStage s; matchHistory := matchHistory s; summoner := summoner s;
     rankedStats := rankedStats s; savedInfo := savedInfo s;
     championMastery := championMastery s; gameTimeline := m;
     additionalGame := additionalGame s; matchHistoryTag := matchHistoryTag s;
     matchHistoryLoadingState := matchHistoryLoadingState s |}.

Definition set_additionalGame (m : gmap Z (Sourced Game)) s :=
  {| queryStage := queryStage s; matchHistory := matchHistory s; summoner := summoner s;
     rankedStats := rankedStats s; savedInfo := savedInfo s;
     championMastery := championMastery s; gameTimeline := gameTimeline s;
     additionalGame := m; matchHistoryTag := matchHistoryTag s;
     matchHistoryLoadingState := matchHistoryLoadingState s |}.

(** [state.setMatchHistoryTag(tag)] *)
Definition setMatchHistoryTag (tag : string) s :=
  {| queryStage := queryStage s; matchHistory := matchHistory s; summoner := summoner s;
     rankedStats := rankedStats s; savedInfo := savedInfo s;
     championMastery := championMastery s; gameTimeline := gameTimeline s;
     additionalGame := additionalGame s; matchHistoryTag := tag;
     matchHistoryLoadingState := matchHistoryLoadingState s |}.

(** [state.setMatchHistoryLoadingState(puuid, loadingState)] *)
Definition setMatchHistoryLoadingState (puuid : string) (l : LoadingState) s :=
  {| queryStage := queryStage s; matchHistory := matchHistory s; summoner := summoner s;
     rankedStats := rankedStats s; savedInfo := savedInfo s;
     championMastery := championMastery s; gameTimeline := gameTimeline s;
     additionalGame := additionalGame s; matchHistoryTag := matchHistoryTag s;
     matchHistoryLoadingState := <[puuid := l]> (matchHistoryLoadingState s) |}.

(** Modelled from the spec: [state.clear()] is declared in [./state], which
    is not part of the sources. The spec has every per-generation state map
    fully cleared; the stage and the tag are left as they are (the caller
    resets the tag itself). *)
Definition clear s :=
  {| queryStage := queryStage s; matchHistory := ∅; summoner := ∅;
     rankedStats := ∅; savedInfo := ∅; championMastery := ∅;
     gameTimeline := ∅; additionalGame := ∅;
     matchHistoryTag := matchHistoryTag s; matchHistoryLoadingState := ∅ |}.
End StateUpdates.

(* ===================================================================== *)
(** ** A state monad for the methods of the class *)
(* ===================================================================== *)

Definition M (A : Type) : Type := OngoingGameMain -> A * OngoingGameMain.

#[global] Instance M_ret : MRet M := fun A a w => (a, w).
#[global] Instance M_bind : MBind M :=
  fun A B k m w => let r := m w in k r.1 r.2.

(** The shard after the method has run. *)
Definition exec {A} (m : M A) (w : OngoingGameMain) : OngoingGameMain := (m w).2.

Definition skip : M unit := mret tt.
Definition read {A} (f : OngoingGameMain -> A) : M A := fun w => (f w, w).
Definition modify (f : OngoingGameMain -> OngoingGameMain) : M unit := fun w => (tt, f w).

(** [l.forEach(f)] *)
Fixpoint forEach {A} (l : list A) (f : A -> M unit) : M unit :=
  match l with
  | [] => skip
  | x :: l' => f x ;; forEach l' f
  end.

Definition log_ (lv : LogLevel) (msg : string) (l : list LogArg) : M unit :=
  modify (fun w => with_log ({| level := lv; message := msg; args := l |} :: _log w) w).

Definition sendEvent (e : IpcEvent) : M unit :=
  modify (fun w => with_ipc (e :: _ipc w) w).

Definition modify_state (f : OngoingGameState -> OngoingGameState) : M unit :=
  modify (with_state f).

(** [queue.add(call, { signal, priority })] followed by the code that awaits
    it: the task is admitted at the end of its queue. *)
Definition add (q : QueueId) (call : Call) (signal : option nat) (p : Priority)
    (k : Cont) : M unit :=
  modify (fun w =>
    let t := {| tid := nextTask w; t_queue := q; t_signal := signal;
                t_priority := p; t_call := call; t_cont := k |} in
    match q with
    | MhQueue =>
        with_queues
          {| pq_concurrency := pq_concurrency (_mhQueue w);
             pq_tasks := pq_tasks (_mhQueue w) ++ [t] |}
          (_queue w) (S (nextTask w)) w
    | GeneralQueue =>
        with_queues (_mhQueue w)
          {| pq_concurrency := pq_concurrency (_queue w);
             pq_tasks := pq_tasks (_queue w) ++ [t] |}
          (S (nextTask w)) w
    end).

(** [signal.aborted] where a signal was given. *)
Definition signal_aborted (signal : option nat) (w : OngoingGameMain) : bool :=
  match signal with
  | Some c => bool_decide (c ∈ abortedSignals w)
  | None => false
  end.

(** [options.priority ?? dflt] *)
Definition priority_or (p : option Z) (dflt : Z) : Priority :=
  Prio (default dflt p).

(* ===================================================================== *)
(** ** Error handlers *)
(* ===================================================================== *)

(** [e instanceof Error && e.name === 'AbortError'] *)
Definition isAbort (e : JsError) : bool :=
  instanceofError e && bool_decide (name e = "AbortError"%string).

(** [isAxiosError(e) && e.response?.status === 404] *)
Definition isNotFound (e : JsError) : bool :=
  isAxiosError e && bool_decide (responseStatus e = Some 404).

(** [_handleError(e, type, info)] *)
Definition _handleError (e : JsError) (type : string) (info_ : LogArg) : M unit :=
  if isAbort e then log_ info "Task aborted" [arg_str type]
  else if isNotFound e then log_ info "Target not found" [arg_str type; info_]
  else log_ warn "Error loading" [arg_err e; arg_str type].

(** [_handleMatchHistoryError(e, puuid)] *)
Definition _handleMatchHistoryError (e : JsError) (puuid : string) : M unit :=
  if isAbort e then modify_state (setMatchHistoryLoadingState puuid aborted)
  else
    log_ warn "Error loading match history" [arg_err e; arg_str puuid] ;;
    modify_state (setMatchHistoryLoadingState puuid error).

(* ===================================================================== *)
(** ** Loaders: the part that runs when the method is called *)
(* ===================================================================== *)

(** [useSgpApi && this._sgp.state.availability.serversSupported.matchHistory] *)
Definition isAbleToUseSgpApi (useSgpApi : bool) (w : OngoingGameMain) : bool :=
  useSgpApi && sgp_serversSupported_matchHistory (ext w).

(** [isAbleToUseSgpApi ? 'sgp' : 'lcu'] *)
Definition resolved (isAble : bool) : Source := if isAble then sgp else lcu.

(** [current && current.source === (isAbleToUseSgpApi ? 'sgp' : 'lcu')] *)
Definition same_source {T} (current : option (Sourced T)) (isAble : bool) : bool :=
  match current with
  | Some c => bool_decide (s_source c = resolved isAble)
  | None => false
  end.

(** [l.slice(0, n)]: a negative [n] counts from the end. *)
Definition slice0 {A} (l : list A) (n : Z) : list A :=
  if 0 <=? n then take (Z.to_nat n) l
  else take (length l - Z.to_nat (- n))%nat l.

(** [this._gameTimelineLruMap.get(gameId)] *)
Definition _gameTimelineLruMap_get (gameId : Z) : M (option (Sourced Payload)) :=
  fun w => let r := LRUMap.get gameId (_gameTimelineLruMap w) in
           (r.1, with_gameTimelineLruMap r.2 w).

(** [this._gameLruMap.get(gameId)] *)
Definition _gameLruMap_get (gameId : Z) : M (option (Sourced Game)) :=
  fun w => let r := LRUMap.get gameId (_gameLruMap w) in
           (r.1, with_gameLruMap r.2 w).

(** The body of [loadGameTimeline] in [_loadGameTimeline], up to its
    [await]. *)
Definition loadGameTimeline (force : bool) (signal : option nat) (isAble : bool)
    (gameId : Z) : M unit :=
  current ← read (fun w => gameTimeline (state w) !! gameId);
  if negb force && same_source current isAble then
    log_ debug "Game timeline query condition not changed, skip" [arg_num gameId]
  else
    cached ← _gameTimelineLruMap_get gameId;
    if same_source cached isAble then
      match cached with
      | Some c =>
          log_ info "Game timeline hit cache" [arg_num gameId] ;;
          modify_state (fun s => set_gameTimeline (<[gameId := c]> (gameTimeline s)) s) ;;
          sendEvent (ev_game "game-timeline-loaded" gameId)
      | None => skip
      end
    else if isAble then
      log_ debug "Load game timeline: SGP API" [arg_num gameId] ;;
      add GeneralQueue (sgp_getTimelineLcuFormat gameId) signal
        (Prio LOADING_PRIORITY.GAME_TIMELINE) (k_gameTimeline gameId sgp)
    else
      log_ debug "Load game timeline: LCU API" [arg_num gameId] ;;
      add GeneralQueue (lc_getTimeline gameId) signal
        (Prio LOADING_PRIORITY.GAME_TIMELINE) (k_gameTimeline gameId lcu).

(** [_loadGameTimeline(gameIds, { force, useSgpApi, signal })] *)
Definition _loadGameTimeline (gameIds : list Z) (force useSgpApi : bool)
    (signal : option nat) : M unit :=
  isAble ← read (isAbleToUseSgpApi useSgpApi);
  forEach gameIds (loadGameTimeline force signal isAble).

(** The body of [loadGame] in [_loadAdditionalGame], up to its [await]. *)
Definition loadAdditionalGame (force : bool) (signal : option nat) (isAble : bool)
    (gameId : Z) : M unit :=
  current ← read (fun w => additionalGame (state w) !! gameId);
  if negb force && same_source current isAble then
    log_ debug "Game timeline query condition not changed, skip" [arg_num gameId]
  else
    cached ← _gameLruMap_get gameId;
    if same_source cached isAble then
      match cached with
      | Some c =>
          log_ info "Additional game info hit cache" [arg_num gameId] ;;
          modify_state (fun s => set_additionalGame (<[gameId := c]> (additionalGame s)) s) ;;
          sendEvent (ev_game "additional-game-loaded" gameId)
      | None => skip
      end
    else if isAble then
      log_ info "Load additional game info: SGP API" [arg_num gameId] ;;
      add GeneralQueue (sgp_getGameSummaryLcuFormat gameId) signal
        (Prio LOADING_PRIORITY.ADDITIONAL_GAME) (k_additionalGame gameId sgp)
    else
      log_ info "Load additional game info: LCU API" [arg_num gameId] ;;
      add GeneralQueue (lc_getGame gameId) signal
        (Prio LOADING_PRIORITY.ADDITIONAL_GAME) (k_additionalGame gameId lcu).

(** [_loadAdditionalGame(gameIds, { force, useSgpApi, signal })] *)
Definition _loadAdditionalGame (gameIds : list Z) (force useSgpApi : bool)
    (signal : option nat) : M unit :=
  isAble ← read (isAbleToUseSgpApi useSgpApi);
  forEach gameIds (loadAdditionalGame force signal isAble).

(** The options of [_loadPlayerMatchHistory]. [force] and [useSgpApi] are
    only ever tested for truth, an absent one reads as [false]. *)
Record MatchHistoryOptions := {
  o_signal : option nat;
  o_mhSignal : option nat;
  o_tag : option string;
  o_count : option Z;
  o_force : bool;
  o_useSgpApi : bool;
  o_priority : option Z
}.

(** [tag === 'all' ? undefined : tag] *)
Definition all_as_undefined (tag : option string) : option string :=
  match tag with
  | Some t => if bool_decide (t = "all"%string) then None else Some t
  | None => None
  end.

(** The condition under which [_loadPlayerMatchHistory] returns at once. *)
Definition matchHistory_unchanged (force : bool) (current : option MatchHistoryRecord)
    (count : Z) (isAble : bool) (tag : option string) : bool :=
  negb force &&
  match current with
  | Some cur =>
      bool_decide (mh_targetCount cur = count) &&
      bool_decide (mh_source cur = resolved isAble) &&
      (negb isAble || bool_decide (all_as_undefined tag = mh_tag cur))
  | None => false
  end.

(** The tag the SGP request is made with, after
    [if (tag) { if (tag === 'all' || !SAFE_TAGS.has(tag)) tag = undefined }]. *)
Definition request_tag (tag : option string) : option string :=
  match tag with
  | Some t =>
      if truthy t then
        if bool_decide (t = "all"%string) || negb (SAFE_TAGS_has t) then None else Some t
      else Some t
  | None => None
  end.

(** The calls of [state.setMatchHistoryTag] in the same statement. *)
Definition publish_tag (tag : option string) : M unit :=
  match tag with
  | Some t =>
      if truthy t then
        if bool_decide (t = "all"%string) || negb (SAFE_TAGS_has t)
        then modify_state (setMatchHistoryTag "all")
        else modify_state (setMatchHistoryTag t)
      else skip
  | None => skip
  end.

(** [_loadPlayerMatchHistory(puuid, options)], up to its first [await]. *)
Definition _loadPlayerMatchHistory (puuid : string) (o : MatchHistoryOptions) : M unit :=
  let count := default 20 (o_count o) in
  isAble ← read (isAbleToUseSgpApi (o_useSgpApi o));
  current ← read (fun w => matchHistory (state w) !! puuid);
  if matchHistory_unchanged (o_force o) current count isAble (o_tag o) then
    log_ debug "Player match history query condition not changed, skip" [arg_str puuid]
  else if isAble then
    log_ info "Load player match history: SGP API" [arg_str puuid] ;;
    publish_tag (o_tag o) ;;
    modify_state (setMatchHistoryLoadingState puuid loading) ;;
    add MhQueue (sgp_getMatchHistoryLcuFormat puuid 0 count (request_tag (o_tag o)))
      (o_mhSignal o) (priority_or (o_priority o) LOADING_PRIORITY.MATCH_HISTORY)
      (k_matchHistory_sgp puuid count (request_tag (o_tag o))
         (o_signal o) (o_force o) (o_useSgpApi o))
  else
    log_ info "Load player match history: LCU API" [arg_str puuid] ;;
    modify_state (setMatchHistoryLoadingState puuid loading) ;;
    add GeneralQueue (lc_getMatchHistory puuid 0 (count - 1))
      (o_mhSignal o) (priority_or (o_priority o) LOADING_PRIORITY.MATCH_HISTORY)
      (k_matchHistory_lcu puuid count (o_signal o) (o_force o) (o_useSgpApi o)).

(** [_loadPlayerSummoner(puuid, { signal, force, priority })] *)
Definition _loadPlayerSummoner (puuid : string) (signal : option nat) (force : bool)
    (priority : option Z) : M unit :=
  current ← read (fun w => summoner (state w) !! puuid);
  if negb force && bool_decide (is_Some current) then
    log_ debug "Summoner info already exists" [arg_str puuid]
  else
    add GeneralQueue (lc_getSummonerByPuuid puuid) signal
      (priority_or priority LOADING_PRIORITY.SUMMONER) (k_summoner puuid).

(** [_loadPlayerSavedInfo(puuid, { signal, force, useSgpApi })] *)
Definition _loadPlayerSavedInfo (puuid : string) (signal : option nat)
    (force useSgpApi : bool) : M unit :=
  auth ← read (fun w => lc_auth (ext w));
  me ← read (fun w => lc_summoner_me (ext w));
  if negb auth || negb (bool_decide (is_Some me)) then skip
  else
    current ← read (fun w => savedInfo (state w) !! puuid);
    if negb force && bool_decide (is_Some current) then skip
    else
      add GeneralQueue (saved_querySavedPlayerWithGames puuid) signal
        (Prio LOADING_PRIORITY.SAVED_INFO) (k_savedInfo puuid signal force useSgpApi).

(** [_loadPlayerRankedStats(puuid, { signal, force, priority })] *)
Definition _loadPlayerRankedStats (puuid : string) (signal : option nat) (force : bool)
    (priority : option Z) : M unit :=
  current ← read (fun w => rankedStats (state w) !! puuid);
  if negb force && bool_decide (is_Some current) then
    log_ debug "Ranked stats already exists" [arg_str puuid]
  else
    add MhQueue (lc_getRankedStats puuid) signal
      (priority_or priority LOADING_PRIORITY.RANKED_STATS) (k_rankedStats puuid).

(** [_loadPlayerChampionMasteries(puuid, { signal, force, priority })] *)
Definition _loadPlayerChampionMasteries (puuid : string) (signal : option nat)
    (force : bool) (priority : option Z) : M unit :=
  current ← read (fun w => championMastery (state w) !! puuid);
  if negb force && bool_decide (is_Some current) then
    log_ debug "Champion mastery already exists" [arg_str puuid]
  else
    add MhQueue (lc_getPlayerChampionMastery puuid) signal
      (priority_or priority LOADING_PRIORITY.CHAMPION_MASTERY) (k_championMastery puuid).

(* ===================================================================== *)
(** ** Loaders: the code after each [await] *)
(* ===================================================================== *)

(** [detailedGameMap[gameId] = game] in the local load [inv]. *)
Definition record_detail (inv : nat) (gameId : Z) (game : Game) : M unit :=
  modify (fun w =>
    with_localLoads
      (alter (fun l => {| ll_puuid := ll_puuid l; ll_count := ll_count l;
                          ll_games := ll_games l;
                          detailedGameMap := <[gameId := game]> (detailedGameMap l);
                          ll_unsettled := ll_unsettled l |}) inv (localLoads w))
      (nextLocalLoad w) w).

(** One more, or one less, unsettled [loadGame] in the local load [inv]. *)
Definition set_unsettled (f : nat -> nat) (inv : nat) : M unit :=
  modify (fun w =>
    with_localLoads
      (alter (fun l => {| ll_puuid := ll_puuid l; ll_count := ll_count l;
                          ll_games := ll_games l;
                          detailedGameMap := detailedGameMap l;
                          ll_unsettled := f (ll_unsettled l) |}) inv (localLoads w))
      (nextLocalLoad w) w).

(** The body of [loadGame] in the local path of [_loadPlayerMatchHistory],
    up to its [await]. *)
Definition loadGame (inv : nat) (puuid : string) (signal : option nat)
    (gameId : Z) : M unit :=
  hit ← read (fun w => LRUMap.has gameId (_gameLruMap w));
  if (hit : bool) then
    cached ← _gameLruMap_get gameId;
    match cached with
    | Some c => record_detail inv gameId (s_data c)
    | None => skip
    end
  else
    add GeneralQueue (lc_getGame gameId) signal PrioInfinity
      (k_matchHistory_lcu_game inv puuid gameId) ;;
    set_unsettled S inv.

(** The record the remote path commits. *)
Definition toBeLoaded_sgp (games : list Game) (count : Z) (tag : option string)
    : MatchHistoryRecord :=
  {| mh_data := games; mh_targetCount := count; mh_source := sgp; mh_tag := tag |}.

(** The record the local path commits. *)
Definition toBeLoaded_lcu (games : list Game) (count : Z) : MatchHistoryRecord :=
  {| mh_data := games; mh_targetCount := count; mh_source := lcu; mh_tag := None |}.

(** [runInAction(() => (this.state.matchHistory[puuid] = toBeLoaded))], the
    event and the loading state that follow. *)
Definition commit_matchHistory (puuid : string) (r : MatchHistoryRecord) : M unit :=
  modify_state (fun s => set_matchHistory (<[puuid := r]> (matchHistory s)) s) ;;
  sendEvent (ev_player "match-history-loaded" puuid) ;;
  modify_state (setMatchHistoryLoadingState puuid loaded).

(** The local path after [await Promise.allSettled(...)]: it runs once every
    [loadGame] of the load has settled. *)
Definition after_allSettled (inv : nat) : M unit :=
  l ← read (fun w => localLoads w !! inv);
  match l with
  | Some ll =>
      match ll_unsettled ll with
      | O =>
          log_ debug "Load player match history completed: LCU API" [arg_str (ll_puuid ll)] ;;
          commit_matchHistory (ll_puuid ll)
            (toBeLoaded_lcu
               (map (fun g => default g (detailedGameMap ll !! gameId g)) (ll_games ll))
               (ll_count ll)) ;;
          modify (fun w => with_localLoads (delete inv (localLoads w)) (nextLocalLoad w) w)
      | S _ => skip
      end
  | None => skip
  end.

(** The name of a source in the messages of the logger. *)
Definition label (src : Source) : string :=
  match src with sgp => "SGP" | lcu => "LCU" end.

(** The code that runs when the awaited task settles with [o]. An answer of
    a shape the request cannot give is treated as a falsy answer. *)
Definition resume (k : Cont) (o : Outcome) : M unit :=
  match k with
  | k_matchHistory_sgp puuid count tag signal force useSgpApi =>
      match o with
      | Rejected e => _handleMatchHistoryError e puuid
      | Resolved (r_games games) =>
          log_ debug "Load player match history completed: SGP API" [arg_str puuid] ;;
          n ← read (fun w => gameTimelineLoadCount (settings w));
          _loadGameTimeline (slice0 (map gameId games) n) force useSgpApi signal ;;
          commit_matchHistory puuid (toBeLoaded_sgp games count tag)
      | Resolved _ => skip
      end
  | k_matchHistory_lcu puuid count signal force useSgpApi =>
      match o with
      | Rejected e => _handleMatchHistoryError e puuid
      | Resolved (r_games games) =>
          inv ← read nextLocalLoad;
          modify (fun w =>
            with_localLoads
              (<[inv := {| ll_puuid := puuid; ll_count := count; ll_games := games;
                           detailedGameMap := ∅; ll_unsettled := O |}]> (localLoads w))
              (S inv) w) ;;
          n ← read (fun w => gameTimelineLoadCount (settings w));
          _loadGameTimeline (slice0 (map gameId games) n) force useSgpApi signal ;;
          forEach games (fun g => loadGame inv puuid signal (gameId g)) ;;
          after_allSettled inv
      | Resolved _ => skip
      end
  | k_matchHistory_lcu_game inv puuid gameId =>
      match o with
      | Rejected e => _handleMatchHistoryError e puuid
      | Resolved (r_game g) =>
          modify (fun w =>
            with_gameLruMap (LRUMap.set gameId (mkSourced lcu g) (_gameLruMap w)) w) ;;
          record_detail inv gameId g
      | Resolved _ => skip
      end ;;
      set_unsettled pred inv ;;
      after_allSettled inv
  | k_gameTimeline gameId src =>
      match o with
      | Rejected e => _handleError e "game-timeline" (arg_num gameId)
      | Resolved (r_payload p) =>
          log_ debug ("Game timeline loaded: " +:+ label src) [arg_num gameId] ;;
          modify (fun w =>
            with_gameTimelineLruMap
              (LRUMap.set gameId (mkSourced src p) (_gameTimelineLruMap w)) w) ;;
          modify_state (fun s =>
            set_gameTimeline (<[gameId := mkSourced src p]> (gameTimeline s)) s) ;;
          sendEvent (ev_game "game-timeline-loaded" gameId)
      | Resolved _ => skip
      end
  | k_additionalGame gameId src =>
      match o with
      | Rejected e => _handleError e "additional-game" (arg_num gameId)
      | Resolved (r_game g) =>
          log_ debug ("Additional game info loaded: " +:+ label src) [arg_num gameId] ;;
          modify (fun w =>
            with_gameLruMap (LRUMap.set gameId (mkSourced src g) (_gameLruMap w)) w) ;;
          modify_state (fun s =>
            set_additionalGame (<[gameId := mkSourced src g]> (additionalGame s)) s) ;;
          sendEvent (ev_game "additional-game-loaded" gameId)
      | Resolved _ => skip
      end
  | k_summoner puuid =>
      match o with
      | Rejected e => _handleError e "summoner" (arg_str puuid)
      | Resolved (r_payload p) =>
          log_ debug "Load summoner info completed" [arg_str puuid] ;;
          modify_state (fun s =>
            set_summoner (<[puuid := mkSourced lcu p]> (summoner s)) s) ;;
          sendEvent (ev_player "summoner-loaded" puuid)
      | Resolved _ => skip
      end
  | k_savedInfo puuid signal force useSgpApi =>
      match o with
      | Rejected e => _handleError e "saved-info" (arg_str puuid)
      | Resolved (r_saved res) =>
          _loadAdditionalGame (encounteredGames res) force useSgpApi signal ;;
          forEach (tags res) (fun selfPuuid =>
            _loadPlayerSummoner selfPuuid signal force
              (Some LOADING_PRIORITY.ADDITIONAL_SUMMONER)) ;;
          modify_state (fun s => set_savedInfo (<[puuid := res]> (savedInfo s)) s) ;;
          sendEvent (ev_player "saved-info-loaded" puuid)
      | Resolved _ => skip
      end
  | k_rankedStats puuid =>
      match o with
      | Rejected e => _handleError e "ranked-stats" (arg_str puuid)
      | Resolved (r_payload p) =>
          log_ debug "Load ranked stats completed" [arg_str puuid] ;;
          modify_state (fun s =>
            set_rankedStats (<[puuid := mkSourced lcu p]> (rankedStats s)) s) ;;
          sendEvent (ev_player "ranked-stats-loaded" puuid)
      | Resolved _ => skip
      end
  | k_championMastery puuid =>
      match o with
      | Rejected e => _handleError e "champion-mastery" (arg_str puuid)
      | Resolved (r_payload p) =>
          log_ debug "Load champion mastery completed" [arg_str puuid] ;;
          modify_state (fun s =>
            set_championMastery (<[puuid := mkSourced lcu p]> (championMastery s)) s) ;;
          sendEvent (ev_player "champion-mastery-loaded" puuid)
      | Resolved _ => skip
      end
  end.

(** The admitted, unsettled tasks of both queues. *)
Definition tasks (w : OngoingGameMain) : list Task :=
  pq_tasks (_mhQueue w) ++ pq_tasks (_queue w).

Definition find_task (id : nat) (w : OngoingGameMain) : option Task :=
  List.find (fun t => bool_decide (tid t = id)) (tasks w).

Definition remove_task (id : nat) : M unit :=
  modify (fun w =>
    let keep := List.filter (fun t => negb (bool_decide (tid t = id))) in
    with_queues
      {| pq_concurrency := pq_concurrency (_mhQueue w);
         pq_tasks := keep (pq_tasks (_mhQueue w)) |}
      {| pq_concurrency := pq_concurrency (_queue w);
         pq_tasks := keep (pq_tasks (_queue w)) |}
      (nextTask w) w).

(** The task [id] settles. Its request answered with [o]; when the signal it
    was admitted with has been aborted, the awaiting code receives the abort
    error instead, whatever the request did. *)
Definition settle (id : nat) (o : Outcome) : M unit :=
  t ← read (find_task id);
  match t with
  | Some t =>
      dropped ← read (signal_aborted (t_signal t));
      remove_task id ;;
      resume (t_cont t) (if (dropped : bool) then Rejected AbortError else o)
  | None => skip
  end.

(* ===================================================================== *)
(** ** The orchestrator *)
(* ===================================================================== *)

(** [team.filter((p) => p.puuid && p.puuid !== EMPTY_PUUID).map((t) => t.puuid)] *)
Definition loadable (empty : string) (team : list string) : list string :=
  List.filter (fun p => truthy p && negb (bool_decide (p = empty))) team.

(** [getPuuidsToLoadForPlayers()] *)
Definition getPuuidsToLoadForPlayers (w : OngoingGameMain) : list string :=
  let of_session (s : option Session) :=
    match s with
    | Some s =>
        loadable (EMPTY_PUUID (ext w)) (sideOne s) ++
        loadable (EMPTY_PUUID (ext w)) (sideTwo s)
    | None => []
    end in
  match phase (queryStage (state w)) with
  | unavailable => []
  | champ_select => of_session (champSelect_session (ext w))
  | in_game => of_session (gameflow_session (ext w))
  end.

(** [_getCurrentGameMatchHistoryTag()] *)
Definition _getCurrentGameMatchHistoryTag (w : OngoingGameMain) : string :=
  match gameInfo (queryStage (state w)) with
  | None => "all"
  | Some gi =>
      if SAFE_TAGS_has ("q_" +:+ pretty (queueId gi))
      then "q_" +:+ pretty (queueId gi)
      else "all"
  end.

(** [_champSelect({ mhSignal, signal, force })] *)
Definition _champSelect (mhSignal signal : nat) (force : bool) : M unit :=
  puuids ← read getPuuidsToLoadForPlayers;
  forEach puuids (fun puuid =>
    o ← read (fun w =>
      {| o_signal := Some signal;
         o_mhSignal := Some mhSignal;
         o_force := force;
         o_tag := Some (match matchHistoryTagPreference (settings w) with
                        | pref_current => _getCurrentGameMatchHistoryTag w
                        | pref_all => "all"%string
                        end);
         o_count := Some (matchHistoryLoadCount (settings w));
         o_useSgpApi := matchHistoryUseSgpApi (settings w);
         o_priority := None |});
    _loadPlayerMatchHistory puuid o ;;
    _loadPlayerSummoner puuid (Some signal) force None ;;
    _loadPlayerRankedStats puuid (Some signal) force None ;;
    useSgpApi ← read (fun w => matchHistoryUseSgpApi (settings w));
    _loadPlayerSavedInfo puuid (Some signal) force useSgpApi ;;
    _loadPlayerChampionMasteries puuid (Some signal) force None).

(** [_inGame({ mhSignal, signal, force })]: as its comment says, the same
    as [_champSelect]. *)
Definition _inGame (mhSignal signal : nat) (force : bool) : M unit :=
  puuids ← read getPuuidsToLoadForPlayers;
  forEach puuids (fun puuid =>
    o ← read (fun w =>
      {| o_signal := Some signal;
         o_mhSignal := Some mhSignal;
         o_force := force;
         o_tag := Some (match matchHistoryTagPreference (settings w) with
                        | pref_current => _getCurrentGameMatchHistoryTag w
                        | pref_all => "all"%string
                        end);
         o_count := Some (matchHistoryLoadCount (settings w));
         o_useSgpApi := matchHistoryUseSgpApi (settings w);
         o_priority := None |});
    _loadPlayerMatchHistory puuid o ;;
    _loadPlayerSummoner puuid (Some signal) force None ;;
    _loadPlayerRankedStats puuid (Some signal) force None ;;
    useSgpApi ← read (fun w => matchHistoryUseSgpApi (settings w));
    _loadPlayerSavedInfo puuid (Some signal) force useSgpApi ;;
    _loadPlayerChampionMasteries puuid (Some signal) force None).

(** [if (this._controller) { this._controller.abort(); this._controller = null }] *)
Definition abort_controller : M unit :=
  modify (fun w =>
    match _controller w with
    | Some c =>
        with_controllers (_mhController w) None ({[c]} ∪ abortedSignals w)
          (nextController w) w
    | None => w
    end).

(** The same statement for [this._mhController]. *)
Definition abort_mhController : M unit :=
  modify (fun w =>
    match _mhController w with
    | Some c =>
        with_controllers None (_controller w) ({[c]} ∪ abortedSignals w)
          (nextController w) w
    | None => w
    end).

(** [this._controller = new AbortController()]; the result is its signal. *)
Definition new_controller : M nat :=
  fun w =>
    (nextController w,
     with_controllers (_mhController w) (Some (nextController w)) (abortedSignals w)
       (S (nextController w)) w).

(** [this._mhController = new AbortController()]; the result is its signal. *)
Definition new_mhController : M nat :=
  fun w =>
    (nextController w,
     with_controllers (Some (nextController w)) (_controller w) (abortedSignals w)
       (S (nextController w)) w).

(** The loads of the current stage, as both [_handleLoad] and
    [_clearAndReload] end. *)
Definition dispatch (mhSignal signal : nat) (force : bool) : M unit :=
  ph ← read (fun w => phase (queryStage (state w)));
  match ph with
  | champ_select => _champSelect mhSignal signal force
  | in_game => _inGame mhSignal signal force
  | unavailable => skip
  end.

(** The effect of the reaction of [_handleLoad]: it runs when one of the
    stage, [settings.enabled], the readiness of the SGP token and
    [settings.matchHistoryUseSgpApi] has changed (and once at start). *)
Definition _handleLoad : M unit :=
  log_ info "Handle auto match history loading" [] ;;
  abort_controller ;;
  abort_mhController ;;
  modify (with_debounced O) ;;
  stage ← read (fun w => queryStage (state w));
  enabled_ ← read (fun w => enabled (settings w));
  tokenReady ← read (fun w => sgp_isTokenReady (ext w));
  useSgpApi ← read (fun w => matchHistoryUseSgpApi (settings w));
  if bool_decide (phase stage = unavailable) || negb enabled_ ||
     ((useSgpApi : bool) && negb tokenReady)
  then
    modify_state clear ;;
    modify_state (setMatchHistoryTag "all") ;;
    sendEvent ev_clear
  else
    signal ← new_controller;
    mhSignal ← new_mhController;
    dispatch mhSignal signal false.

(** [_updateMatchHistory()], the function behind
    [_debouncedUpdateMatchHistoryFn]. *)
Definition _updateMatchHistory : M unit :=
  enabled_ ← read (fun w => enabled (settings w));
  ph ← read (fun w => phase (queryStage (state w)));
  if negb enabled_ then skip
  else if bool_decide (ph = unavailable) then skip
  else
    abort_mhController ;;
    mhSignal ← new_mhController;
    puuids ← read getPuuidsToLoadForPlayers;
    forEach puuids (fun puuid =>
      o ← read (fun w =>
        {| o_signal := None;
           o_mhSignal := Some mhSignal;
           o_count := Some (matchHistoryLoadCount (settings w));
           o_tag := Some (matchHistoryTag (state w));
           o_force := false;
           o_useSgpApi := matchHistoryUseSgpApi (settings w);
           o_priority := None |});
      _loadPlayerMatchHistory puuid o).

(** [_clearAndReload()] *)
Definition _clearAndReload : M unit :=
  abort_controller ;;
  abort_mhController ;;
  modify_state clear ;;
  sendEvent ev_clear ;;
  signal ← new_controller;
  mhSignal ← new_mhController;
  dispatch mhSignal signal true.

(** The effect of the reaction of [_handlePQueue] on [settings.concurrency]. *)
Definition _handlePQueue : M unit :=
  modify (fun w =>
    with_queues
      {| pq_concurrency := concurrency (settings w); pq_tasks := pq_tasks (_mhQueue w) |}
      {| pq_concurrency := concurrency (settings w); pq_tasks := pq_tasks (_queue w) |}
      (nextTask w) w).

(** Modelled from the spec: [_.debounce] comes from the package [lodash],
    which is not part of the sources. A debounced function coalesces its
    calls and runs once, after the last of them. A call of
    [_debouncedUpdateMatchHistoryFn]: one more call stands behind the
    pending timer. *)
Definition _debouncedUpdateMatchHistoryFn_call : M unit :=
  modify (fun w => with_debounced (S (_debouncedUpdateMatchHistoryFn w)) w).

(** The timer of the debounced function fires. *)
Definition _debouncedUpdateMatchHistoryFn_fire : M unit :=
  n ← read _debouncedUpdateMatchHistoryFn;
  match n with
  | O => skip
  | S _ => modify (with_debounced O) ;; _updateMatchHistory
  end.

(* ===================================================================== *)
(** ** IPC calls *)
(* ===================================================================== *)

(** The object that the call [getAll] returns. Its field [gameTimeline] has
    the type of what the code puts there. *)
Record GetAll := {
  ga_matchHistory : gmap string MatchHistoryRecord;
  ga_summoner : gmap string (Sourced Payload);
  ga_rankedStats : gmap string (Sourced Payload);
  ga_savedInfo : gmap string SavedInfo;
  ga_championMastery : gmap string (Sourced Payload);
  ga_gameTimeline : gmap Z (Sourced Game);
  ga_additionalGames : gmap Z (Sourced Game)
}.

(** The handler of [getAll]; [toJS] copies a map as it is. *)
Definition getAll (w : OngoingGameMain) : GetAll :=
  let matchHistory_ := matchHistory (state w) in
  let summoner_ := summoner (state w) in
  let rankedStats_ := rankedStats (state w) in
  let savedInfo_ := savedInfo (state w) in
  let championMastery_ := championMastery (state w) in
  let gameTimeline_ := additionalGame (state w) in
  let additionalGames_ := additionalGame (state w) in
  {| ga_matchHistory := matchHistory_;
     ga_summoner := summoner_;
     ga_rankedStats := rankedStats_;
     ga_savedInfo := savedInfo_;
     ga_championMastery := championMastery_;
     ga_gameTimeline := gameTimeline_;
     ga_additionalGames := additionalGames_ |}.

(** The handler of [setMatchHistoryTag]. *)
Definition ipc_setMatchHistoryTag (tag : string) : M unit :=
  if SAFE_TAGS_has tag || bool_decide (tag = "all"%string) then
    modify_state (setMatchHistoryTag tag) ;;
    _debouncedUpdateMatchHistoryFn_call
  else skip.

(** The handler of [reload]. *)
Definition ipc_reload : M unit := _clearAndReload.

(* ===================================================================== *)
(** ** Settings handlers of [onInit] *)
(* ===================================================================== *)

Section SettingUpdates.
Implicit Type s : OngoingGameSettings.

Definition set_matchHistoryLoadCount (v : Z) s :=
  {| concurrency := concurrency s; enabled := enabled s;
     matchHistoryLoadCount := v; premadeTeamThreshold := premadeTeamThreshold s;
     matchHistoryUseSgpApi := matchHistoryUseSgpApi s;
     matchHistoryTagPreference := matchHistoryTagPreference s;
     gameTimelineLoadCount := gameTimelineLoadCount s |}.

Definition set_gameTimelineLoadCount (v : Z) s :=
  {| concurrency := concurrency s; enabled := enabled s;
     matchHistoryLoadCount := matchHistoryLoadCount s;
     premadeTeamThreshold := premadeTeamThreshold s;
     matchHistoryUseSgpApi := matchHistoryUseSgpApi s;
     matchHistoryTagPreference := matchHistoryTagPreference s;
     gameTimelineLoadCount := v |}.

Definition set_premadeTeamThreshold (v : Z) s :=
  {| concurrency := concurrency s; enabled := enabled s;
     matchHistoryLoadCount := matchHistoryLoadCount s;
     premadeTeamThreshold := v;
     matchHistoryUseSgpApi := matchHistoryUseSgpApi s;
     matchHistoryTagPreference := matchHistoryTagPreference s;
     gameTimelineLoadCount := gameTimelineLoadCount s |}.

Definition set_matchHistoryUseSgpApi (v : bool) s :=
  {| concurrency := concurrency s; enabled := enabled s;
     matchHistoryLoadCount := matchHistoryLoadCount s;
     premadeTeamThreshold := premadeTeamThreshold s;
     matchHistoryUseSgpApi := v;
     matchHistoryTagPreference := matchHistoryTagPreference s;
     gameTimelineLoadCount := gameTimelineLoadCount s |}.

Definition set_enabled (v : bool) s :=
  {| concurrency := concurrency s; enabled := v;
     matchHistoryLoadCount := matchHistoryLoadCount s;
     premadeTeamThreshold := premadeTeamThreshold s;
     matchHistoryUseSgpApi := matchHistoryUseSgpApi s;
     matchHistoryTagPreference := matchHistoryTagPreference s;
     gameTimelineLoadCount := gameTimelineLoadCount s |}.

Definition set_matchHistoryTagPreference (v : TagPreference) s :=
  {| concurrency := concurrency s; enabled := enabled s;
     matchHistoryLoadCount := matchHistoryLoadCount s;
     premadeTeamThreshold := premadeTeamThreshold s;
     matchHistoryUseSgpApi := matchHistoryUseSgpApi s;
     matchHistoryTagPreference := v;
     gameTimelineLoadCount := gameTimelineLoadCount s |}.
End SettingUpdates.

(** [this._setting.onChange('gameTimelineLoadCount', ...)] *)
Definition onChange_gameTimelineLoadCount (value : Z) : M unit :=
  limit ← read (fun w => matchHistoryLoadCount (settings w));
  if (0 <=? value) && (value <=? limit) then
    modify (with_settings (set_gameTimelineLoadCount value))
  else
    limit' ← read (fun w => matchHistoryLoadCount (settings w));
    modify (with_settings (set_gameTimelineLoadCount limit')).

(** Modelled from the spec: [this._setting.set(key, value)] belongs to the
    setting service, which is not part of the sources. The spec has the
    settings store enforce the clamp on every change to either field: a [set]
    of [gameTimelineLoadCount] goes through the handler registered for it. *)
Definition _setting_set_gameTimelineLoadCount (value : Z) : M unit :=
  onChange_gameTimelineLoadCount value.

(** [this._setting.onChange('matchHistoryLoadCount', ...)] *)
Definition onChange_matchHistoryLoadCount (value : Z) : M unit :=
  (if (1 <=? value) && (value <=? 200) then
     modify (with_settings (set_matchHistoryLoadCount value)) ;;
     _debouncedUpdateMatchHistoryFn_call
   else skip) ;;
  current ← read (fun w => gameTimelineLoadCount (settings w));
  _setting_set_gameTimelineLoadCount (Z.min value current).

(** [this._setting.onChange('premadeTeamThreshold', ...)] *)
Definition onChange_premadeTeamThreshold (value : Z) : M unit :=
  if 2 <=? value then modify (with_settings (set_premadeTeamThreshold value))
  else skip.

(** [this._setting.onChange('matchHistoryUseSgpApi', ...)]. The setter
    writes the value; [settings.matchHistoryUseSgpApi] is watched by the
    reaction of [_handleLoad], which runs when the value has changed, before
    the handler goes on after its [await]. *)
Definition onChange_matchHistoryUseSgpApi (value : bool) : M unit :=
  old ← read (fun w => matchHistoryUseSgpApi (settings w));
  modify (with_settings (set_matchHistoryUseSgpApi value)) ;;
  (if bool_decide (old = value) then skip else _handleLoad) ;;
  _debouncedUpdateMatchHistoryFn_call.

(** A change of [settings.enabled]: no handler is registered for it, the
    value is written, and the reaction of [_handleLoad], which watches it,
    runs when the value has changed. *)
Definition change_enabled (value : bool) : M unit :=
  old ← read (fun w => enabled (settings w));
  modify (with_settings (set_enabled value)) ;;
  if bool_decide (old = value) then skip else _handleLoad.

(** A change of [settings.matchHistoryTagPreference]: no handler is
    registered for it and no reaction watches it, the value is written. *)
Definition change_matchHistoryTagPreference (value : TagPreference) : M unit :=
  modify (with_settings (set_matchHistoryTagPreference value)).

(* ===================================================================== *)
(** ** The shard over time *)
(* ===================================================================== *)

#[global] Instance GameInfo_eq_dec : EqDecision GameInfo.
Proof. solve_decision. Defined.

#[global] Instance QueryStage_eq_dec : EqDecision QueryStage.
Proof. solve_decision. Defined.

(** [maxSize: 400], of both caches. *)
Definition maxSize : nat := 400.

(** The shard as its constructor leaves it, for the given settings and
    collaborators: nothing loaded, no controller, empty queues and caches. *)
Definition constructed (s : OngoingGameSettings) (c : Collaborators) : OngoingGameMain :=
  {| settings := s;
     state := {| queryStage := {| phase := unavailable; gameInfo := None |};
                 matchHistory := ∅; summoner := ∅; rankedStats := ∅; savedInfo := ∅;
                 championMastery := ∅; gameTimeline := ∅; additionalGame := ∅;
                 matchHistoryTag := "all"; matchHistoryLoadingState := ∅ |};
     ext := c;
     _gameLruMap := LRUMap.create maxSize;
     _gameTimelineLruMap := LRUMap.create maxSize;
     _mhQueue := {| pq_concurrency := 0; pq_tasks := [] |};
     _mhController := None;
     _queue := {| pq_concurrency := 0; pq_tasks := [] |};
     _controller := None;
     _debouncedUpdateMatchHistoryFn := O;
     abortedSignals := ∅;
     nextController := O;
     nextTask := O;
     localLoads := ∅;
     nextLocalLoad := O;
     _log := [];
     _ipc := [] |}.

(** [onInit()]: the two reactions that fire immediately. *)
Definition onInit : M unit := _handlePQueue ;; _handleLoad.

Section ConcurrencyUpdate.
Implicit Type s : OngoingGameSettings.

Definition set_concurrency (v : Z) s :=
  {| concurrency := v; enabled := enabled s;
     matchHistoryLoadCount := matchHistoryLoadCount s;
     premadeTeamThreshold := premadeTeamThreshold s;
     matchHistoryUseSgpApi := matchHistoryUseSgpApi s;
     matchHistoryTagPreference := matchHistoryTagPreference s;
     gameTimelineLoadCount := gameTimelineLoadCount s |}.
End ConcurrencyUpdate.

(** What happens to the shard from outside. *)
Inductive Event :=
| stage_changed (q : QueryStage)
| collaborators_changed (c : Collaborators)
| task_settled (id : nat) (o : Outcome)
| debounce_elapsed
| call_setMatchHistoryTag (tag : string)
| call_reload
| setting_concurrency (v : Z)
| setting_matchHistoryLoadCount (v : Z)
| setting_gameTimelineLoadCount (v : Z)
| setting_premadeTeamThreshold (v : Z)
| setting_enabled (v : bool)
| setting_matchHistoryUseSgpApi (v : bool)
| setting_matchHistoryTagPreference (v : TagPreference).

(** One event. A new stage, a new readiness of the SGP token, or a new value
    of [settings.enabled] or [settings.matchHistoryUseSgpApi], makes the
    reaction of [_handleLoad] run; other data of the collaborators is only
    read when a method needs it. *)
Definition step (e : Event) : M unit :=
  match e with
  | stage_changed q =>
      old ← read (fun w => queryStage (state w));
      modify_state (set_queryStage q) ;;
      if bool_decide (old = q) then skip else _handleLoad
  | collaborators_changed c =>
      old ← read (fun w => sgp_isTokenReady (ext w));
      modify (with_ext (fun _ => c)) ;;
      if bool_decide (old = sgp_isTokenReady c) then skip else _handleLoad
  | task_settled id o => settle id o
  | debounce_elapsed => _debouncedUpdateMatchHistoryFn_fire
  | call_setMatchHistoryTag tag => ipc_setMatchHistoryTag tag
  | call_reload => ipc_reload
  | setting_concurrency v =>
      modify (with_settings (set_concurrency v)) ;; _handlePQueue
  | setting_matchHistoryLoadCount v => onChange_matchHistoryLoadCount v
  | setting_gameTimelineLoadCount v => onChange_gameTimelineLoadCount v
  | setting_premadeTeamThreshold v => onChange_premadeTeamThreshold v
  | setting_enabled v => change_enabled v
  | setting_matchHistoryUseSgpApi v => onChange_matchHistoryUseSgpApi v
  | setting_matchHistoryTagPreference v => change_matchHistoryTagPreference v
  end.

(** The events one after the other. *)
Definition run (es : list Event) (w : OngoingGameMain) : OngoingGameMain :=
  foldl (fun w e => exec (step e) w) w es.

(** The tasks that [m] admits to the queue [q] when it runs in [w]. *)
Definition admitted {A} (q : QueueId) (m : M A) (w : OngoingGameMain) : list Task :=
  match q with
  | MhQueue => drop (length (pq_tasks (_mhQueue w))) (pq_tasks (_mhQueue (exec m w)))
  | GeneralQueue => drop (length (pq_tasks (_queue w))) (pq_tasks (_queue (exec m w)))
  end.

(* ===================================================================== *)
(** ** Delayed reactions *)
(* ===================================================================== *)

(** A reaction with a delay. *)
Module Reaction.
(** Modelled from the spec: [this._mobx.reaction(expression, effect,
    { delay, equals })] belongs to [../mobx-utils], which is not part of the
    sources. The spec has the effect debounced by a fixed quiet window: a
    change of the watched value (as filtered by [equals]) opens the window
    anew, and the effect runs once when the window closes. Times are in
    milliseconds; [runs] holds the times at which the effect ran, most
    recent first. *)
Record t := mk { delay : Z; scheduled : option Z; runs : list Z }.

Definition create (d : Z) : t := {| delay := d; scheduled := None; runs := [] |}.

(** Time passes until [now]: a run whose window has closed takes place. *)
Definition advance (now : Z) (r : t) : t :=
  match scheduled r with
  | Some due =>
      if due <=? now
      then {| delay := delay r; scheduled := None; runs := due :: runs r |}
      else r
  | None => r
  end.

(** The watched value changes at [now]. *)
Definition changed (now : Z) (r : t) : t :=
  let r' := advance now r in
  {| delay := delay r'; scheduled := Some (now + delay r'); runs := runs r' |}.

(** The changes at the given times, then time passes until [horizon]. *)
Definition play (changes : list Z) (horizon : Z) (r : t) : t :=
  advance horizon (foldl (fun r now => changed now r) r changes).

(** Each change comes less than [d] after the one before. *)
Fixpoint burst (d : Z) (first : Z) (rest : list Z) : Prop :=
  match rest with
  | [] => True
  | t :: rest' => first <= t < first + d /\ burst d t rest'
  end.
End Reaction.

(** The first reaction of [_handleCalculation], which recomputes the player
    statistics: [{ delay: 200, equals: comparer.shallow }] over the values of
    [state.matchHistory] and [state.additionalGame]. *)
Definition playerStats_reaction : Reaction.t := Reaction.create 200.

(** The second reaction of [_handleCalculation], which recomputes the
    premade teams: [{ delay: 200, equals: comparer.shallow }]. *)
Definition premadeTeams_reaction : Reaction.t := Reaction.create 200.

(* ===================================================================== *)
(** ** Predicates on the shard *)
(* ===================================================================== *)

(** [m] keeps [I]: when [I] holds before [m] runs, it holds after. *)
Definition keeps {A} (I : OngoingGameMain -> Prop) (m : M A) : Prop :=
  forall w, I w -> I (m w).2.

(** The queue and the priority with which the code admits the task awaited
    by each continuation. *)
Definition placed_at (q : QueueId) (p : Priority) (k : Cont) : Prop :=
  match k with
  | k_matchHistory_sgp _ _ _ _ _ _ =>
      q = MhQueue /\ p = Prio LOADING_PRIORITY.MATCH_HISTORY
  | k_matchHistory_lcu _ _ _ _ _ =>
      q = GeneralQueue /\ p = Prio LOADING_PRIORITY.MATCH_HISTORY
  | k_matchHistory_lcu_game _ _ _ =>
      q = GeneralQueue /\ p = PrioInfinity
  | k_gameTimeline _ _ =>
      q = GeneralQueue /\ p = Prio LOADING_PRIORITY.GAME_TIMELINE
  | k_additionalGame _ _ =>
      q = GeneralQueue /\ p = Prio LOADING_PRIORITY.ADDITIONAL_GAME
  | k_summoner _ =>
      q = GeneralQueue /\
      (p = Prio LOADING_PRIORITY.SUMMONER \/ p = Prio LOADING_PRIORITY.ADDITIONAL_SUMMONER)
  | k_savedInfo _ _ _ _ =>
      q = GeneralQueue /\ p = Prio LOADING_PRIORITY.SAVED_INFO
  | k_rankedStats _ =>
      q = MhQueue /\ p = Prio LOADING_PRIORITY.RANKED_STATS
  | k_championMastery _ =>
      q = MhQueue /\ p = Prio LOADING_PRIORITY.CHAMPION_MASTERY
  end.

Definition placed (t : Task) : Prop :=
  placed_at (t_queue t) (t_priority t) (t_cont t).

(** Every admitted task sits in the queue it names, and both queues have the
    concurrency of the settings. *)
Definition well_queued (w : OngoingGameMain) : Prop :=
  Forall (fun t => t_queue t = MhQueue /\ placed t) (pq_tasks (_mhQueue w)) /\
  Forall (fun t => t_queue t = GeneralQueue /\ placed t) (pq_tasks (_queue w)) /\
  pq_concurrency (_mhQueue w) = concurrency (settings w) /\
  pq_concurrency (_queue w) = concurrency (settings w).

(** The queue and the priority of the tasks that the loads of the roster
    admit when they are called ([_champSelect], [_inGame] and
    [_updateMatchHistory]): they await no detail, timeline or
    additional-game request, and their summoner request has the priority of
    the players of the roster. *)
Definition roster_place (q : QueueId) (p : Priority) (k : Cont) : Prop :=
  match k with
  | k_matchHistory_sgp _ _ _ _ _ _ =>
      q = MhQueue /\ p = Prio LOADING_PRIORITY.MATCH_HISTORY
  | k_matchHistory_lcu _ _ _ _ _ =>
      q = GeneralQueue /\ p = Prio LOADING_PRIORITY.MATCH_HISTORY
  | k_summoner _ =>
      q = GeneralQueue /\ p = Prio LOADING_PRIORITY.SUMMONER
  | k_savedInfo _ _ _ _ =>
      q = GeneralQueue /\ p = Prio LOADING_PRIORITY.SAVED_INFO
  | k_rankedStats _ =>
      q = MhQueue /\ p = Prio LOADING_PRIORITY.RANKED_STATS
  | k_championMastery _ =>
      q = MhQueue /\ p = Prio LOADING_PRIORITY.CHAMPION_MASTERY
  | k_matchHistory_lcu_game _ _ _ | k_gameTimeline _ _ | k_additionalGame _ _ => False
  end.

(** The queue and the priority of the tasks that the code after an [await]
    admits: the per-game details of a local match history, timelines,
    additional games, and the summoners named by the tags of a saved player,
    with the priority of an additional summoner. *)
Definition follow_up_place (q : QueueId) (p : Priority) (k : Cont) : Prop :=
  match k with
  | k_matchHistory_lcu_game _ _ _ =>
      q = GeneralQueue /\ p = PrioInfinity
  | k_gameTimeline _ _ =>
      q = GeneralQueue /\ p = Prio LOADING_PRIORITY.GAME_TIMELINE
  | k_additionalGame _ _ =>
      q = GeneralQueue /\ p = Prio LOADING_PRIORITY.ADDITIONAL_GAME
  | k_summoner _ =>
      q = GeneralQueue /\ p = Prio LOADING_PRIORITY.ADDITIONAL_SUMMONER
  | k_matchHistory_sgp _ _ _ _ _ _ | k_matchHistory_lcu _ _ _ _ _
  | k_savedInfo _ _ _ _ | k_rankedStats _ | k_championMastery _ => False
  end.

(** Since [w0], tasks were only added to the queues, each at the end of the
    queue it names and at a place that [ok] allows. *)
Definition grown (ok : QueueId -> Priority -> Cont -> Prop)
    (w0 w : OngoingGameMain) : Prop :=
  exists l1 l2,
    pq_tasks (_mhQueue w) = pq_tasks (_mhQueue w0) ++ l1 /\
    pq_tasks (_queue w) = pq_tasks (_queue w0) ++ l2 /\
    Forall (fun t => t_queue t = MhQueue /\ ok MhQueue (t_priority t) (t_cont t)) l1 /\
    Forall (fun t => t_queue t = GeneralQueue /\
                     ok GeneralQueue (t_priority t) (t_cont t)) l2.

(** Every task that [m] admits when it runs in [w] is at a place that [ok]
    allows. *)
Definition admits_at {A} (ok : QueueId -> Priority -> Cont -> Prop) (m : M A)
    (w : OngoingGameMain) : Prop :=
  Forall (fun t => t_queue t = MhQueue /\ ok MhQueue (t_priority t) (t_cont t))
    (admitted MhQueue m w) /\
  Forall (fun t => t_queue t = GeneralQueue /\ ok GeneralQueue (t_priority t) (t_cont t))
    (admitted GeneralQueue m w).

(** The awaited requests whose [catch] calls [_handleError]: those of every
    loader but the match-history one. *)
Definition handled_by_handleError (k : Cont) : bool :=
  match k with
  | k_gameTimeline _ _ | k_additionalGame _ _ | k_summoner _
  | k_savedInfo _ _ _ _ | k_rankedStats _ | k_championMastery _ => true
  | k_matchHistory_sgp _ _ _ _ _ _ | k_matchHistory_lcu _ _ _ _ _
  | k_matchHistory_lcu_game _ _ _ => false
  end.

(** The player of a match-history request: the SGP request of the remote
    path or the list request of the local path. *)
Definition matchHistory_request (k : Cont) : option string :=
  match k with
  | k_matchHistory_sgp puuid _ _ _ _ _ | k_matchHistory_lcu puuid _ _ _ _ => Some puuid
  | _ => None
  end.

(** The seven state maps that loaders commit to. *)
Definition committed (w : OngoingGameMain) :=
  (matchHistory (state w), summoner (state w), rankedStats (state w),
   savedInfo (state w), championMastery (state w), gameTimeline (state w),
   additionalGame (state w)).

(** What the timeline loader never writes. *)
Definition beside_timelines (w : OngoingGameMain) :=
  (matchHistory (state w), matchHistoryTag (state w),
   matchHistoryLoadingState (state w), ext w, settings w, _mhQueue w).

(** Both caches have the capacity 400 and hold at most that many entries. *)
Definition caches_bounded (w : OngoingGameMain) : Prop :=
  (LRUMap.maxSize (_gameLruMap w) = maxSize /\
   (LRUMap.size (_gameLruMap w) <= maxSize)%nat) /\
  (LRUMap.maxSize (_gameTimelineLruMap w) = maxSize /\
   (LRUMap.size (_gameTimelineLruMap w) <= maxSize)%nat).

(* ===================================================================== *)
(** ** The access history of a cache *)
(* ===================================================================== *)

(** Both caches of the shard are what some operations made of the empty
    cache of the constructor. *)
Definition caches_from_ops (w : OngoingGameMain) : Prop :=
  (exists os, _gameLruMap w = LRUMap.run_ops os (LRUMap.create maxSize)) /\
  (exists os, _gameTimelineLruMap w = LRUMap.run_ops os (LRUMap.create maxSize)).

(** The key that an operation accesses: [set] accesses its key, [get] its
    key when the key is resident; a miss of [get] and [has] access nothing. *)
Definition accessed {V} (o : @LRUMap.op V) (c : LRUMap.t V) : list Z :=
  match o with
  | LRUMap.Set_ k _ => [k]
  | LRUMap.Get k => if LRUMap.has k c then [k] else []
  | LRUMap.Has _ => []
  end.

(** The accesses of the operations [os] run from [c], the latest first, in
    front of the earlier accesses [h]. *)
Fixpoint history {V} (os : list (@LRUMap.op V)) (c : LRUMap.t V) (h : list Z)
    : list Z :=
  match os with
  | [] => h
  | o :: os' => history os' (LRUMap.run_op o c) (accessed o c ++ h)
  end.

(** The number of accesses made since the last access of [k]. *)
Fixpoint age (h : list Z) (k : Z) : option nat :=
  match h with
  | [] => None
  | x :: h' => if bool_decide (x = k) then Some O else S <$> age h' k
  end.

(** [a] was last accessed after [b] was. *)
Definition more_recent (h : list Z) (a b : Z) : Prop :=
  exists x y, age h a = Some x /\ age h b = Some y /\ (x < y)%nat.

(** [e] is the least recently accessed of the keys [ks]. *)
Definition least_recent (h : list Z) (ks : list Z) (e : Z) : Prop :=
  e ∈ ks /\ forall k, k ∈ ks -> k ≠ e -> more_recent h k e.

(** The keys of a history, each once, in the order of their last access,
    the latest first. *)
Fixpoint recency (h : list Z) : list Z :=
  match h with
  | [] => []
  | k :: h' => k :: filter (fun x => x ≠ k) (recency h')
  end.

(* ===================================================================== *)
(** ** Concrete shards, answers and traces *)
(* ===================================================================== *)

Definition demo_settings : OngoingGameSettings :=
  {| concurrency := 2; enabled := true; matchHistoryLoadCount := 20;
     premadeTeamThreshold := 3; matchHistoryUseSgpApi := true;
     matchHistoryTagPreference := pref_all; gameTimelineLoadCount := 0 |}.

(** One player on the first side; the SGP token is ready; whether the SGP
    server supports match histories is the argument. *)
Definition demo_ext (supported : bool) : Collaborators :=
  {| EMPTY_PUUID := "00000000-0000-0000-0000-000000000000";
     sgp_isTokenReady := true;
     sgp_serversSupported_matchHistory := supported;
     champSelect_session := Some {| sideOne := ["p1"]; sideTwo := [] |};
     gameflow_session := Some {| sideOne := ["p1"]; sideTwo := [] |};
     lc_auth := true;
     lc_summoner_me := Some "me"%string |}.

(** After [onInit], on a server without SGP match histories. *)
Definition local_shard : OngoingGameMain :=
  exec onInit (constructed demo_settings (demo_ext false)).

(** After [onInit], on a server with SGP match histories. *)
Definition remote_shard : OngoingGameMain :=
  exec onInit (constructed demo_settings (demo_ext true)).

(** A shard whose only loaded data is the timeline of game 7. *)
Definition timeline_shard : OngoingGameMain :=
  with_state (set_gameTimeline {[ 7 := mkSourced lcu 1 ]}) local_shard.

(** The entry of game 101 in a match-history list, and its detailed record. *)
Definition game101 : Game := {| gameId := 101; gameBody := 0 |}.
Definition game101_detailed : Game := {| gameId := 101; gameBody := 1 |}.

(** A 404 answer of the league client, and a failure that is neither an
    abort nor a 404. *)
Definition not_found : JsError :=
  {| instanceofError := true; name := "AxiosError";
     isAxiosError := true; responseStatus := Some 404 |}.
Definition server_error : JsError :=
  {| instanceofError := true; name := "AxiosError";
     isAxiosError := true; responseStatus := Some 500 |}.

(** Options of a match-history load as [_champSelect] builds them, for the
    given tag. *)
Definition demo_options (tag : option string) (useSgpApi : bool) : MatchHistoryOptions :=
  {| o_signal := None; o_mhSignal := None; o_tag := tag; o_count := Some 20;
     o_force := false; o_useSgpApi := useSgpApi; o_priority := None |}.

(** Generation 1: champion select starts while the server has no SGP match
    histories, the list of player p1 arrives and the detail of game 101 is
    requested. Generation 2: the server now supports SGP match histories and
    the game starts. Then the detail request of generation 1 settles, and
    the SGP request of generation 2 fails. *)
Definition generation1 : list Event :=
  [ stage_changed {| phase := champ_select; gameInfo := None |};
    task_settled 0 (Resolved (r_games [game101])) ].

Definition generation2 : list Event :=
  [ collaborators_changed (demo_ext true);
    stage_changed {| phase := in_game; gameInfo := None |} ].

Definition late_settlement : list Event :=
  [ task_settled 5 (Resolved (r_game game101_detailed)) ].

Definition failed_reload : list Event :=
  [ task_settled 6 (Rejected server_error) ].

(** A saved player whose tags name the player p9, who is not in the roster. *)
Definition saved_with_tag : SavedInfo :=
  {| encounteredGames := []; tags := ["p9"%string]; si_rest := 0 |}.

(** The timelines of the games 1 to 400 are cached one after the other,
    then the one of game 1 is read. *)
Definition filled_then_read : list (@LRUMap.op (Sourced Payload)) :=
  ((fun k => LRUMap.Set_ k (mkSourced lcu k)) <$> seqZ 1 400) ++ [LRUMap.Get 1].

(* ===================================================================== *)
(** ** Further predicates on the shard *)
(* ===================================================================== *)


(** The ranges that the settings handlers of [onInit] accept. *)
Definition settings_in_range (s : OngoingGameSettings) : Prop :=
  1 <= matchHistoryLoadCount s <= 200 /\
  0 <= gameTimelineLoadCount s <= matchHistoryLoadCount s /\
  2 <= premadeTeamThreshold s.


(** The condition under which [_handleLoad] clears instead of loading. *)
Definition must_clear (w : OngoingGameMain) : bool :=
  bool_decide (phase (queryStage (state w)) = unavailable)
  || negb (enabled (settings w))
  || (matchHistoryUseSgpApi (settings w) && negb (sgp_isTokenReady (ext w))).

(** The signal of a controller that may be absent, as a set. *)
Definition signal_of (c : option nat) : gset nat :=
  match c with Some c => {[ c ]} | None => ∅ end.

(** Everything but the controllers and the aborted signals. *)
Definition beside_controllers (w : OngoingGameMain) :=
  (settings w, state w, ext w, _gameLruMap w, _gameTimelineLruMap w,
   _mhQueue w, _queue w, _debouncedUpdateMatchHistoryFn w, nextTask w,
   localLoads w, nextLocalLoad w, _log w, _ipc w).

(** Since [w0], tasks that satisfy [P] were added at the end of the queues,
    and nothing else happened to the queues. *)
Definition grown_with (P : Task -> Prop) (w0 w : OngoingGameMain) : Prop :=
  exists l1 l2,
    pq_tasks (_mhQueue w) = pq_tasks (_mhQueue w0) ++ l1 /\
    pq_tasks (_queue w) = pq_tasks (_queue w0) ++ l2 /\
    Forall P (l1 ++ l2).

(** The two controllers, the aborted signals and the next signal. *)
Definition controllers (w : OngoingGameMain) :=
  (_controller w, _mhController w, abortedSignals w, nextController w).

(** The signal of a controller that the shard holds has not been aborted,
    the two controllers are different objects, and every signal that exists
    was created before the next one. *)
Definition controllers_live (w : OngoingGameMain) : Prop :=
  (forall c, _controller w = Some c ->
     (c ∉ abortedSignals w) /\ (c < nextController w)%nat) /\
  (forall c, _mhController w = Some c ->
     (c ∉ abortedSignals w) /\ (c < nextController w)%nat) /\
  (forall c c', _controller w = Some c -> _mhController w = Some c' -> c <> c') /\
  (forall c, c ∈ abortedSignals w -> (c < nextController w)%nat).



(** The signal a task of the roster is bound to: the signal of the
    match-history controller for the match-history request, the signal of
    the general controller for every other request. *)
Definition bound_to (mhSignal signal : nat) (t : Task) : Prop :=
  t_signal t = Some (match matchHistory_request (t_cont t) with
                     | Some _ => mhSignal
                     | None => signal
                     end).

(** What the loads of the roster keep while they are called: the
    controllers, the committed data, and queues that only grow by tasks at
    the roster places, bound to the signals of the generation. *)
Definition generation_kept (mhSignal signal : nat) (w0 w : OngoingGameMain) : Prop :=
  controllers w = controllers w0 /\ committed w = committed w0 /\
  grown_with (fun t => bound_to mhSignal signal t /\
                       roster_place (t_queue t) (t_priority t) (t_cont t)) w0 w.

(* ===================================================================== *)
(** * Properties *)
(* ===================================================================== *)

(** ** Running methods *)

Lemma exec_bind {A B} (m : M A) (k : A -> M B) w :
  exec (m ≫= k) w = exec (k (m w).1) (m w).2.
Proof. reflexivity. Qed.

Lemma exec_seq {A B} (m : M A) (m' : M B) w :
  exec (m ;; m') w = exec m' (exec m w).
Proof. reflexivity. Qed.

(** ** The call [getAll] *)

(** C2. The call [getAll] returns six of the seven categories as the state
    holds them, but what it returns as [gameTimeline] is the map of the
    additional games: on a shard whose state holds the timeline of game 7
    and no additional game, the returned [gameTimeline] has no entry for
    game 7. *)
Theorem getAll_gameTimeline_is_additionalGame :
  (forall w,
     ga_matchHistory (getAll w) = matchHistory (state w) /\
     ga_summoner (getAll w) = summoner (state w) /\
     ga_rankedStats (getAll w) = rankedStats (state w) /\
     ga_savedInfo (getAll w) = savedInfo (state w) /\
     ga_championMastery (getAll w) = championMastery (state w) /\
     ga_additionalGames (getAll w) = additionalGame (state w) /\
     ga_gameTimeline (getAll w) = additionalGame (state w)) /\
  gameTimeline (state timeline_shard) !! 7 = Some (mkSourced lcu 1) /\
  ga_gameTimeline (getAll timeline_shard) !! 7 = None.
Proof.
  split; [intros w; repeat split |].
  split; vm_compute; reflexivity.
Qed.

(** ** The call [setMatchHistoryTag] *)

Lemma SAFE_TAGS_has_spec tag : SAFE_TAGS_has tag = true <-> tag ∈ SAFE_TAGS.
Proof. unfold SAFE_TAGS_has. apply bool_decide_eq_true. Qed.

Lemma SAFE_TAGS_has_false tag : SAFE_TAGS_has tag = false <-> tag ∉ SAFE_TAGS.
Proof. unfold SAFE_TAGS_has. apply bool_decide_eq_false. Qed.

(** C10. The call [setMatchHistoryTag] with a tag that is neither in the
    known-safe set nor ["all"] leaves the shard as it is: the stored tag is
    unchanged and no reload is scheduled. With a known-safe tag or ["all"],
    the stored tag becomes that tag and the debounced reload is called once
    more, nothing else changes. *)
Theorem setMatchHistoryTag_call (w : OngoingGameMain) (tag : string) :
  (tag ∉ SAFE_TAGS -> tag <> "all"%string ->
   exec (ipc_setMatchHistoryTag tag) w = w) /\
  (tag ∈ SAFE_TAGS \/ tag = "all"%string ->
   let w' := exec (ipc_setMatchHistoryTag tag) w in
   matchHistoryTag (state w') = tag /\
   _debouncedUpdateMatchHistoryFn w' = S (_debouncedUpdateMatchHistoryFn w) /\
   w' = with_debounced (S (_debouncedUpdateMatchHistoryFn w))
          (with_state (setMatchHistoryTag tag) w)).
Proof.
  unfold ipc_setMatchHistoryTag. split.
  - intros Hsafe Hall.
    apply SAFE_TAGS_has_false in Hsafe. rewrite Hsafe.
    rewrite bool_decide_eq_false_2 by done. reflexivity.
  - intros H.
    assert (SAFE_TAGS_has tag || bool_decide (tag = "all"%string) = true) as ->.
    { apply orb_true_iff. destruct H as [H | H].
      - left. by apply SAFE_TAGS_has_spec.
      - right. by apply bool_decide_eq_true. }
    repeat split.
Qed.

Lemma setMatchHistoryTag_call_witness :
  exec (ipc_setMatchHistoryTag "q_999") remote_shard = remote_shard /\
  matchHistoryTag (state (exec (ipc_setMatchHistoryTag "q_420") remote_shard))
    = "q_420"%string.
Proof.
  split.
  - apply (proj1 (setMatchHistoryTag_call remote_shard "q_999")).
    + apply SAFE_TAGS_has_false. vm_compute. reflexivity.
    + discriminate.
  - apply (proj2 (setMatchHistoryTag_call remote_shard "q_420")).
    left. apply SAFE_TAGS_has_spec. vm_compute. reflexivity.
Defined.

(** ** Settings handlers *)

Lemma onChange_gameTimelineLoadCount_settings (w : OngoingGameMain) (value : Z) :
  settings (exec (onChange_gameTimelineLoadCount value) w) =
  set_gameTimelineLoadCount
    (if (0 <=? value) && (value <=? matchHistoryLoadCount (settings w))
     then value else matchHistoryLoadCount (settings w))
    (settings w).
Proof.
  unfold onChange_gameTimelineLoadCount.
  rewrite exec_bind. cbn [read fst snd].
  destruct ((0 <=? value) && (value <=? matchHistoryLoadCount (settings w)));
    reflexivity.
Qed.

Lemma onChange_matchHistoryLoadCount_settings (w : OngoingGameMain) (value : Z) :
  let s := if (1 <=? value) && (value <=? 200)
           then set_matchHistoryLoadCount value (settings w) else settings w in
  settings (exec (onChange_matchHistoryLoadCount value) w) =
  set_gameTimelineLoadCount
    (if (0 <=? Z.min value (gameTimelineLoadCount s)) &&
        (Z.min value (gameTimelineLoadCount s) <=? matchHistoryLoadCount s)
     then Z.min value (gameTimelineLoadCount s) else matchHistoryLoadCount s)
    s.
Proof.
  unfold onChange_matchHistoryLoadCount, _setting_set_gameTimelineLoadCount.
  rewrite exec_seq, exec_bind. cbn [read fst snd].
  rewrite onChange_gameTimelineLoadCount_settings.
  destruct ((1 <=? value) && (value <=? 200)); reflexivity.
Qed.

(** C7. After a change of [matchHistoryLoadCount] and after a change of
    [gameTimelineLoadCount], whatever the value, [gameTimelineLoadCount] is
    at most [matchHistoryLoadCount]. A new [matchHistoryLoadCount] is taken
    only within 1..200; a new [gameTimelineLoadCount] is taken as it is
    within 0..[matchHistoryLoadCount], and replaced by
    [matchHistoryLoadCount] otherwise. *)
Theorem loadCount_clamp (w : OngoingGameMain) (value : Z) :
  let a := settings (exec (onChange_matchHistoryLoadCount value) w) in
  let b := settings (exec (onChange_gameTimelineLoadCount value) w) in
  gameTimelineLoadCount a <= matchHistoryLoadCount a /\
  gameTimelineLoadCount b <= matchHistoryLoadCount b /\
  matchHistoryLoadCount a =
    (if decide (1 <= value <= 200) then value else matchHistoryLoadCount (settings w)) /\
  matchHistoryLoadCount b = matchHistoryLoadCount (settings w) /\
  gameTimelineLoadCount b =
    (if decide (0 <= value <= matchHistoryLoadCount (settings w))
     then value else matchHistoryLoadCount (settings w)).
Proof.
  cbv zeta.
  rewrite onChange_matchHistoryLoadCount_settings,
    onChange_gameTimelineLoadCount_settings.
  destruct (settings w) as [c e mh p u tp gt]. cbn.
  repeat case_decide;
    repeat (match goal with
            | |- context [ (?a <=? ?b) ] => destruct (Z.leb_spec a b)
            end; cbn in *);
    lia.
Qed.

(** ** What a method keeps *)


Lemma keeps_ret {A} I (a : A) : keeps I (mret a).
Proof. intros w H. exact H. Qed.

Lemma keeps_bind {A B} I (m : M A) (k : A -> M B) :
  keeps I m -> (forall a, keeps I (k a)) -> keeps I (m ≫= k).
Proof. intros Hm Hk w H. apply Hk, Hm, H. Qed.

Lemma keeps_read {A} I (f : OngoingGameMain -> A) : keeps I (read f).
Proof. intros w H. exact H. Qed.

Lemma keeps_bind_read {A B} I (f : OngoingGameMain -> A) (k : A -> M B) :
  (forall w0, keeps I (k (f w0))) -> keeps I (read f ≫= k).
Proof. intros Hk w H. apply (Hk w), H. Qed.

Lemma keeps_modify I f : (forall w, I w -> I (f w)) -> keeps I (modify f).
Proof. intros Hf w H. apply Hf, H. Qed.

Lemma keeps_forEach {A} I (l : list A) (f : A -> M unit) :
  (forall a, keeps I (f a)) -> keeps I (forEach l f).
Proof.
  intros Hf. induction l as [| a l IH]; cbn [forEach].
  - apply keeps_ret.
  - apply keeps_bind; [apply Hf | intros _; apply IH].
Qed.

Lemma keeps_exec {A} I (m : M A) w : keeps I m -> I w -> I (exec m w).
Proof. intros Hm H. apply Hm, H. Qed.

(** Structural steps of a proof that a method keeps a property. *)
Ltac keeps_step :=
  lazymatch goal with
  | |- keeps _ (mbind _ (read _)) => apply keeps_bind_read; intros ?
  | |- keeps _ (mbind _ _) => apply keeps_bind; [ | intros ? ]
  | |- keeps _ (mret _) => apply keeps_ret
  | |- keeps _ skip => apply keeps_ret
  | |- keeps _ (read _) => apply keeps_read
  | |- keeps _ (forEach _ _) => apply keeps_forEach; intros ?
  | |- keeps _ (if ?b then _ else _) => destruct b
  | |- keeps _ (match ?x with _ => _ end) => destruct x
  | |- keeps _ (modify _) => apply keeps_modify; intros ? ?
  end.

(** ** Invariants of the shard *)

(** A property of the shard that every elementary update keeps is kept by
    every method, hence holds after [onInit] and any events. Admissions are
    only ever made at the places of [placed_at]. *)
Section Invariant.
Variable I : OngoingGameMain -> Prop.

Hypothesis I_log : forall w x, I w -> I (with_log x w).
Hypothesis I_ipc : forall w x, I w -> I (with_ipc x w).
Hypothesis I_state : forall w g, I w -> I (with_state g w).
Hypothesis I_ext : forall w g, I w -> I (with_ext g w).
Hypothesis I_controllers : forall w a b c d, I w -> I (with_controllers a b c d w).
Hypothesis I_debounced : forall w n, I w -> I (with_debounced n w).
Hypothesis I_localLoads : forall w m n, I w -> I (with_localLoads m n w).
Hypothesis I_settings : forall w f,
  concurrency (f (settings w)) = concurrency (settings w) ->
  I w -> I (with_settings f w).
Hypothesis I_concurrency : forall f,
  keeps I (modify (with_settings f) ;; _handlePQueue).
Hypothesis I_add : forall q call signal p k,
  placed_at q p k -> keeps I (add q call signal p k).
Hypothesis I_remove_task : forall id, keeps I (remove_task id).
Hypothesis I_gameLruMap_get : forall id, keeps I (_gameLruMap_get id).
Hypothesis I_gameTimelineLruMap_get : forall id, keeps I (_gameTimelineLruMap_get id).
Hypothesis I_gameLruMap_set : forall w id v,
  I w -> I (with_gameLruMap (LRUMap.set id v (_gameLruMap w)) w).
Hypothesis I_gameTimelineLruMap_set : forall w id v,
  I w -> I (with_gameTimelineLruMap (LRUMap.set id v (_gameTimelineLruMap w)) w).
Hypothesis I_constructed : forall s c, I (exec _handlePQueue (constructed s c)).

(** Steps through the elementary updates. *)
Ltac inv_step :=
  lazymatch goal with
  | |- keeps _ (log_ _ _ _) => unfold log_
  | |- keeps _ (sendEvent _) => unfold sendEvent
  | |- keeps _ (modify_state _) => unfold modify_state
  | |- keeps _ (record_detail _ _ _) => unfold record_detail
  | |- keeps _ (set_unsettled _ _) => unfold set_unsettled
  | |- keeps _ (add _ _ _ _ _) => apply I_add; cbn; auto
  | |- keeps _ (remove_task _) => apply I_remove_task
  | |- keeps _ (_gameTimelineLruMap_get _) => apply I_gameTimelineLruMap_get
  | |- keeps _ (_gameLruMap_get _) => apply I_gameLruMap_get
  | |- keeps _ new_controller => intros ? ?; apply I_controllers; assumption
  | |- keeps _ new_mhController => intros ? ?; apply I_controllers; assumption
  | |- keeps _ _debouncedUpdateMatchHistoryFn_call =>
      intros ? ?; apply I_debounced; assumption
  | |- keeps _ (modify _) =>
      apply keeps_modify; intros ? ?; cbv beta; repeat case_match; eauto
  | _ => keeps_step
  end.

Lemma keeps_handleError e type i : keeps I (_handleError e type i).
Proof. unfold _handleError. repeat inv_step. Qed.

Lemma keeps_handleMatchHistoryError e puuid :
  keeps I (_handleMatchHistoryError e puuid).
Proof. unfold _handleMatchHistoryError. repeat inv_step. Qed.

Lemma keeps_loadGameTimeline gameIds force useSgpApi signal :
  keeps I (_loadGameTimeline gameIds force useSgpApi signal).
Proof. unfold _loadGameTimeline, loadGameTimeline. repeat inv_step. Qed.

Lemma keeps_loadAdditionalGame gameIds force useSgpApi signal :
  keeps I (_loadAdditionalGame gameIds force useSgpApi signal).
Proof. unfold _loadAdditionalGame, loadAdditionalGame. repeat inv_step. Qed.

Lemma keeps_loadPlayerMatchHistory puuid o :
  o_priority o = None -> keeps I (_loadPlayerMatchHistory puuid o).
Proof.
  intros Hp. unfold _loadPlayerMatchHistory, publish_tag. rewrite Hp.
  repeat inv_step.
Qed.

Lemma keeps_loadPlayerSummoner puuid signal force p :
  p = None \/ p = Some LOADING_PRIORITY.ADDITIONAL_SUMMONER ->
  keeps I (_loadPlayerSummoner puuid signal force p).
Proof. intros [-> | ->]; unfold _loadPlayerSummoner; repeat inv_step. Qed.

Lemma keeps_loadPlayerSavedInfo puuid signal force useSgpApi :
  keeps I (_loadPlayerSavedInfo puuid signal force useSgpApi).
Proof. unfold _loadPlayerSavedInfo. repeat inv_step. Qed.

Lemma keeps_loadPlayerRankedStats puuid signal force :
  keeps I (_loadPlayerRankedStats puuid signal force None).
Proof. unfold _loadPlayerRankedStats. repeat inv_step. Qed.

Lemma keeps_loadPlayerChampionMasteries puuid signal force :
  keeps I (_loadPlayerChampionMasteries puuid signal force None).
Proof. unfold _loadPlayerChampionMasteries. repeat inv_step. Qed.

(** Steps through the loaders. *)
Ltac inv_loader :=
  lazymatch goal with
  | |- keeps _ (_handleError _ _ _) => apply keeps_handleError
  | |- keeps _ (_handleMatchHistoryError _ _) => apply keeps_handleMatchHistoryError
  | |- keeps _ (_loadGameTimeline _ _ _ _) => apply keeps_loadGameTimeline
  | |- keeps _ (_loadAdditionalGame _ _ _ _) => apply keeps_loadAdditionalGame
  | |- keeps _ (_loadPlayerMatchHistory _ _) =>
      apply keeps_loadPlayerMatchHistory; reflexivity
  | |- keeps _ (_loadPlayerSummoner _ _ _ _) => apply keeps_loadPlayerSummoner; auto
  | |- keeps _ (_loadPlayerSavedInfo _ _ _ _) => apply keeps_loadPlayerSavedInfo
  | |- keeps _ (_loadPlayerRankedStats _ _ _ _) => apply keeps_loadPlayerRankedStats
  | |- keeps _ (_loadPlayerChampionMasteries _ _ _ _) =>
      apply keeps_loadPlayerChampionMasteries
  | _ => inv_step
  end.

Lemma keeps_loadGame inv puuid signal gameId :
  keeps I (loadGame inv puuid signal gameId).
Proof. unfold loadGame. repeat inv_loader. Qed.

Lemma keeps_commit_matchHistory puuid r : keeps I (commit_matchHistory puuid r).
Proof. unfold commit_matchHistory. repeat inv_loader. Qed.

Lemma keeps_after_allSettled inv : keeps I (after_allSettled inv).
Proof.
  unfold after_allSettled.
  repeat lazymatch goal with
         | |- keeps _ (commit_matchHistory _ _) => apply keeps_commit_matchHistory
         | _ => inv_loader
         end.
Qed.

(** Steps through the code after an [await]. *)
Ltac inv_resume :=
  lazymatch goal with
  | |- keeps _ (commit_matchHistory _ _) => apply keeps_commit_matchHistory
  | |- keeps _ (after_allSettled _) => apply keeps_after_allSettled
  | |- keeps _ (loadGame _ _ _ _) => apply keeps_loadGame
  | _ => inv_loader
  end.

Lemma keeps_resume k o : keeps I (resume k o).
Proof.
  destruct k; cbn [resume]; destruct o as [[] |]; repeat inv_resume.
Qed.

Lemma keeps_settle id o : keeps I (settle id o).
Proof.
  unfold settle.
  repeat lazymatch goal with
         | |- keeps _ (resume _ _) => apply keeps_resume
         | _ => inv_step
         end.
Qed.

Lemma keeps_champSelect mhSignal signal force :
  keeps I (_champSelect mhSignal signal force).
Proof. unfold _champSelect. repeat inv_loader. Qed.

Lemma keeps_inGame mhSignal signal force :
  keeps I (_inGame mhSignal signal force).
Proof. unfold _inGame. repeat inv_loader. Qed.

(** Steps through the orchestrator. *)
Ltac inv_main :=
  lazymatch goal with
  | |- keeps _ (_champSelect _ _ _) => apply keeps_champSelect
  | |- keeps _ (_inGame _ _ _) => apply keeps_inGame
  | |- keeps _ abort_controller => unfold abort_controller
  | |- keeps _ abort_mhController => unfold abort_mhController
  | |- keeps _ (dispatch _ _ _) => unfold dispatch
  | _ => inv_loader
  end.

Lemma keeps_handleLoad : keeps I _handleLoad.
Proof. unfold _handleLoad. repeat inv_main. Qed.

Lemma keeps_updateMatchHistory : keeps I _updateMatchHistory.
Proof. unfold _updateMatchHistory. repeat inv_main. Qed.

Lemma keeps_clearAndReload : keeps I _clearAndReload.
Proof. unfold _clearAndReload. repeat inv_main. Qed.

Lemma keeps_onChange_gameTimelineLoadCount v :
  keeps I (onChange_gameTimelineLoadCount v).
Proof.
  unfold onChange_gameTimelineLoadCount.
  repeat lazymatch goal with
         | |- keeps _ (modify (with_settings _)) =>
             apply keeps_modify; intros ? ?; apply I_settings; [reflexivity | assumption]
         | _ => inv_main
         end.
Qed.

Lemma keeps_step e : keeps I (step e).
Proof.
  destruct e; cbn [step].
  - repeat lazymatch goal with
           | |- keeps _ _handleLoad => apply keeps_handleLoad
           | _ => inv_main
           end.
  - repeat lazymatch goal with
           | |- keeps _ _handleLoad => apply keeps_handleLoad
           | _ => inv_main
           end.
  - apply keeps_settle.
  - unfold _debouncedUpdateMatchHistoryFn_fire.
    repeat lazymatch goal with
           | |- keeps _ _updateMatchHistory => apply keeps_updateMatchHistory
           | _ => inv_main
           end.
  - unfold ipc_setMatchHistoryTag. repeat inv_main.
  - apply keeps_clearAndReload.
  - apply I_concurrency.
  - unfold onChange_matchHistoryLoadCount, _setting_set_gameTimelineLoadCount.
    repeat lazymatch goal with
           | |- keeps _ (onChange_gameTimelineLoadCount _) =>
               apply keeps_onChange_gameTimelineLoadCount
           | |- keeps _ (modify (with_settings _)) =>
               apply keeps_modify; intros ? ?; apply I_settings; [reflexivity | assumption]
           | _ => inv_main
           end.
  - apply keeps_onChange_gameTimelineLoadCount.
  - unfold onChange_premadeTeamThreshold.
    repeat lazymatch goal with
           | |- keeps _ (modify (with_settings _)) =>
               apply keeps_modify; intros ? ?; apply I_settings; [reflexivity | assumption]
           | _ => inv_main
           end.
  - unfold change_enabled.
    repeat lazymatch goal with
           | |- keeps _ _handleLoad => apply keeps_handleLoad
           | |- keeps _ (modify (with_settings _)) =>
               apply keeps_modify; intros ? ?; apply I_settings; [reflexivity | assumption]
           | _ => inv_main
           end.
  - unfold onChange_matchHistoryUseSgpApi.
    repeat lazymatch goal with
           | |- keeps _ _handleLoad => apply keeps_handleLoad
           | |- keeps _ (modify (with_settings _)) =>
               apply keeps_modify; intros ? ?; apply I_settings; [reflexivity | assumption]
           | _ => inv_main
           end.
  - unfold change_matchHistoryTagPreference.
    apply keeps_modify; intros ? ?; apply I_settings; [reflexivity | assumption].
Qed.

Lemma keeps_run es w : I w -> I (run es w).
Proof.
  revert w. induction es as [| e es IH]; intros w H; [exact H |].
  apply IH, keeps_step, H.
Qed.

(** The property holds after [onInit] and any events. *)
Lemma always s c es : I (run es (exec onInit (constructed s c))).
Proof.
  apply keeps_run. unfold onInit. rewrite exec_seq.
  apply keeps_exec; [apply keeps_handleLoad | apply I_constructed].
Qed.
End Invariant.

(** ** Queues and priorities *)


Lemma well_queued_add q call signal p k :
  placed_at q p k -> keeps well_queued (add q call signal p k).
Proof.
  intros Hp w (Hmh & Hq & Hc1 & Hc2). unfold add, modify. cbn [snd].
  destruct q; cbn; (split; [| split; [| split]]); try done.
  - apply Forall_app. split; [done |]. by repeat constructor.
  - apply Forall_app. split; [done |]. by repeat constructor.
Qed.

Lemma well_queued_remove_task id : keeps well_queued (remove_task id).
Proof.
  apply keeps_modify. intros w (Hmh & Hq & Hc1 & Hc2).
  repeat split; try done; cbn.
  - rewrite Forall_forall in *. intros t Ht.
    apply list_elem_of_In, filter_In in Ht. apply Hmh, list_elem_of_In, Ht.
  - rewrite Forall_forall in *. intros t Ht.
    apply list_elem_of_In, filter_In in Ht. apply Hq, list_elem_of_In, Ht.
Qed.

Lemma well_queued_always s c es :
  well_queued (run es (exec onInit (constructed s c))).
Proof.
  apply always; try done; try (intros ? ? ?; assumption).
  - intros w f Hc (Hmh & Hq & Hc1 & Hc2). repeat split; try done; cbn; congruence.
  - intros f w (Hmh & Hq & _ & _). repeat split; assumption.
  - apply well_queued_add.
  - apply well_queued_remove_task.
Qed.

(** *** Where each call site admits its tasks *)

Section Admissions.
Variable ok : QueueId -> Priority -> Cont -> Prop.
Variable w0 : OngoingGameMain.

Hypothesis ok_matchHistory_sgp : forall puuid count tag signal force useSgpApi,
  ok MhQueue (Prio LOADING_PRIORITY.MATCH_HISTORY)
    (k_matchHistory_sgp puuid count tag signal force useSgpApi).
Hypothesis ok_matchHistory_lcu : forall puuid count signal force useSgpApi,
  ok GeneralQueue (Prio LOADING_PRIORITY.MATCH_HISTORY)
    (k_matchHistory_lcu puuid count signal force useSgpApi).
Hypothesis ok_summoner : forall puuid,
  ok GeneralQueue (Prio LOADING_PRIORITY.SUMMONER) (k_summoner puuid).
Hypothesis ok_savedInfo : forall puuid signal force useSgpApi,
  ok GeneralQueue (Prio LOADING_PRIORITY.SAVED_INFO)
    (k_savedInfo puuid signal force useSgpApi).
Hypothesis ok_rankedStats : forall puuid,
  ok MhQueue (Prio LOADING_PRIORITY.RANKED_STATS) (k_rankedStats puuid).
Hypothesis ok_championMastery : forall puuid,
  ok MhQueue (Prio LOADING_PRIORITY.CHAMPION_MASTERY) (k_championMastery puuid).
Hypothesis ok_detail : forall inv puuid gid,
  ok GeneralQueue PrioInfinity (k_matchHistory_lcu_game inv puuid gid).
Hypothesis ok_gameTimeline : forall gid src,
  ok GeneralQueue (Prio LOADING_PRIORITY.GAME_TIMELINE) (k_gameTimeline gid src).
Hypothesis ok_additionalGame : forall gid src,
  ok GeneralQueue (Prio LOADING_PRIORITY.ADDITIONAL_GAME) (k_additionalGame gid src).
Hypothesis ok_additional_summoner : forall puuid,
  ok GeneralQueue (Prio LOADING_PRIORITY.ADDITIONAL_SUMMONER) (k_summoner puuid).

Lemma grown_add q call signal p k :
  ok q p k -> keeps (grown ok w0) (add q call signal p k).
Proof.
  intros Hok w (l1 & l2 & H1 & H2 & F1 & F2). unfold add, modify. cbn [snd].
  destruct q; cbn.
  - eexists (l1 ++ [_]), l2. rewrite H1, <- app_assoc.
    split; [reflexivity |]. split; [exact H2 |]. split; [| exact F2].
    apply Forall_app. split; [exact F1 |]. by repeat constructor.
  - eexists l1, (l2 ++ [_]). rewrite H2, <- app_assoc.
    split; [exact H1 |]. split; [reflexivity |]. split; [exact F1 |].
    apply Forall_app. split; [exact F2 |]. by repeat constructor.
Qed.

(** Steps through the elementary updates, none of which but [add] touches
    the tasks of a queue. *)
Ltac adm_step :=
  lazymatch goal with
  | |- keeps _ (log_ _ _ _) => unfold log_
  | |- keeps _ (sendEvent _) => unfold sendEvent
  | |- keeps _ (modify_state _) => unfold modify_state
  | |- keeps _ (record_detail _ _ _) => unfold record_detail
  | |- keeps _ (set_unsettled _ _) => unfold set_unsettled
  | |- keeps _ (add _ _ _ _ _) => apply grown_add; cbn; auto
  | |- keeps _ (_gameTimelineLruMap_get _) => intros ? Hg; exact Hg
  | |- keeps _ (_gameLruMap_get _) => intros ? Hg; exact Hg
  | |- keeps _ new_controller => intros ? Hg; exact Hg
  | |- keeps _ new_mhController => intros ? Hg; exact Hg
  | |- keeps _ abort_controller =>
      unfold abort_controller; apply keeps_modify; intros ? Hg; case_match; exact Hg
  | |- keeps _ abort_mhController =>
      unfold abort_mhController; apply keeps_modify; intros ? Hg; case_match; exact Hg
  | |- keeps _ (modify _) => apply keeps_modify; intros ? Hg; exact Hg
  | _ => keeps_step
  end.

Lemma grown_handleError e type i : keeps (grown ok w0) (_handleError e type i).
Proof. unfold _handleError. repeat adm_step. Qed.

Lemma grown_handleMatchHistoryError e puuid :
  keeps (grown ok w0) (_handleMatchHistoryError e puuid).
Proof. unfold _handleMatchHistoryError. repeat adm_step. Qed.

Lemma grown_loadGameTimeline gameIds force useSgpApi signal :
  keeps (grown ok w0) (_loadGameTimeline gameIds force useSgpApi signal).
Proof. unfold _loadGameTimeline, loadGameTimeline. repeat adm_step. Qed.

Lemma grown_loadAdditionalGame gameIds force useSgpApi signal :
  keeps (grown ok w0) (_loadAdditionalGame gameIds force useSgpApi signal).
Proof. unfold _loadAdditionalGame, loadAdditionalGame. repeat adm_step. Qed.

Lemma grown_loadPlayerMatchHistory puuid o :
  o_priority o = None -> keeps (grown ok w0) (_loadPlayerMatchHistory puuid o).
Proof.
  intros Hp. unfold _loadPlayerMatchHistory, publish_tag. rewrite Hp.
  repeat adm_step.
Qed.

Lemma grown_loadPlayerSummoner puuid signal force :
  keeps (grown ok w0) (_loadPlayerSummoner puuid signal force None).
Proof. unfold _loadPlayerSummoner; repeat adm_step. Qed.

Lemma grown_loadPlayerSummoner_additional puuid signal force :
  keeps (grown ok w0)
    (_loadPlayerSummoner puuid signal force (Some LOADING_PRIORITY.ADDITIONAL_SUMMONER)).
Proof. unfold _loadPlayerSummoner; repeat adm_step. Qed.

Lemma grown_loadPlayerSavedInfo puuid signal force useSgpApi :
  keeps (grown ok w0) (_loadPlayerSavedInfo puuid signal force useSgpApi).
Proof. unfold _loadPlayerSavedInfo. repeat adm_step. Qed.

Lemma grown_loadPlayerRankedStats puuid signal force :
  keeps (grown ok w0) (_loadPlayerRankedStats puuid signal force None).
Proof. unfold _loadPlayerRankedStats. repeat adm_step. Qed.

Lemma grown_loadPlayerChampionMasteries puuid signal force :
  keeps (grown ok w0) (_loadPlayerChampionMasteries puuid signal force None).
Proof. unfold _loadPlayerChampionMasteries. repeat adm_step. Qed.

Lemma grown_loadGame inv puuid signal gid :
  keeps (grown ok w0) (loadGame inv puuid signal gid).
Proof. unfold loadGame. repeat adm_step. Qed.

Lemma grown_commit_matchHistory puuid r :
  keeps (grown ok w0) (commit_matchHistory puuid r).
Proof. unfold commit_matchHistory. repeat adm_step. Qed.

Lemma grown_after_allSettled inv : keeps (grown ok w0) (after_allSettled inv).
Proof.
  unfold after_allSettled.
  repeat lazymatch goal with
         | |- keeps _ (commit_matchHistory _ _) => apply grown_commit_matchHistory
         | _ => adm_step
         end.
Qed.

(** Steps through the loaders. *)
Ltac adm_loader :=
  lazymatch goal with
  | |- keeps _ (_handleError _ _ _) => apply grown_handleError
  | |- keeps _ (_handleMatchHistoryError _ _) => apply grown_handleMatchHistoryError
  | |- keeps _ (_loadGameTimeline _ _ _ _) => apply grown_loadGameTimeline
  | |- keeps _ (_loadAdditionalGame _ _ _ _) => apply grown_loadAdditionalGame
  | |- keeps _ (_loadPlayerMatchHistory _ _) =>
      apply grown_loadPlayerMatchHistory; reflexivity
  | |- keeps _ (_loadPlayerSummoner _ _ _ None) => apply grown_loadPlayerSummoner
  | |- keeps _ (_loadPlayerSummoner _ _ _ (Some _)) =>
      apply grown_loadPlayerSummoner_additional
  | |- keeps _ (_loadPlayerSavedInfo _ _ _ _) => apply grown_loadPlayerSavedInfo
  | |- keeps _ (_loadPlayerRankedStats _ _ _ _) => apply grown_loadPlayerRankedStats
  | |- keeps _ (_loadPlayerChampionMasteries _ _ _ _) =>
      apply grown_loadPlayerChampionMasteries
  | |- keeps _ (commit_matchHistory _ _) => apply grown_commit_matchHistory
  | |- keeps _ (after_allSettled _) => apply grown_after_allSettled
  | |- keeps _ (loadGame _ _ _ _) => apply grown_loadGame
  | |- keeps _ (dispatch _ _ _) => unfold dispatch, _champSelect, _inGame
  | _ => adm_step
  end.

(** The code after an [await] only admits follow-up requests. *)
Lemma grown_resume k o : keeps (grown ok w0) (resume k o).
Proof.
  destruct k; cbn [resume]; destruct o as [[] |]; repeat adm_loader.
Qed.

(** The loads of the roster. *)
Lemma grown_dispatch mhSignal signal force :
  keeps (grown ok w0) (dispatch mhSignal signal force).
Proof. repeat adm_loader. Qed.

Lemma grown_handleLoad : keeps (grown ok w0) _handleLoad.
Proof.
  unfold _handleLoad.
  repeat lazymatch goal with
         | |- keeps _ (dispatch _ _ _) => apply grown_dispatch
         | _ => adm_loader
         end.
Qed.

Lemma grown_clearAndReload : keeps (grown ok w0) _clearAndReload.
Proof.
  unfold _clearAndReload.
  repeat lazymatch goal with
         | |- keeps _ (dispatch _ _ _) => apply grown_dispatch
         | _ => adm_loader
         end.
Qed.

Lemma grown_updateMatchHistory : keeps (grown ok w0) _updateMatchHistory.
Proof. unfold _updateMatchHistory. repeat adm_loader. Qed.
End Admissions.

Lemma grown_admits_at {A} ok (m : M A) w :
  keeps (grown ok w) m -> admits_at ok m w.
Proof.
  intros Hk. destruct (Hk w) as (l1 & l2 & H1 & H2 & F1 & F2).
  { exists [], []. rewrite !app_nil_r. repeat split; constructor. }
  unfold admits_at, admitted, exec. rewrite H1, H2, !drop_app_length. by split.
Qed.

(** C5, as the code has it. Whatever happens to the shard after [onInit],
    every admitted task is in the queue and has the priority that the code
    gives to its loader: in the match-history queue, the SGP match-history
    request (5), ranked stats (3) and champion mastery (2); in the general
    queue, the match-history list request of the league client (5) and its
    per-game detail requests (Infinity), summoner (6 or -1), saved info (4),
    additional game (2) and game timeline (1). Both queues have the
    concurrency of the settings. The two summoner priorities belong to two
    call sites: the loads of the roster ([_handleLoad], [_clearAndReload],
    [_updateMatchHistory]) admit only match-history, summoner, saved-info,
    ranked-stats and champion-mastery requests, the summoner request with
    priority 6; the code after an [await] admits only detail, timeline and
    additional-game requests and the summoner requests for the tags of a
    saved player, these with priority -1. *)
Theorem tasks_placed_by_loader (s : OngoingGameSettings) (c : Collaborators)
    (es : list Event) :
  let w := run es (exec onInit (constructed s c)) in
  Forall (fun t => t_queue t = MhQueue /\ placed t) (pq_tasks (_mhQueue w)) /\
  Forall (fun t => t_queue t = GeneralQueue /\ placed t) (pq_tasks (_queue w)) /\
  pq_concurrency (_mhQueue w) = concurrency (settings w) /\
  pq_concurrency (_queue w) = concurrency (settings w) /\
  (forall w', admits_at roster_place _handleLoad w' /\
              admits_at roster_place _clearAndReload w' /\
              admits_at roster_place _updateMatchHistory w') /\
  (forall w' k o, admits_at follow_up_place (resume k o) w').
Proof.
  destruct (well_queued_always s c es) as (H1 & H2 & H3 & H4).
  split; [exact H1 |]. split; [exact H2 |]. split; [exact H3 |]. split; [exact H4 |].
  split.
  - intros w'. split; [| split]; apply grown_admits_at.
    + apply grown_handleLoad; intros; cbn; auto.
    + apply grown_clearAndReload; intros; cbn; auto.
    + apply grown_updateMatchHistory; intros; cbn; auto.
  - intros w' k o. apply grown_admits_at, grown_resume; intros; cbn; auto.
Qed.

(** C5, counterexample. On a server without SGP match histories, the
    match-history request of player p1 is admitted to the general queue and
    nothing is admitted to the match-history queue. *)
Lemma local_matchHistory_in_general_queue :
  let load := _loadPlayerMatchHistory "p1" (demo_options (Some "all"%string) true) in
  admitted MhQueue load local_shard = [] /\
  (fun t => (t_call t, t_queue t, t_priority t)) <$> admitted GeneralQueue load local_shard
    = [ (lc_getMatchHistory "p1" 0 19, GeneralQueue, Prio 5) ].
Proof. split; vm_compute; reflexivity. Qed.

(** The tasks of the first generation on that server, in order of
    admission to each queue. *)
Example generation1_tasks :
  (fun t => (t_call t, t_priority t)) <$>
    pq_tasks (_mhQueue (run [stage_changed {| phase := champ_select; gameInfo := None |}]
                          local_shard))
    = [ (lc_getRankedStats "p1", Prio 3); (lc_getPlayerChampionMastery "p1", Prio 2) ] /\
  (fun t => (t_call t, t_priority t)) <$>
    pq_tasks (_queue (run [stage_changed {| phase := champ_select; gameInfo := None |}]
                        local_shard))
    = [ (lc_getMatchHistory "p1" 0 19, Prio 5); (lc_getSummonerByPuuid "p1", Prio 6);
        (saved_querySavedPlayerWithGames "p1", Prio 4) ].
Proof. split; vm_compute; reflexivity. Qed.

(** The saved info of player p1 arrives with a tag that names player p9:
    the summoner request for p9 has the priority -1. *)
Example tag_summoner_is_additional :
  let answer := resume (k_savedInfo "p1" None false true) (Resolved (r_saved saved_with_tag)) in
  admitted MhQueue answer local_shard = [] /\
  (fun t => (t_call t, t_priority t)) <$> admitted GeneralQueue answer local_shard
    = [ (lc_getSummonerByPuuid "p9", Prio (-1)) ].
Proof. split; vm_compute; reflexivity. Qed.

(** ** Failures *)

(** What the two handlers log and write, whatever calls them. *)
Lemma handlers_log_and_state (w : OngoingGameMain) (e : JsError) (type puuid : string)
    (i : LogArg) :
  let a := exec (_handleError e type i) w in
  let b := exec (_handleMatchHistoryError e puuid) w in
  state a = state w /\
  level <$> _log a = (if isAbort e || isNotFound e then info else warn) :: (level <$> _log w) /\
  matchHistoryLoadingState (state b) !! puuid = Some (if isAbort e then aborted else error) /\
  level <$> _log b = (if isAbort e then [] else [warn]) ++ (level <$> _log w) /\
  matchHistory (state b) = matchHistory (state w).
Proof.
  unfold _handleError, _handleMatchHistoryError.
  destruct (isAbort e); [| destruct (isNotFound e)];
    cbv [exec mbind M_bind log_ modify_state modify]; cbn;
    rewrite ?lookup_insert_eq; repeat split.
Qed.

(** C6, as the code has it, at the awaited request of each loader. The
    task of a request settles as a failure with the abort error when its
    signal has been aborted, and with the outcome of the request otherwise.
    For every loader but the match-history one: an abort and a 404 answer
    are logged at info level, any other failure at warn level, and nothing
    else happens: no data is committed, no event is sent, no task is
    admitted. For the SGP request and the list request of the match-history
    loader: an abort sets the player's loading state to [aborted] and logs
    nothing; every other failure, a 404 answer included, is logged at warn
    level and sets the loading state to [error]; nothing else happens, no
    record is committed. For a per-game detail request of the local path
    that fails with something else than an abort: the failure is logged at
    warn level and the loading state is set to [error]; while other details
    of the load are awaited nothing is committed; when it was the last one,
    the record is committed with the list entry in place of each missing
    detail, the event is sent and the loading state becomes [loaded]. *)
Theorem error_taxonomy (w : OngoingGameMain) (e : JsError) :
  (forall id t o,
     find_task id w = Some t ->
     exec (settle id o) w =
     exec (resume (t_cont t)
             (if signal_aborted (t_signal t) w then Rejected AbortError else o))
          (exec (remove_task id) w)) /\
  (forall k,
     handled_by_handleError k = true ->
     exists entry,
       level entry = (if isAbort e || isNotFound e then info else warn) /\
       exec (resume k (Rejected e)) w = with_log (entry :: _log w) w) /\
  (forall k puuid,
     matchHistory_request k = Some puuid ->
     exec (resume k (Rejected e)) w =
     if isAbort e
     then with_state (setMatchHistoryLoadingState puuid aborted) w
     else with_state (setMatchHistoryLoadingState puuid error)
            (with_log ({| level := warn; message := "Error loading match history";
                          args := [arg_err e; arg_str puuid] |} :: _log w) w)) /\
  (forall inv puuid gid ll,
     isAbort e = false ->
     localLoads w !! inv = Some ll ->
     let b := exec (resume (k_matchHistory_lcu_game inv puuid gid) (Rejected e)) w in
     match pred (ll_unsettled ll) with
     | S n =>
         matchHistory (state b) = matchHistory (state w) /\
         matchHistoryLoadingState (state b)
           = <[puuid := error]> (matchHistoryLoadingState (state w)) /\
         _ipc b = _ipc w /\
         level <$> _log b = warn :: (level <$> _log w) /\
         ll_unsettled <$> localLoads b !! inv = Some (S n)
     | O =>
         matchHistory (state b)
           = <[ll_puuid ll :=
                 toBeLoaded_lcu
                   (map (fun g => default g (detailedGameMap ll !! gameId g)) (ll_games ll))
                   (ll_count ll)]> (matchHistory (state w)) /\
         matchHistoryLoadingState (state b)
           = <[ll_puuid ll := loaded]>
               (<[puuid := error]> (matchHistoryLoadingState (state w))) /\
         _ipc b = ev_player "match-history-loaded" (ll_puuid ll) :: _ipc w /\
         level <$> _log b = debug :: warn :: (level <$> _log w) /\
         localLoads b !! inv = None
     end).
Proof.
  split; [| split; [| split]].
  - intros id t o Ht. unfold settle.
    cbv [exec mbind M_bind read]. cbn [fst snd]. rewrite Ht. reflexivity.
  - intros k Hk.
    destruct k; try discriminate Hk; cbn [resume]; unfold _handleError;
      (destruct (isAbort e); [| destruct (isNotFound e)]);
      eexists; (split; [| reflexivity]); reflexivity.
  - intros k puuid Hk.
    destruct k; try discriminate Hk; injection Hk as ->; cbn [resume];
      unfold _handleMatchHistoryError; destruct (isAbort e); reflexivity.
  - intros inv puuid gid ll Ha Hll b. subst b. cbn [resume].
    unfold _handleMatchHistoryError. rewrite Ha.
    unfold after_allSettled, set_unsettled, commit_matchHistory.
    cbv [exec mbind M_bind log_ modify_state modify sendEvent read]. cbn [fst snd].
    cbn [localLoads with_localLoads with_state with_log with_ipc].
    rewrite lookup_alter_eq, Hll. cbn [fmap option_fmap option_map ll_unsettled].
    destruct (pred (ll_unsettled ll)) eqn:Hn; cbn.
    + rewrite lookup_delete_eq. repeat split.
    + rewrite lookup_alter_eq, Hll. cbn. rewrite Hn. repeat split.
Qed.

(** The first generation on a server without SGP match histories, while
    the detail of game 101 is awaited (task 5): its requests fail with a 500
    answer. The failed summoner request only logs; the failed list request
    sets [error]; the failed detail request, the last one of the load, lets
    the load commit the list entry of game 101. *)
Lemma error_taxonomy_witness :
  let w := run generation1 local_shard in
  let ll := {| ll_puuid := "p1"; ll_count := 20; ll_games := [game101];
               detailedGameMap := ∅; ll_unsettled := 1 |} in
  (exists t, find_task 5 w = Some t /\
     exec (settle 5 (Rejected server_error)) w =
     exec (resume (t_cont t)
             (if signal_aborted (t_signal t) w then Rejected AbortError
              else Rejected server_error))
          (exec (remove_task 5) w)) /\
  (exists entry,
     level entry = (if isAbort server_error || isNotFound server_error then info else warn) /\
     exec (resume (k_summoner "p1") (Rejected server_error)) w
       = with_log (entry :: _log w) w) /\
  exec (resume (k_matchHistory_lcu "p1" 20 None false true) (Rejected server_error)) w
    = (if isAbort server_error
       then with_state (setMatchHistoryLoadingState "p1" aborted) w
       else with_state (setMatchHistoryLoadingState "p1" error)
              (with_log ({| level := warn; message := "Error loading match history";
                            args := [arg_err server_error; arg_str "p1"] |} :: _log w) w)) /\
  (let b := exec (resume (k_matchHistory_lcu_game 0 "p1" 101) (Rejected server_error)) w in
   match pred (ll_unsettled ll) with
   | S n =>
       matchHistory (state b) = matchHistory (state w) /\
       matchHistoryLoadingState (state b)
         = <["p1"%string := error]> (matchHistoryLoadingState (state w)) /\
       _ipc b = _ipc w /\
       level <$> _log b = warn :: (level <$> _log w) /\
       ll_unsettled <$> localLoads b !! 0%nat = Some (S n)
   | O =>
       matchHistory (state b)
         = <[ll_puuid ll :=
               toBeLoaded_lcu
                 (map (fun g => default g (detailedGameMap ll !! gameId g)) (ll_games ll))
                 (ll_count ll)]> (matchHistory (state w)) /\
       matchHistoryLoadingState (state b)
         = <[ll_puuid ll := loaded]>
             (<["p1"%string := error]> (matchHistoryLoadingState (state w))) /\
       _ipc b = ev_player "match-history-loaded" (ll_puuid ll) :: _ipc w /\
       level <$> _log b = debug :: warn :: (level <$> _log w) /\
       localLoads b !! 0%nat = None
   end).
Proof.
  intros w ll.
  destruct (error_taxonomy w server_error) as (Hsettle & Hplain & Hlist & Hdetail).
  split; [| split; [| split]].
  - assert (exists t, find_task 5 w = Some t) as [t Ht]
      by (eexists; vm_compute; reflexivity).
    exists t. split; [exact Ht |]. exact (Hsettle 5%nat t (Rejected server_error) Ht).
  - apply (Hplain (k_summoner "p1")). reflexivity.
  - apply (Hlist (k_matchHistory_lcu "p1" 20 None false true) "p1"%string). reflexivity.
  - apply (Hdetail 0%nat "p1"%string 101 ll).
    + reflexivity.
    + vm_compute. reflexivity.
Defined.

(** The same failures seen from the outside: what the shard holds after the
    failed detail request, and after the failed summoner request. *)
Example failed_detail_falls_back_to_list_entry :
  let w := run generation1 local_shard in
  let b := run [task_settled 5 (Rejected server_error)] w in
  let a := run [task_settled 1 (Rejected server_error)] w in
  matchHistory (state w) !! "p1"%string = None /\
  mh_data <$> matchHistory (state b) !! "p1"%string = Some [game101] /\
  matchHistoryLoadingState (state b) !! "p1"%string = Some loaded /\
  level <$> take 2 (_log b) = [debug; warn] /\
  t_call <$> find_task 1 w = Some (lc_getSummonerByPuuid "p1") /\
  committed a = committed w /\
  _ipc a = _ipc w /\
  level <$> head (_log a) = Some warn.
Proof. repeat apply conj; vm_compute; reflexivity. Qed.

(** C6, counterexample. A 404 answer to the match-history request is not
    treated as a benign absence: it is logged at warn level and the loading
    state of the player becomes [error]. *)
Lemma matchHistory_not_found_is_error :
  let w := exec (_handleMatchHistoryError not_found "p1") local_shard in
  isNotFound not_found = true /\
  isAbort not_found = false /\
  matchHistoryLoadingState (state w) !! "p1"%string = Some error /\
  level <$> head (_log w) = Some warn.
Proof. repeat split; vm_compute; reflexivity. Qed.

(** ** The match-history loader *)


(** Steps of a proof that a method leaves some fields alone. *)
Ltac frame_step :=
  lazymatch goal with
  | |- keeps _ (log_ _ _ _) => unfold log_
  | |- keeps _ (sendEvent _) => unfold sendEvent
  | |- keeps _ (modify_state _) => unfold modify_state
  | |- keeps _ (add _ _ _ _ _) => unfold add
  | |- keeps _ (_gameTimelineLruMap_get _) => intros ? ?; assumption
  | |- keeps _ (_gameLruMap_get _) => intros ? ?; assumption
  | |- keeps _ (modify _) =>
      apply keeps_modify; intros ? ?; first [ assumption | repeat case_match; assumption ]
  | _ => keeps_step
  end.

Lemma loadGameTimeline_frame gameIds force useSgpApi signal w :
  beside_timelines (exec (_loadGameTimeline gameIds force useSgpApi signal) w)
  = beside_timelines w.
Proof.
  apply (keeps_exec (fun w' => beside_timelines w' = beside_timelines w));
    [| reflexivity].
  unfold _loadGameTimeline, loadGameTimeline. repeat frame_step.
Qed.

Lemma publish_tag_frame tag w :
  exec (publish_tag tag) w =
  match tag with
  | Some t =>
      if truthy t
      then with_state (setMatchHistoryTag (if SAFE_TAGS_has t then t else "all")) w
      else w
  | None => w
  end.
Proof.
  unfold publish_tag. destruct tag as [t |]; [| reflexivity].
  destruct (truthy t); [| reflexivity].
  destruct (bool_decide (t = "all"%string)) eqn:Hall; cbn.
  - apply bool_decide_eq_true in Hall. subst t. reflexivity.
  - destruct (SAFE_TAGS_has t); reflexivity.
Qed.

(** The remote path up to its [await]: the log entry, the published tag,
    the loading state, and the one task admitted to the match-history
    queue. *)
Lemma loadPlayerMatchHistory_remote puuid o w :
  isAbleToUseSgpApi (o_useSgpApi o) w = true ->
  matchHistory_unchanged (o_force o) (matchHistory (state w) !! puuid)
    (default 20 (o_count o)) true (o_tag o) = false ->
  exec (_loadPlayerMatchHistory puuid o) w =
  exec (add MhQueue
          (sgp_getMatchHistoryLcuFormat puuid 0 (default 20 (o_count o))
             (request_tag (o_tag o)))
          (o_mhSignal o) (priority_or (o_priority o) LOADING_PRIORITY.MATCH_HISTORY)
          (k_matchHistory_sgp puuid (default 20 (o_count o)) (request_tag (o_tag o))
             (o_signal o) (o_force o) (o_useSgpApi o)))
    (with_state (setMatchHistoryLoadingState puuid loading)
       (exec (publish_tag (o_tag o))
          (exec (log_ info "Load player match history: SGP API" [arg_str puuid]) w))).
Proof.
  intros Hable Hch. unfold _loadPlayerMatchHistory.
  rewrite !exec_bind. cbn [read fst snd]. rewrite Hable, Hch. reflexivity.
Qed.

(** The local path up to its [await]. *)
Lemma loadPlayerMatchHistory_local puuid o w :
  isAbleToUseSgpApi (o_useSgpApi o) w = false ->
  matchHistory_unchanged (o_force o) (matchHistory (state w) !! puuid)
    (default 20 (o_count o)) false (o_tag o) = false ->
  exec (_loadPlayerMatchHistory puuid o) w =
  exec (add GeneralQueue
          (lc_getMatchHistory puuid 0 (default 20 (o_count o) - 1))
          (o_mhSignal o) (priority_or (o_priority o) LOADING_PRIORITY.MATCH_HISTORY)
          (k_matchHistory_lcu puuid (default 20 (o_count o))
             (o_signal o) (o_force o) (o_useSgpApi o)))
    (with_state (setMatchHistoryLoadingState puuid loading)
       (exec (log_ info "Load player match history: LCU API" [arg_str puuid]) w)).
Proof.
  intros Hable Hch. unfold _loadPlayerMatchHistory.
  rewrite !exec_bind. cbn [read fst snd]. rewrite Hable, Hch. reflexivity.
Qed.

(** A load that finds its query unchanged only writes to the log. *)
Lemma loadPlayerMatchHistory_skipped puuid o w :
  matchHistory_unchanged (o_force o) (matchHistory (state w) !! puuid)
    (default 20 (o_count o)) (isAbleToUseSgpApi (o_useSgpApi o) w) (o_tag o) = true ->
  exec (_loadPlayerMatchHistory puuid o) w =
  exec (log_ debug "Player match history query condition not changed, skip"
          [arg_str puuid]) w.
Proof.
  intros Hch. unfold _loadPlayerMatchHistory.
  rewrite !exec_bind. cbn [read fst snd]. rewrite Hch. reflexivity.
Qed.

(** The remote path after its [await], on an answer. *)
Lemma resume_matchHistory_sgp puuid count tag signal force useSgpApi games w :
  let w' := exec (resume (k_matchHistory_sgp puuid count tag signal force useSgpApi)
                    (Resolved (r_games games))) w in
  matchHistory (state w') = <[puuid := toBeLoaded_sgp games count tag]> (matchHistory (state w)) /\
  matchHistoryTag (state w') = matchHistoryTag (state w) /\
  ext w' = ext w /\ settings w' = settings w /\ _mhQueue w' = _mhQueue w.
Proof.
  cbn [resume]. rewrite !exec_seq, exec_bind. cbn [read fst snd]. rewrite exec_seq.
  set (w1 := exec (log_ _ _ _) w).
  set (w2 := exec (_loadGameTimeline _ _ _ _) w1).
  assert (beside_timelines w2 = beside_timelines w) as Hf.
  { unfold w2. rewrite loadGameTimeline_frame. reflexivity. }
  unfold beside_timelines in Hf. injection Hf as Hmh Htag Hls Hext Hset Hq.
  cbv [commit_matchHistory exec mbind M_bind modify_state modify sendEvent]. cbn.
  rewrite Hmh, Htag, Hext, Hset, Hq. repeat split.
Qed.

Lemma all_not_safe : "all"%string ∉ SAFE_TAGS.
Proof. apply SAFE_TAGS_has_false. vm_compute. reflexivity. Qed.

Lemma request_tag_nonempty t :
  t <> ""%string ->
  request_tag (Some t) = if decide (t ∈ SAFE_TAGS) then Some t else None.
Proof.
  intros Ht. unfold request_tag, truthy.
  rewrite bool_decide_eq_false_2 by done. cbn [negb].
  destruct (decide (t ∈ SAFE_TAGS)) as [Hs | Hs].
  - apply SAFE_TAGS_has_spec in Hs as Hs'. rewrite Hs'.
    rewrite bool_decide_eq_false_2; [reflexivity |].
    intros ->. by apply all_not_safe.
  - apply SAFE_TAGS_has_false in Hs. rewrite Hs. cbn. by rewrite orb_true_r.
Qed.

Lemma admitted_add_same q call signal p k w0 w :
  _mhQueue w0 = _mhQueue w -> _queue w0 = _queue w ->
  admitted q (fun _ => ((), exec (add q call signal p k) w0)) w =
  [ {| tid := nextTask w0; t_queue := q; t_signal := signal; t_priority := p;
       t_call := call; t_cont := k |} ].
Proof.
  intros Hmh Hq. unfold admitted, exec. cbn [snd].
  destruct q; cbn; rewrite ?Hmh, ?Hq, drop_app_length; reflexivity.
Qed.

Lemma admitted_add_other q q' call signal p k w0 w :
  q <> q' -> _mhQueue w0 = _mhQueue w -> _queue w0 = _queue w ->
  admitted q' (fun _ => ((), exec (add q call signal p k) w0)) w = [].
Proof.
  intros Hne Hmh Hq. unfold admitted, exec. cbn [snd].
  destruct q, q'; try done; cbn; rewrite ?Hmh, ?Hq, drop_all; reflexivity.
Qed.

Lemma admitted_ext {A} q (m : M A) w w' :
  exec m w = w' -> admitted q m w = admitted q (fun _ => ((), w')) w.
Proof. intros <-. reflexivity. Qed.

(** C4, as the code has it. On the remote path, a load that is not skipped
    and asks for a non-empty tag outside the known-safe set publishes the
    tag ["all"] and sends its request without a tag; with a tag of the
    known-safe set it publishes that tag and sends the request with it.
    When the answer arrives, the record committed for the player carries
    the tag of the request (none, or the known-safe tag) and the published
    tag is unchanged. *)
Theorem remote_tag_normalised (w : OngoingGameMain) (puuid : string)
    (o : MatchHistoryOptions) (t : string) (games : list Game) :
  o_tag o = Some t ->
  t <> ""%string ->
  isAbleToUseSgpApi (o_useSgpApi o) w = true ->
  matchHistory_unchanged (o_force o) (matchHistory (state w) !! puuid)
    (default 20 (o_count o)) true (o_tag o) = false ->
  let stored := if decide (t ∈ SAFE_TAGS) then t else "all"%string in
  let sent := if decide (t ∈ SAFE_TAGS) then Some t else None in
  let load := _loadPlayerMatchHistory puuid o in
  matchHistoryTag (state (exec load w)) = stored /\
  admitted GeneralQueue load w = [] /\
  exists task,
    admitted MhQueue load w = [task] /\
    t_call task = sgp_getMatchHistoryLcuFormat puuid 0 (default 20 (o_count o)) sent /\
    let w' := exec (resume (t_cont task) (Resolved (r_games games))) (exec load w) in
    matchHistoryTag (state w') = stored /\
    mh_tag <$> matchHistory (state w') !! puuid = Some sent.
Proof.
  intros Htag Ht Hable Hch stored sent load.
  pose proof (loadPlayerMatchHistory_remote puuid o w Hable Hch) as Hexec.
  rewrite Htag, (request_tag_nonempty t Ht) in Hexec. fold sent in Hexec.
  assert (matchHistoryTag (state (exec load w)) = stored) as Hstored.
  { unfold load. rewrite Hexec, publish_tag_frame. unfold truthy.
    rewrite bool_decide_eq_false_2 by done. cbn. unfold stored.
    destruct (decide (t ∈ SAFE_TAGS)) as [Hs | Hs].
    - apply SAFE_TAGS_has_spec in Hs. rewrite Hs. reflexivity.
    - apply SAFE_TAGS_has_false in Hs. rewrite Hs. reflexivity. }
  assert (forall q, (q = MhQueue -> _mhQueue
            (with_state (setMatchHistoryLoadingState puuid loading)
               (exec (publish_tag (Some t))
                  (exec (log_ info "Load player match history: SGP API" [arg_str puuid]) w)))
            = _mhQueue w) /\
          (q = GeneralQueue -> _queue
            (with_state (setMatchHistoryLoadingState puuid loading)
               (exec (publish_tag (Some t))
                  (exec (log_ info "Load player match history: SGP API" [arg_str puuid]) w)))
            = _queue w)) as Hq.
  { intros q. rewrite publish_tag_frame. destruct (truthy t); split; reflexivity. }
  split; [exact Hstored |]. split.
  - unfold load. rewrite (admitted_ext _ _ _ _ Hexec).
    apply admitted_add_other; [done | apply (Hq MhQueue); reflexivity
                              | apply (Hq GeneralQueue); reflexivity].
  - eexists. split; [| split].
    + unfold load. rewrite (admitted_ext _ _ _ _ Hexec).
      apply admitted_add_same; [apply (Hq MhQueue); reflexivity
                               | apply (Hq GeneralQueue); reflexivity].
    + reflexivity.
    + cbn [t_cont].
      destruct (resume_matchHistory_sgp puuid (default 20 (o_count o)) sent
                  (o_signal o) (o_force o) (o_useSgpApi o) games (exec load w))
        as (Hmh & Htg & _).
      split.
      * rewrite Htg. exact Hstored.
      * rewrite Hmh, lookup_insert_eq. reflexivity.
Qed.

(** The tag [q_999] is not in the known-safe set: ["all"] is published and
    the committed record has no tag; [q_420] is kept. *)
Lemma remote_tag_normalised_witness :
  let outside := demo_options (Some "q_999"%string) true in
  let inside := demo_options (Some "q_420"%string) true in
  matchHistoryTag (state (exec (_loadPlayerMatchHistory "p1" outside) remote_shard))
    = "all"%string /\
  matchHistoryTag (state (exec (_loadPlayerMatchHistory "p1" inside) remote_shard))
    = "q_420"%string.
Proof.
  split.
  - apply (remote_tag_normalised remote_shard "p1"
             (demo_options (Some "q_999"%string) true) "q_999" []);
      [reflexivity | discriminate | reflexivity | reflexivity].
  - apply (remote_tag_normalised remote_shard "p1"
             (demo_options (Some "q_420"%string) true) "q_420" []);
      [reflexivity | discriminate | reflexivity | reflexivity].
Defined.

(** C4, counterexample. The empty string is outside the known-safe set, yet
    a load with that tag publishes nothing (the tag published before stays),
    sends the request with the empty tag and commits a record with it. *)
Lemma empty_tag_not_normalised :
  let w := with_state (setMatchHistoryTag "q_420") remote_shard in
  let load := _loadPlayerMatchHistory "p1" (demo_options (Some ""%string) true) in
  let w' := exec (resume (k_matchHistory_sgp "p1" 20 (Some ""%string) None false true)
                    (Resolved (r_games [game101]))) (exec load w) in
  (("" : string) ∉ SAFE_TAGS) /\
  matchHistoryTag (state (exec load w)) = "q_420"%string /\
  ((fun t => (t_call t, t_cont t)) <$> admitted MhQueue load w)
    = [ (sgp_getMatchHistoryLcuFormat "p1" 0 20 (Some ""%string),
         k_matchHistory_sgp "p1" 20 (Some ""%string) None false true) ] /\
  matchHistoryTag (state w') = "q_420"%string /\
  mh_tag <$> matchHistory (state w') !! "p1"%string = Some (Some ""%string).
Proof.
  split; [apply SAFE_TAGS_has_false; vm_compute; reflexivity |].
  repeat split; vm_compute; reflexivity.
Qed.

(** The empty tag in general: on the remote path, a load that is not
    skipped and asks for the empty tag publishes nothing, sends its request
    with the empty tag and commits a record that carries it. *)
Lemma empty_tag_left_as_it_is (w : OngoingGameMain) (puuid : string)
    (o : MatchHistoryOptions) (games : list Game) :
  o_tag o = Some ""%string ->
  isAbleToUseSgpApi (o_useSgpApi o) w = true ->
  matchHistory_unchanged (o_force o) (matchHistory (state w) !! puuid)
    (default 20 (o_count o)) true (o_tag o) = false ->
  let load := _loadPlayerMatchHistory puuid o in
  matchHistoryTag (state (exec load w)) = matchHistoryTag (state w) /\
  admitted GeneralQueue load w = [] /\
  exists task,
    admitted MhQueue load w = [task] /\
    t_call task
      = sgp_getMatchHistoryLcuFormat puuid 0 (default 20 (o_count o)) (Some ""%string) /\
    let w' := exec (resume (t_cont task) (Resolved (r_games games))) (exec load w) in
    matchHistoryTag (state w') = matchHistoryTag (state w) /\
    mh_tag <$> matchHistory (state w') !! puuid = Some (Some ""%string).
Proof.
  intros Htag Hable Hch load.
  pose proof (loadPlayerMatchHistory_remote puuid o w Hable Hch) as Hexec.
  rewrite Htag in Hexec.
  change (request_tag (Some ""%string)) with (Some ""%string) in Hexec.
  change (exec (publish_tag (Some ""%string))
            (exec (log_ info "Load player match history: SGP API" [arg_str puuid]) w))
    with (exec (log_ info "Load player match history: SGP API" [arg_str puuid]) w)
    in Hexec.
  assert (matchHistoryTag (state (exec load w)) = matchHistoryTag (state w)) as Hstored.
  { unfold load. rewrite Hexec. reflexivity. }
  split; [exact Hstored |]. split.
  - unfold load. rewrite (admitted_ext _ _ _ _ Hexec).
    apply admitted_add_other; [done | reflexivity | reflexivity].
  - eexists. split; [| split].
    + unfold load. rewrite (admitted_ext _ _ _ _ Hexec).
      apply admitted_add_same; reflexivity.
    + reflexivity.
    + cbn [t_cont].
      destruct (resume_matchHistory_sgp puuid (default 20 (o_count o)) (Some ""%string)
                  (o_signal o) (o_force o) (o_useSgpApi o) games (exec load w))
        as (Hmh & Htg & _).
      split.
      * rewrite Htg. exact Hstored.
      * rewrite Hmh, lookup_insert_eq. reflexivity.
Qed.

Lemma admitted_log q lv msg l w :
  admitted q (fun _ => ((), exec (log_ lv msg l) w)) w = [].
Proof. unfold admitted. destruct q; cbn; apply drop_all. Qed.

(** C3, as the code has it. The match-history loader returns without a
    request if and only if [force] is false, a record is stored for the
    player, its [targetCount] is the requested count, its source is the
    resolved source and, when that source is the SGP one, its tag is the
    requested tag with ["all"] read as no tag. A skipped load admits no task
    and leaves the state as it is; a load that is not skipped admits exactly
    one task, the match-history request of the resolved source. Hence a
    second load with the same count, source and tag and without [force],
    made once the record of the first one is committed, makes no request
    when the tag is absent, ["all"], empty or in the known-safe set; and a
    load whose resolved source differs from the stored one is never
    skipped. *)
Theorem matchHistory_skip (w : OngoingGameMain) (puuid : string)
    (o : MatchHistoryOptions) :
  let count := default 20 (o_count o) in
  let isAble := isAbleToUseSgpApi (o_useSgpApi o) w in
  let load := _loadPlayerMatchHistory puuid o in
  let unchanged :=
    matchHistory_unchanged (o_force o) (matchHistory (state w) !! puuid)
      count isAble (o_tag o) in
  (unchanged = true <->
   o_force o = false /\
   exists cur, matchHistory (state w) !! puuid = Some cur /\
     mh_targetCount cur = count /\
     mh_source cur = resolved isAble /\
     (isAble = true -> mh_tag cur = all_as_undefined (o_tag o))) /\
  (unchanged = true ->
   admitted MhQueue load w = [] /\ admitted GeneralQueue load w = [] /\
   state (exec load w) = state w) /\
  (unchanged = false ->
   exists task,
     admitted MhQueue load w ++ admitted GeneralQueue load w = [task] /\
     t_call task =
       if isAble
       then sgp_getMatchHistoryLcuFormat puuid 0 count (request_tag (o_tag o))
       else lc_getMatchHistory puuid 0 (count - 1)) /\
  (forall games,
     o_force o = false ->
     (forall t, o_tag o = Some t ->
        t = "all"%string \/ t = ""%string \/ t ∈ SAFE_TAGS) ->
     matchHistory (state w) !! puuid =
       Some (if isAble then toBeLoaded_sgp games count (request_tag (o_tag o))
             else toBeLoaded_lcu games count) ->
     unchanged = true) /\
  (forall cur,
     matchHistory (state w) !! puuid = Some cur ->
     mh_source cur <> resolved isAble ->
     unchanged = false).
Proof.
  intros count isAble load unchanged.
  split; [| split; [| split; [| split]]].
  - unfold unchanged, matchHistory_unchanged.
    destruct (matchHistory (state w) !! puuid) as [cur |].
    + rewrite !andb_true_iff, negb_true_iff, orb_true_iff, negb_true_iff,
        !bool_decide_eq_true.
      split.
      * intros (Hf & (Hc & Hs) & Ht). split; [done |]. exists cur.
        repeat split; try done. intros Ha. destruct Ht as [Ht | Ht]; [congruence | done].
      * intros (Hf & cur' & [= <-] & Hc & Hs & Ht). repeat split; try done.
        destruct isAble; [right; symmetry; by apply Ht | by left].
    + rewrite andb_false_r. split; [done |]. intros (_ & cur & [=] & _).
  - intros Hu. unfold load.
    pose proof (loadPlayerMatchHistory_skipped puuid o w Hu) as Hexec.
    rewrite !(admitted_ext _ _ _ _ Hexec), !admitted_log, Hexec. done.
  - intros Hu. unfold unchanged in Hu. destruct isAble eqn:Hable.
    + pose proof (loadPlayerMatchHistory_remote puuid o w Hable Hu) as Hexec.
      eexists. unfold load. rewrite !(admitted_ext _ _ _ _ Hexec).
      rewrite admitted_add_same, admitted_add_other; first (split; reflexivity);
        try done; rewrite publish_tag_frame; repeat case_match; reflexivity.
    + pose proof (loadPlayerMatchHistory_local puuid o w Hable Hu) as Hexec.
      eexists. unfold load. rewrite !(admitted_ext _ _ _ _ Hexec).
      rewrite admitted_add_same, admitted_add_other; first (split; reflexivity);
        done.
  - intros games Hf Htag Hcur. unfold unchanged, matchHistory_unchanged.
    rewrite Hcur, Hf. cbn [negb andb]. destruct isAble; cbn.
    + rewrite !bool_decide_eq_true_2; [reflexivity | | reflexivity | reflexivity].
      unfold all_as_undefined, request_tag, truthy.
      destruct (o_tag o) as [t |]; [| reflexivity].
      destruct (Htag t eq_refl) as [-> | [-> | Hs]]; [reflexivity | reflexivity |].
      apply SAFE_TAGS_has_spec in Hs as Hs'. rewrite Hs'.
      assert (t <> "all"%string) as Hall by (intros ->; by apply all_not_safe).
      rewrite (bool_decide_eq_false_2 _ Hall). cbn.
      by destruct (bool_decide (t = ""%string)).
    + rewrite !bool_decide_eq_true_2; reflexivity.
  - intros cur Hcur Hs. unfold unchanged, matchHistory_unchanged.
    rewrite Hcur, (bool_decide_eq_false_2 _ Hs), andb_false_r.
    cbn. apply andb_false_r.
Qed.

(** On the remote path with the tag [q_420]: once the answer of the first
    load is committed, the second load is skipped and admits nothing. Were
    the record one of the league client, the load would not be skipped. *)
Lemma matchHistory_skip_witness :
  let o := demo_options (Some "q_420"%string) true in
  let load := _loadPlayerMatchHistory "p1" o in
  let w := exec (settle 0 (Resolved (r_games [game101]))) (exec load remote_shard) in
  let w' := with_state (set_matchHistory {[ "p1"%string := toBeLoaded_lcu [game101] 20 ]}) w in
  (admitted MhQueue load w = [] /\ admitted GeneralQueue load w = [] /\
   state (exec load w) = state w) /\
  matchHistory_unchanged false (matchHistory (state w') !! "p1"%string) 20 true
    (Some "q_420"%string) = false.
Proof.
  intros o load w w'. split.
  - destruct (matchHistory_skip w "p1" o) as (_ & Hskip & _ & Htwice & _).
    apply Hskip. apply (Htwice [game101]).
    + reflexivity.
    + intros t [= <-]. right. right. apply SAFE_TAGS_has_spec. vm_compute. reflexivity.
    + vm_compute. reflexivity.
  - destruct (matchHistory_skip w' "p1" o) as (_ & _ & _ & _ & Hswitch).
    apply (Hswitch (toBeLoaded_lcu [game101] 20)).
    + vm_compute. reflexivity.
    + discriminate.
Defined.

(** C3, counterexample. On the remote path with the tag [q_999], which is
    outside the known-safe set: the first load sends its request without a
    tag and its answer is committed without a tag; the second load, with the
    same count, source and tag and without [force], is not skipped and
    sends the same request again. *)
Lemma unsafe_tag_fetched_twice :
  let o := demo_options (Some "q_999"%string) true in
  let load := _loadPlayerMatchHistory "p1" o in
  let w := exec (settle 0 (Resolved (r_games [game101]))) (exec load remote_shard) in
  (t_call <$> admitted MhQueue load remote_shard)
    = [ sgp_getMatchHistoryLcuFormat "p1" 0 20 None ] /\
  matchHistory (state w) !! "p1"%string = Some (toBeLoaded_sgp [game101] 20 None) /\
  tasks w = [] /\
  (t_call <$> admitted MhQueue load w)
    = [ sgp_getMatchHistoryLcuFormat "p1" 0 20 None ].
Proof. repeat split; vm_compute; reflexivity. Qed.

(** On the local path: the list arrives, the detail of game 101 arrives,
    the record is committed with the detailed game, and a second load with
    the same options is skipped. *)
Example local_load_then_skip :
  let o := demo_options (Some "all"%string) true in
  let load := _loadPlayerMatchHistory "p1" o in
  let w := exec (load ;;
                 settle 0 (Resolved (r_games [game101])) ;;
                 settle 1 (Resolved (r_game game101_detailed))) local_shard in
  matchHistory (state w) !! "p1"%string = Some (toBeLoaded_lcu [game101_detailed] 20) /\
  LRUMap.keys (_gameLruMap w) = [101] /\
  admitted GeneralQueue load w = [] /\ admitted MhQueue load w = [].
Proof. repeat split; vm_compute; reflexivity. Qed.

(** ** The two caches *)

Section CacheFacts.
Context {V : Type}.
Implicit Types (c : LRUMap.t V) (l : list (Z * V)) (k : Z) (v : V).

Lemma remove_length k l : (length (LRUMap.remove k l) <= length l)%nat.
Proof.
  induction l as [| [k' v'] l IH]; cbn; [lia |].
  case_bool_decide; cbn; lia.
Qed.

Lemma remove_length_hit k l v :
  LRUMap.assoc k l = Some v -> (length (LRUMap.remove k l) < length l)%nat.
Proof.
  induction l as [| [k' v'] l IH]; cbn; [done |].
  case_bool_decide; cbn.
  - intros _. pose proof (remove_length k l). lia.
  - intros Hx. apply IH in Hx. lia.
Qed.

Lemma assoc_None k l : LRUMap.assoc k l = None <-> k ∉ l.*1.
Proof.
  induction l as [| [k' v'] l IH]; cbn.
  - split; [intros _; apply not_elem_of_nil | done].
  - rewrite not_elem_of_cons. case_bool_decide; subst.
    + split; [done | intros [? _]; done].
    + rewrite IH. split; [intros H'; split; [congruence | done] | intros [_ H']; done].
Qed.

Lemma remove_absent k l : LRUMap.assoc k l = None -> LRUMap.remove k l = l.
Proof.
  induction l as [| [k' v'] l IH]; cbn; [done |].
  case_bool_decide; [done |]. intros H'. by rewrite IH.
Qed.

Lemma removelast_length {A} (x : list A) : length (removelast x) = pred (length x).
Proof.
  induction x as [| a [| b x] IH]; cbn in *; [done | done |]. by rewrite IH.
Qed.

(** [set] and [get] keep the capacity and never exceed it. *)
Lemma set_bounded k v c :
  (LRUMap.size c <= LRUMap.maxSize c)%nat ->
  LRUMap.maxSize (LRUMap.set k v c) = LRUMap.maxSize c /\
  (LRUMap.size (LRUMap.set k v c) <= LRUMap.maxSize c)%nat.
Proof.
  intros H. split; [reflexivity |]. unfold LRUMap.set, LRUMap.size in *. cbn [LRUMap.entries].
  pose proof (remove_length k (LRUMap.entries c)).
  destruct (Nat.ltb_spec (LRUMap.maxSize c)
              (length ((k, v) :: LRUMap.remove k (LRUMap.entries c)))) as [Hlt | Hge].
  - rewrite removelast_length. cbn [length] in *. lia.
  - exact Hge.
Qed.

Lemma get_bounded k c :
  (LRUMap.size c <= LRUMap.maxSize c)%nat ->
  LRUMap.maxSize (LRUMap.get k c).2 = LRUMap.maxSize c /\
  (LRUMap.size (LRUMap.get k c).2 <= LRUMap.maxSize c)%nat.
Proof.
  intros H. unfold LRUMap.get, LRUMap.size in *.
  destruct (LRUMap.assoc k (LRUMap.entries c)) as [v |] eqn:Ha; cbn; [| done].
  split; [reflexivity |]. apply remove_length_hit in Ha. lia.
Qed.

Lemma run_ops_bounded os c :
  (LRUMap.size c <= LRUMap.maxSize c)%nat ->
  LRUMap.maxSize (LRUMap.run_ops os c) = LRUMap.maxSize c /\
  (LRUMap.size (LRUMap.run_ops os c) <= LRUMap.maxSize c)%nat.
Proof.
  revert c. induction os as [| o os IH]; intros c H; [done |].
  cbn [LRUMap.run_ops foldl]. fold (LRUMap.run_ops os (LRUMap.run_op o c)).
  assert (LRUMap.maxSize (LRUMap.run_op o c) = LRUMap.maxSize c /\
          (LRUMap.size (LRUMap.run_op o c) <= LRUMap.maxSize c)%nat) as [Hm Hs].
  { destruct o; cbn [LRUMap.run_op];
      [by apply set_bounded | by apply get_bounded | done]. }
  destruct (IH (LRUMap.run_op o c)) as [Hm' Hs']; [lia |].
  split; [congruence | lia].
Qed.

(** An insertion into a full cache of a key that is not resident evicts
    the last entry, the least recently accessed one, and no other. *)
Lemma set_over_capacity k v c :
  LRUMap.has k c = false ->
  LRUMap.size c = LRUMap.maxSize c ->
  (0 < LRUMap.maxSize c)%nat ->
  LRUMap.entries (LRUMap.set k v c) = (k, v) :: removelast (LRUMap.entries c).
Proof.
  unfold LRUMap.has, LRUMap.size, LRUMap.set. intros Hhas Hfull Hpos.
  destruct (LRUMap.assoc k (LRUMap.entries c)) eqn:Ha; [done |].
  rewrite (remove_absent _ _ Ha). cbn [LRUMap.entries length].
  rewrite (proj2 (Nat.ltb_lt _ _)) by lia.
  destruct (LRUMap.entries c); [cbn in *; lia | reflexivity].
Qed.

Lemma set_all_snoc (f : Z -> V) ks k c :
  LRUMap.set_all f (ks ++ [k]) c = LRUMap.set k (f k) (LRUMap.set_all f ks c).
Proof. unfold LRUMap.set_all. by rewrite foldl_app. Qed.

Lemma removelast_take {A} (n : nat) (a : A) (x : list A) :
  (n < length (a :: take n x))%nat ->
  removelast (a :: take n x) = take n (a :: x).
Proof.
  revert a x. induction n as [| n IH]; intros a x H; [done |].
  destruct x as [| b x]; [cbn in H; lia |].
  cbn [firstn] in *. specialize (IH b x). cbn [length] in *.
  rewrite <- IH by lia. reflexivity.
Qed.

Lemma removelast_lru c :
  LRUMap.entries c <> [] ->
  exists e, LRUMap.lru c = Some e /\
            LRUMap.entries c = removelast (LRUMap.entries c) ++ [e].
Proof.
  unfold LRUMap.lru. induction (LRUMap.entries c) as [| a [| b l] IH]; intros Hne.
  - done.
  - by exists a.
  - destruct IH as (e & Hl & He); [done |]. exists e. split; [exact Hl |].
    change (removelast (a :: b :: l)) with (a :: removelast (b :: l)).
    cbn [app]. by rewrite <- He.
Qed.

(** Distinct keys inserted into an empty cache: the cache holds the most
    recent ones, as many as its capacity, the most recent first. *)
Lemma set_all_distinct (f : Z -> V) ks n :
  NoDup ks ->
  LRUMap.entries (LRUMap.set_all f ks (LRUMap.create n)) =
  take n (reverse ((fun k => (k, f k)) <$> ks)) /\
  LRUMap.maxSize (LRUMap.set_all f ks (LRUMap.create n)) = n.
Proof.
  induction ks as [| k ks IH] using rev_ind; intros Hnd.
  - split; [by destruct n | done].
  - apply NoDup_app in Hnd as (Hnd & Hk & _).
    destruct (IH Hnd) as [He Hm]. rewrite set_all_snoc.
    set (c := LRUMap.set_all f ks (LRUMap.create n)) in *.
    split; [| done].
    unfold LRUMap.set. cbn [LRUMap.entries]. rewrite Hm.
    assert (LRUMap.assoc k (LRUMap.entries c) = None) as Ha.
    { apply assoc_None. rewrite He. intros Hin.
      apply list_elem_of_fmap in Hin as ([k' v'] & -> & Hin).
      apply elem_of_take in Hin as (i & Hin & _).
      apply list_elem_of_lookup_2, elem_of_reverse, list_elem_of_fmap in Hin
        as (k'' & [= -> _] & Hin).
      apply (Hk k''); [done | by apply list_elem_of_singleton]. }
    rewrite (remove_absent _ _ Ha), He.
    rewrite fmap_app, reverse_app. cbn [fmap list_fmap reverse].
    change (reverse [(k, f k)]) with [(k, f k)]. cbn [app].
    destruct (Nat.ltb_spec n (length ((k, f k) :: take n (reverse ((fun k => (k, f k)) <$> ks)))))
      as [Hlt | Hge].
    + by apply removelast_take.
    + cbn [length] in Hge. rewrite length_take in Hge.
      destruct n as [| n]; [lia |]. cbn [take]. f_equal.
      rewrite !take_ge; [done | lia | lia].
Qed.
End CacheFacts.

(** ** The order of eviction *)

Section AccessOrder.
Context {V : Type}.
Implicit Types (c : LRUMap.t V) (l : list (Z * V)) (k : Z) (v : V) (h R : list Z).

Lemma keys_remove k l : (LRUMap.remove k l).*1 = filter (fun x => x ≠ k) l.*1.
Proof.
  induction l as [| [k' v'] l IH]; [done |].
  cbn [LRUMap.remove fmap list_fmap fst]. rewrite filter_cons. cbn [fst].
  case_bool_decide; case_decide; try congruence; cbn; by rewrite IH.
Qed.

Lemma removelast_as_take {A} (x : list A) : removelast x = take (pred (length x)) x.
Proof.
  induction x as [| a [| b x] IH]; [done | done |].
  change (removelast (a :: b :: x)) with (a :: removelast (b :: x)).
  rewrite IH. reflexivity.
Qed.

(** [set] puts the key in front and keeps as many keys as the capacity. *)
Lemma keys_set k v c :
  (LRUMap.size c <= LRUMap.maxSize c)%nat ->
  LRUMap.keys (LRUMap.set k v c) =
  take (LRUMap.maxSize c) (k :: filter (fun x => x ≠ k) (LRUMap.keys c)).
Proof.
  intros Hs. unfold LRUMap.keys, LRUMap.set, LRUMap.size in *. cbn [LRUMap.entries].
  rewrite <- keys_remove.
  change (k :: (LRUMap.remove k (LRUMap.entries c)).*1)
    with (((k, v) :: LRUMap.remove k (LRUMap.entries c)).*1).
  rewrite <- fmap_take. f_equal.
  pose proof (remove_length k (LRUMap.entries c)) as Hr.
  destruct (Nat.ltb_spec (LRUMap.maxSize c)
              (length ((k, v) :: LRUMap.remove k (LRUMap.entries c)))) as [Hlt | Hge].
  - rewrite removelast_as_take. f_equal. cbn [length] in *. lia.
  - by rewrite take_ge.
Qed.

(** A hit of [get] puts the key in front; a miss changes nothing. *)
Lemma keys_get k c :
  LRUMap.keys (LRUMap.get k c).2 =
  if LRUMap.has k c then k :: filter (fun x => x ≠ k) (LRUMap.keys c)
  else LRUMap.keys c.
Proof.
  unfold LRUMap.keys, LRUMap.get, LRUMap.has.
  destruct (LRUMap.assoc k (LRUMap.entries c)); [| done].
  cbn [snd LRUMap.entries fmap list_fmap fst]. by rewrite keys_remove.
Qed.

Lemma recency_elem h k : k ∈ recency h -> k ∈ h.
Proof.
  induction h as [| x h IH]; [done |]. cbn [recency].
  rewrite !elem_of_cons, list_elem_of_filter. intros [-> | [_ Hk]]; auto.
Qed.

Lemma recency_NoDup h : NoDup (recency h).
Proof.
  induction h as [| x h IH]; [constructor |]. cbn [recency].
  apply NoDup_cons. split.
  - rewrite list_elem_of_filter. intros [Hx _]. done.
  - by apply NoDup_filter.
Qed.

Lemma filter_ne_absent k R : k ∉ R -> filter (fun x => x ≠ k) R = R.
Proof.
  induction R as [| x R IH]; [done |]. rewrite not_elem_of_cons. intros [Hx Hk].
  rewrite filter_cons. case_decide; [| congruence]. by rewrite IH.
Qed.

Lemma filter_ne_length k R :
  NoDup R -> (length R <= S (length (filter (fun x => x ≠ k) R)))%nat.
Proof.
  induction 1 as [| x R Hx Hnd IH]; [cbn; lia |].
  rewrite filter_cons. case_decide as Hk; cbn [length]; [lia |].
  assert (x = k) as -> by (destruct (decide (x = k)); [done | contradiction]).
  rewrite filter_ne_absent by done. lia.
Qed.

Lemma filter_ne_length_hit k R :
  k ∈ R -> (length (filter (fun x => x ≠ k) R) < length R)%nat.
Proof.
  induction R as [| x R IH]; [by intros ?%elem_of_nil |].
  rewrite filter_cons. pose proof (length_filter (fun x => x ≠ k) R) as Hl.
  case_decide as Hk; cbn [length].
  - rewrite elem_of_cons. intros [-> | Hin]; [done |]. apply IH in Hin. lia.
  - intros _. lia.
Qed.

(** Filtering a prefix or the whole list gives the same first elements. *)
Lemma take_filter_take (P : Z -> Prop) (dec : forall x, Decision (P x)) R (n m : nat) :
  (m <= length (filter P (take n R)))%nat \/ (length R <= n)%nat ->
  take m (filter P (take n R)) = take m (filter P R).
Proof.
  revert n m. induction R as [| x R IH]; intros n m Hm.
  - by rewrite take_nil.
  - destruct n as [| n].
    + cbn in Hm. destruct Hm as [Hm | Hm]; [| lia].
      assert (m = 0%nat) as -> by lia. done.
    + cbn [take] in *. rewrite !filter_cons in *. destruct (decide (P x)).
      * destruct m as [| m]; [done |]. cbn [take]. f_equal. apply IH.
        cbn [length] in Hm. lia.
      * apply IH. cbn [length] in Hm. lia.
Qed.

(** Accessing [k] and keeping the [n] latest keys: the keys beyond the
    [n] latest do not matter. *)
Lemma touch_take k R (n : nat) :
  NoDup R ->
  take n (k :: filter (fun x => x ≠ k) (take n R)) =
  take n (k :: filter (fun x => x ≠ k) R).
Proof.
  intros Hnd. destruct n as [| n]; [done |]. cbn [take]. f_equal.
  apply take_filter_take.
  destruct (Nat.le_gt_cases (length R) (S n)) as [Hle | Hgt]; [by right | left].
  pose proof (filter_ne_length k (take (S n) R)) as Hl.
  rewrite length_take in Hl.
  assert (NoDup (take (S n) R)) as Hnd'.
  { eapply sublist_NoDup; [done | apply sublist_take]. }
  specialize (Hl Hnd'). lia.
Qed.

(** The resident keys are the latest accessed keys, as many as the
    capacity, the latest first. *)
Lemma keys_history os c h :
  (LRUMap.size c <= LRUMap.maxSize c)%nat ->
  LRUMap.keys c = take (LRUMap.maxSize c) (recency h) ->
  LRUMap.keys (LRUMap.run_ops os c) =
  take (LRUMap.maxSize c) (recency (history os c h)).
Proof.
  revert c h. induction os as [| o os IH]; intros c h Hs Hk; [done |].
  cbn [LRUMap.run_ops foldl history]. fold (LRUMap.run_ops os (LRUMap.run_op o c)).
  assert (LRUMap.maxSize (LRUMap.run_op o c) = LRUMap.maxSize c /\
          (LRUMap.size (LRUMap.run_op o c) <= LRUMap.maxSize c)%nat) as [Hm Hs'].
  { destruct o; cbn [LRUMap.run_op];
      [by apply set_bounded | by apply get_bounded | done]. }
  rewrite <- Hm. apply IH; [lia |]. rewrite Hm.
  pose proof (recency_NoDup h) as Hnd.
  destruct o as [k v | k | k]; cbn [LRUMap.run_op accessed].
  - rewrite keys_set by done. rewrite Hk. cbn [app recency]. by apply touch_take.
  - rewrite keys_get. destruct (LRUMap.has k c) eqn:Hhas; [| done].
    cbn [app recency]. rewrite <- touch_take by done. rewrite <- Hk.
    symmetry. apply take_ge. cbn [length].
    assert (k ∈ LRUMap.keys c) as Hin.
    { unfold LRUMap.has in Hhas. destruct (decide (k ∈ LRUMap.keys c)) as [| Hn]; [done |].
      apply assoc_None in Hn. by rewrite Hn in Hhas. }
    apply filter_ne_length_hit in Hin. unfold LRUMap.size, LRUMap.keys in *.
    rewrite length_fmap in Hin. lia.
  - done.
Qed.

Lemma recency_elem_2 h k : k ∈ h -> k ∈ recency h.
Proof.
  induction h as [| x h IH]; [done |]. cbn [recency].
  rewrite !elem_of_cons, list_elem_of_filter.
  intros [-> | Hin]; [by left |].
  destruct (decide (k = x)) as [-> | Hne]; [by left | right; auto].
Qed.

Lemma history_app os1 os2 c h :
  history (os1 ++ os2) c h = history os2 (LRUMap.run_ops os1 c) (history os1 c h).
Proof.
  revert c h. induction os1 as [| o os1 IH]; intros c h; [done |].
  cbn [app history LRUMap.run_ops foldl]. apply IH.
Qed.

Lemma set_all_run_ops (f : Z -> V) ks c :
  LRUMap.set_all f ks c = LRUMap.run_ops ((fun k => LRUMap.Set_ k (f k)) <$> ks) c.
Proof.
  revert c. induction ks as [| k ks IH]; intros c; [done |].
  cbn [fmap list_fmap LRUMap.set_all LRUMap.run_ops foldl]. apply IH.
Qed.

Lemma history_sets (f : Z -> V) ks c h :
  history ((fun k => LRUMap.Set_ k (f k)) <$> ks) c h = reverse ks ++ h.
Proof.
  revert c h. induction ks as [| k ks IH]; intros c h; [done |].
  cbn [fmap list_fmap history accessed LRUMap.run_op]. rewrite IH, reverse_cons.
  by rewrite <- app_assoc.
Qed.

Lemma age_elem h k : k ∈ h -> is_Some (age h k).
Proof.
  induction h as [| x h IH]; [by intros ?%elem_of_nil |].
  cbn [age]. case_bool_decide; [by eexists |].
  rewrite elem_of_cons. intros [-> | Hin]; [done |].
  destruct (IH Hin) as [a ->]. by eexists.
Qed.

(** In the order of [recency], a key comes before the keys that were last
    accessed before it. *)
Lemma recency_sorted h : StronglySorted (more_recent h) (recency h).
Proof.
  induction h as [| x h IH]; [constructor |]. cbn [recency].
  constructor.
  - assert (Forall (fun a => a ∈ recency h) (recency h)) as Hall
      by (apply Forall_forall; auto).
    revert IH Hall. generalize (recency h) at 1 3 4 as R.
    induction R as [| a R IHR]; intros Hss Hall; [constructor |].
    apply StronglySorted_inv in Hss as [Hss Ha].
    apply Forall_cons in Hall as [Hain Hall].
    rewrite filter_cons. case_decide as Hax; [| by apply IHR].
    constructor; [by apply IHR |].
    apply Forall_forall. intros b [Hbx Hb]%list_elem_of_filter.
    rewrite Forall_forall in Ha. destruct (Ha b Hb) as (i & j & Hi & Hj & Hij).
    exists (S i), (S j). cbn [age]. rewrite !bool_decide_eq_false_2 by done.
    rewrite Hi, Hj. repeat split. lia.
  - apply Forall_forall. intros b [Hbx Hb]%list_elem_of_filter.
    destruct (age_elem h b (recency_elem _ _ Hb)) as [j Hj].
    exists 0%nat, (S j). cbn [age]. rewrite bool_decide_eq_true_2 by done.
    rewrite bool_decide_eq_false_2 by done. rewrite Hj. repeat split. lia.
Qed.

(** The last of the resident keys is the least recently accessed one. *)
Lemma last_least_recent R (n : nat) h ks e :
  StronglySorted (more_recent h) R ->
  take n R = ks ++ [e] -> least_recent h (ks ++ [e]) e.
Proof.
  intros Hss Ht. split; [apply elem_of_app; right; by apply list_elem_of_singleton |].
  intros k Hk Hne. apply elem_of_app in Hk as [Hk | Hk%list_elem_of_singleton]; [| done].
  rewrite <- (take_drop n R), Ht in Hss.
  apply StronglySorted_app_1_l in Hss.
  eapply StronglySorted_app_1_elem_of; [exact Hss | done | by apply list_elem_of_singleton].
Qed.
End AccessOrder.


Lemma caches_bounded_always s c es :
  caches_bounded (run es (exec onInit (constructed s c))).
Proof.
  apply always; try done; try (intros ? ? ?; assumption).
  - intros q call signal p k _ w H. destruct q; exact H.
  - intros id w [[Hm Hs] Ht]. split; [| exact Ht].
    cbn [_gameLruMap with_gameLruMap _gameLruMap_get snd].
    destruct (get_bounded id (_gameLruMap w)) as [Hm' Hs']; [rewrite Hm; exact Hs |].
    split; [rewrite Hm'; exact Hm | rewrite <- Hm; exact Hs'].
  - intros id w [Hg [Hm Hs]]. split; [exact Hg |].
    cbn [_gameTimelineLruMap with_gameTimelineLruMap _gameTimelineLruMap_get snd].
    destruct (get_bounded id (_gameTimelineLruMap w)) as [Hm' Hs']; [rewrite Hm; exact Hs |].
    split; [rewrite Hm'; exact Hm | rewrite <- Hm; exact Hs'].
  - intros w id v [[Hm Hs] Ht]. split; [| exact Ht].
    cbn [_gameLruMap with_gameLruMap _gameLruMap_get snd].
    destruct (set_bounded id v (_gameLruMap w)) as [Hm' Hs']; [rewrite Hm; exact Hs |].
    split; [rewrite Hm'; exact Hm | rewrite <- Hm; exact Hs'].
  - intros w id v [Hg [Hm Hs]]. split; [exact Hg |].
    cbn [_gameTimelineLruMap with_gameTimelineLruMap _gameTimelineLruMap_get snd].
    destruct (set_bounded id v (_gameTimelineLruMap w)) as [Hm' Hs']; [rewrite Hm; exact Hs |].
    split; [rewrite Hm'; exact Hm | rewrite <- Hm; exact Hs'].
  - intros s' c'. repeat split; cbn; lia.
Qed.

Lemma run_ops_snoc {V} (os : list (@LRUMap.op V)) o c :
  LRUMap.run_ops (os ++ [o]) c = LRUMap.run_op o (LRUMap.run_ops os c).
Proof. unfold LRUMap.run_ops. by rewrite foldl_app. Qed.

(** The shard only ever uses [set], [get] and [has] on its caches. *)
Lemma caches_from_ops_always s c es :
  caches_from_ops (run es (exec onInit (constructed s c))).
Proof.
  apply always; try done; try (intros ? ? ?; assumption).
  - intros q call signal p k _ w H. destruct q; exact H.
  - intros id w [[os Hg] Ht]. split; [| exact Ht].
    exists (os ++ [LRUMap.Get id]). rewrite run_ops_snoc, <- Hg. reflexivity.
  - intros id w [Hg [os Ht]]. split; [exact Hg |].
    exists (os ++ [LRUMap.Get id]). rewrite run_ops_snoc, <- Ht. reflexivity.
  - intros w id v [[os Hg] Ht]. split; [| exact Ht].
    exists (os ++ [LRUMap.Set_ id v]). rewrite run_ops_snoc, <- Hg. reflexivity.
  - intros w id v [Hg [os Ht]]. split; [exact Hg |].
    exists (os ++ [LRUMap.Set_ id v]). rewrite run_ops_snoc, <- Ht. reflexivity.
  - intros s' c'. split; exists []; reflexivity.
Qed.

(** C8. Each of the two caches of the shard holds at most 400 entries,
    whatever happens after [onInit]; so does a cache of capacity 400 after
    any sequence of [set], [get] and [has]. Inserting 401 distinct game ids
    into an empty cache of capacity 400 leaves exactly 400 entries: all but
    the first inserted, which is the least recently accessed. An insertion
    into a full cache of a game id that is not resident removes the last
    entry and no other. After any sequence of [set], [get] and [has], where
    [set] and a hit of [get] are the accesses, the resident game ids are the
    400 most recently accessed ones, the latest first; so the entry that
    an insertion over capacity evicts is the one whose last access is the
    earliest among the resident entries. Whatever happens after [onInit],
    each cache of the shard is the result of such a sequence. And after any
    such sequence, inserting 401 distinct game ids leaves exactly 400
    entries. *)
Theorem caches_hold_at_most_400 :
  (forall s c es,
     let w := run es (exec onInit (constructed s c)) in
     (LRUMap.size (_gameLruMap w) <= 400)%nat /\
     (LRUMap.size (_gameTimelineLruMap w) <= 400)%nat) /\
  (forall (V : Type) (os : list (@LRUMap.op V)),
     (LRUMap.size (LRUMap.run_ops os (LRUMap.create maxSize)) <= 400)%nat) /\
  (forall (V : Type) (f : Z -> V) (ks : list Z),
     NoDup ks -> length ks = 401%nat ->
     let c := LRUMap.set_all f ks (LRUMap.create maxSize) in
     LRUMap.size c = 400%nat /\ LRUMap.keys c = reverse (tail ks)) /\
  (forall (V : Type) (c : LRUMap.t V) (k : Z) (v : V),
     LRUMap.maxSize c = maxSize -> LRUMap.size c = 400%nat ->
     LRUMap.has k c = false ->
     LRUMap.size (LRUMap.set k v c) = 400%nat /\
     exists e, LRUMap.lru c = Some e /\
       LRUMap.entries (LRUMap.set k v c) ++ [e] = (k, v) :: LRUMap.entries c) /\
  (forall (V : Type) (os : list (@LRUMap.op V)),
     LRUMap.keys (LRUMap.run_ops os (LRUMap.create maxSize)) =
     take 400 (recency (history os (LRUMap.create maxSize) []))) /\
  (forall (V : Type) (os : list (@LRUMap.op V)) (k : Z) (v : V),
     LRUMap.size (LRUMap.run_ops os (LRUMap.create maxSize)) = 400%nat ->
     LRUMap.has k (LRUMap.run_ops os (LRUMap.create maxSize)) = false ->
     exists e,
       LRUMap.lru (LRUMap.run_ops os (LRUMap.create maxSize)) = Some e /\
       least_recent (history os (LRUMap.create maxSize) [])
         (LRUMap.keys (LRUMap.run_ops os (LRUMap.create maxSize))) e.1 /\
       LRUMap.entries (LRUMap.set k v (LRUMap.run_ops os (LRUMap.create maxSize))) ++ [e]
         = (k, v) :: LRUMap.entries (LRUMap.run_ops os (LRUMap.create maxSize))) /\
  (forall s c es,
     let w := run es (exec onInit (constructed s c)) in
     (exists os, _gameLruMap w = LRUMap.run_ops os (LRUMap.create maxSize)) /\
     (exists os, _gameTimelineLruMap w = LRUMap.run_ops os (LRUMap.create maxSize))) /\
  (forall (V : Type) (os : list (@LRUMap.op V)) (f : Z -> V) (ks : list Z),
     NoDup ks -> length ks = 401%nat ->
     LRUMap.size (LRUMap.set_all f ks (LRUMap.run_ops os (LRUMap.create maxSize)))
       = 400%nat).
Proof.
  assert (forall (V : Type) (c : LRUMap.t V) (k : Z) (v : V),
     LRUMap.maxSize c = maxSize -> LRUMap.size c = 400%nat ->
     LRUMap.has k c = false ->
     LRUMap.size (LRUMap.set k v c) = 400%nat /\
     exists e, LRUMap.lru c = Some e /\
       LRUMap.entries (LRUMap.set k v c) ++ [e] = (k, v) :: LRUMap.entries c) as Hevict.
  { intros V c k v Hm Hs Hhas.
    assert (LRUMap.entries (LRUMap.set k v c) = (k, v) :: removelast (LRUMap.entries c)) as He.
    { apply set_over_capacity; [done | by rewrite Hm | rewrite Hm; unfold maxSize; lia]. }
    split.
    + unfold LRUMap.size in *. rewrite He. cbn [length]. rewrite removelast_length. lia.
    + destruct (removelast_lru c) as (e & Hl & Hlast).
      { intros Hnil. unfold LRUMap.size in Hs. rewrite Hnil in Hs. done. }
      exists e. split; [exact Hl |]. rewrite He. cbn [app]. by rewrite <- Hlast. }
  assert (forall (V : Type) (os : list (@LRUMap.op V)),
     LRUMap.keys (LRUMap.run_ops os (LRUMap.create maxSize)) =
     take 400 (recency (history os (LRUMap.create maxSize) []))) as Horder.
  { intros V os. apply (keys_history os (LRUMap.create maxSize) []); [cbn; lia | done]. }
  split; [| split; [| split; [| split; [| split; [| split; [| split]]]]]];
    [| | | | | | intros s c es; apply caches_from_ops_always |].
  - intros s c es w. destruct (caches_bounded_always s c es) as [[_ H1] [_ H2]].
    split; assumption.
  - intros V os.
    destruct (run_ops_bounded os (LRUMap.create (V := V) maxSize)) as [_ H];
      [cbn; lia | exact H].
  - intros V f ks Hnd Hlen c.
    destruct (set_all_distinct f ks maxSize Hnd) as [He _]. fold c in He.
    assert (LRUMap.keys c = reverse (tail ks)) as Hk.
    { unfold LRUMap.keys. rewrite He, fmap_take, fmap_reverse.
      assert (((fun k => (k, f k)) <$> ks).*1 = ks) as ->.
      { clear. induction ks as [| k ks IH]; [done |]. cbn. by rewrite IH. }
      rewrite take_reverse, Hlen. by destruct ks. }
    split; [| exact Hk].
    unfold LRUMap.size. rewrite <- (length_fmap fst). fold (LRUMap.keys c).
    rewrite Hk, length_reverse. destruct ks; cbn in *; lia.
  - exact Hevict.
  - exact Horder.
  - intros V os k v Hs Hhas.
    set (c := LRUMap.run_ops os (LRUMap.create maxSize)) in *.
    assert (LRUMap.maxSize c = maxSize) as Hm.
    { destruct (run_ops_bounded os (LRUMap.create (V := V) maxSize)) as [Hm _];
        [cbn; lia | exact Hm]. }
    destruct (Hevict V c k v Hm Hs Hhas) as (_ & e & Hl & He).
    exists e. split; [exact Hl |]. split; [| exact He].
    destruct (removelast_lru c) as (e' & Hl' & Hlast).
    { intros Hnil. unfold LRUMap.size in Hs. rewrite Hnil in Hs. done. }
    assert (e' = e) as -> by congruence.
    assert (LRUMap.keys c = (removelast (LRUMap.entries c)).*1 ++ [e.1]) as Hks.
    { unfold LRUMap.keys. rewrite Hlast at 1. by rewrite fmap_app. }
    rewrite Hks.
    apply (last_least_recent (recency (history os (LRUMap.create maxSize) [])) 400).
    + apply recency_sorted.
    + rewrite <- Hks. symmetry. apply Horder.
  - intros V os f ks Hnd Hlen.
    rewrite set_all_run_ops.
    unfold LRUMap.run_ops. rewrite <- foldl_app.
    fold (LRUMap.run_ops (os ++ ((fun k => LRUMap.Set_ k (f k)) <$> ks))
            (LRUMap.create (V := V) maxSize)).
    unfold LRUMap.size. rewrite <- (length_fmap fst).
    fold (LRUMap.keys (LRUMap.run_ops (os ++ ((fun k => LRUMap.Set_ k (f k)) <$> ks))
                         (LRUMap.create (V := V) maxSize))).
    rewrite Horder, history_app, history_sets, length_take.
    assert (length ks <= length (recency (reverse ks ++
              history os (LRUMap.create (V := V) maxSize) [])))%nat as Hle.
    { apply submseteq_length, NoDup_submseteq; [done |].
      intros k Hk. apply recency_elem_2, elem_of_app. left. by apply elem_of_reverse. }
    lia.
Qed.

(** The ids 1 to 401, one after the other: 400 entries, the id 1 is gone;
    then the id 402 evicts the id 2. And the ids 1 to 400, then a read of
    the id 1: the id 401 evicts an entry that is the least recently
    accessed, and inserting the ids 1 to 401 leaves 400 entries. *)
Lemma caches_hold_at_most_400_witness :
  let c := LRUMap.set_all (fun k => mkSourced lcu k) (seqZ 1 401) (LRUMap.create maxSize) in
  (LRUMap.size c = 400%nat /\ LRUMap.keys c = reverse (tail (seqZ 1 401))) /\
  (LRUMap.size (LRUMap.set 402 (mkSourced lcu 402) c) = 400%nat /\
   exists e, LRUMap.lru c = Some e /\
     LRUMap.entries (LRUMap.set 402 (mkSourced lcu 402) c) ++ [e]
       = (402, mkSourced lcu 402) :: LRUMap.entries c) /\
  (exists e,
     LRUMap.lru (LRUMap.run_ops filled_then_read (LRUMap.create maxSize)) = Some e /\
     least_recent (history filled_then_read (LRUMap.create maxSize) [])
       (LRUMap.keys (LRUMap.run_ops filled_then_read (LRUMap.create maxSize))) e.1 /\
     LRUMap.entries (LRUMap.set 401 (mkSourced lcu 401)
                       (LRUMap.run_ops filled_then_read (LRUMap.create maxSize))) ++ [e]
       = (401, mkSourced lcu 401)
           :: LRUMap.entries (LRUMap.run_ops filled_then_read (LRUMap.create maxSize))) /\
  LRUMap.size (LRUMap.set_all (fun k => mkSourced lcu k) (seqZ 1 401)
                 (LRUMap.run_ops filled_then_read (LRUMap.create maxSize))) = 400%nat.
Proof.
  intros c.
  destruct caches_hold_at_most_400 as (_ & _ & Hfill & Hevict & _ & Hleast & _ & Hmore).
  split; [| split; [| split]].
  - apply (Hfill _ (fun k => mkSourced lcu k) (seqZ 1 401)).
    + apply NoDup_seqZ.
    + vm_compute. reflexivity.
  - apply (Hevict _ c 402 (mkSourced lcu 402)).
    + vm_compute. reflexivity.
    + vm_compute. reflexivity.
    + vm_compute. reflexivity.
  - apply (Hleast _ filled_then_read 401 (mkSourced lcu 401)).
    + vm_compute. reflexivity.
    + vm_compute. reflexivity.
  - apply (Hmore _ filled_then_read (fun k => mkSourced lcu k) (seqZ 1 401)).
    + apply NoDup_seqZ.
    + vm_compute. reflexivity.
Defined.

(** The entry that was read is kept: after the games 1 to 400 and the read
    of game 1, the insertion of game 401 evicts game 2, and game 1 stays. *)
Example read_entry_survives :
  let c := LRUMap.run_ops filled_then_read (LRUMap.create maxSize) in
  LRUMap.lru c = Some (2, mkSourced lcu 2) /\
  LRUMap.keys (LRUMap.set 401 (mkSourced lcu 401) c) = 401 :: 1 :: reverse (seqZ 3 398).
Proof. split; vm_compute; reflexivity. Qed.

(** ** The recomputation of the analytics *)

Lemma last_cons (l : list Z) (a b : Z) : List.last (a :: l) b = List.last l a.
Proof.
  revert a b. induction l as [| c l IH]; intros a b; [reflexivity |].
  change (List.last (a :: c :: l) b) with (List.last (c :: l) b).
  rewrite !IH. reflexivity.
Qed.

Lemma burst_coalesces d rest t rs :
  Reaction.burst d t rest ->
  foldl (fun r now => Reaction.changed now r)
    {| Reaction.delay := d; Reaction.scheduled := Some (t + d); Reaction.runs := rs |} rest
  = {| Reaction.delay := d; Reaction.scheduled := Some (List.last rest t + d);
       Reaction.runs := rs |}.
Proof.
  revert t. induction rest as [| t' rest IH]; intros t Hb; [reflexivity |].
  destruct Hb as [Hgap Hb]. cbn [foldl].
  assert (Reaction.changed t'
            {| Reaction.delay := d; Reaction.scheduled := Some (t + d); Reaction.runs := rs |}
          = {| Reaction.delay := d; Reaction.scheduled := Some (t' + d); Reaction.runs := rs |})
    as ->.
  { unfold Reaction.changed, Reaction.advance. cbn.
    destruct (Z.leb_spec (t + d) t'); [lia | reflexivity]. }
  rewrite (IH t' Hb), last_cons. reflexivity.
Qed.

(** C9. For every burst of changes of the watched state in which each
    change comes less than 200 ms after the one before, each of the two
    reactions of [_handleCalculation] runs its recomputation exactly once,
    200 ms after the last change. *)
Theorem burst_recomputes_once (first : Z) (rest : list Z) (horizon : Z) :
  Reaction.burst 200 first rest ->
  List.last rest first + 200 <= horizon ->
  Reaction.runs (Reaction.play (first :: rest) horizon playerStats_reaction)
    = [List.last rest first + 200] /\
  Reaction.runs (Reaction.play (first :: rest) horizon premadeTeams_reaction)
    = [List.last rest first + 200].
Proof.
  intros Hb Hh.
  assert (Reaction.runs (Reaction.play (first :: rest) horizon (Reaction.create 200))
          = [List.last rest first + 200]) as H.
  { unfold Reaction.play. cbn [foldl].
    change (Reaction.changed first (Reaction.create 200))
      with {| Reaction.delay := 200; Reaction.scheduled := Some (first + 200);
              Reaction.runs := [] |}.
    rewrite (burst_coalesces 200 rest first [] Hb).
    unfold Reaction.advance. cbn.
    destruct (Z.leb_spec (List.last rest first + 200) horizon); [reflexivity | lia]. }
  split; exact H.
Qed.

(** Five completions within 50 ms: one recomputation, at 250 ms. *)
Lemma burst_recomputes_once_witness :
  Reaction.runs (Reaction.play [0; 10; 20; 30; 50] 1000 playerStats_reaction) = [250].
Proof.
  apply (proj1 (burst_recomputes_once 0 [10; 20; 30; 50] 1000
                  ltac:(cbn; lia) ltac:(cbn; lia))).
Defined.

(** Changes that are further apart are not coalesced. *)
Example spaced_changes_recompute_twice :
  Reaction.runs (Reaction.play [0; 300] 1000 playerStats_reaction) = [500; 200].
Proof. reflexivity. Qed.

(** ** Generations *)

(** A task whose signal is aborted commits nothing when it settles, unless
    it is a per-game detail request of the local match-history path. *)
Lemma aborted_task_commits_nothing id o w t :
  find_task id w = Some t ->
  signal_aborted (t_signal t) w = true ->
  (forall inv puuid gameId, t_cont t <> k_matchHistory_lcu_game inv puuid gameId) ->
  committed (exec (settle id o) w) = committed w.
Proof.
  intros Hfind Hab Hk. unfold settle.
  rewrite exec_bind. cbn [read fst snd]. rewrite Hfind.
  rewrite exec_bind. cbn [read fst snd]. rewrite Hab. rewrite exec_seq.
  destruct (t_cont t); cbn [resume]; try reflexivity.
  exfalso. by eapply Hk.
Qed.

Lemma handleMatchHistoryError_abort puuid :
  _handleMatchHistoryError AbortError puuid =
  modify_state (setMatchHistoryLoadingState puuid aborted).
Proof. reflexivity. Qed.

(** The exception: when the last awaited detail request of a local load
    settles under an aborted signal, the load commits its record all the
    same, with the list entries in place of the details it did not get. *)
Lemma aborted_detail_commits id o w t inv puuid gid ll :
  find_task id w = Some t ->
  t_cont t = k_matchHistory_lcu_game inv puuid gid ->
  signal_aborted (t_signal t) w = true ->
  localLoads w !! inv = Some ll ->
  ll_unsettled ll = 1%nat ->
  matchHistory (state (exec (settle id o) w)) !! ll_puuid ll =
  Some (toBeLoaded_lcu
          (map (fun g => default g (detailedGameMap ll !! gameId g)) (ll_games ll))
          (ll_count ll)).
Proof.
  intros Hfind Hk Hab Hll Hone. unfold settle.
  rewrite exec_bind. cbn [read fst snd]. rewrite Hfind.
  rewrite exec_bind. cbn [read fst snd]. rewrite Hab, exec_seq, Hk.
  cbn [resume]. rewrite !exec_seq.
  unfold after_allSettled. rewrite exec_bind. cbn [read fst snd].
  set (w' := exec (set_unsettled pred inv) _).
  assert (localLoads w' !! inv =
          Some {| ll_puuid := ll_puuid ll; ll_count := ll_count ll;
                  ll_games := ll_games ll; detailedGameMap := detailedGameMap ll;
                  ll_unsettled := O |}) as Hll'.
  { unfold w'. rewrite handleMatchHistoryError_abort. cbn.
    rewrite lookup_alter_eq, Hll. cbn. rewrite Hone. reflexivity. }
  rewrite Hll'. cbn [ll_unsettled ll_puuid ll_games ll_count detailedGameMap].
  cbv [commit_matchHistory exec mbind M_bind modify_state modify sendEvent log_].
  cbn. apply lookup_insert_eq.
Qed.

(** C1, the code at the failing input. Generation 1 loads player p1 from
    the league client; its list has arrived and the detail of game 101 is
    awaited under the signal of generation 1. Generation 2 starts: both
    controllers of generation 1 are aborted and two new ones created, the
    new load of p1 resolves to the SGP source and nothing is committed yet.
    When the awaited detail then settles, as an abort, the load of
    generation 1 goes on and commits its record for p1, with the source of
    generation 1, sends the event and sets the loading state to [loaded].
    When the SGP request of generation 2 then fails, that record is what
    stays committed. *)
Theorem stale_commit_after_new_generation :
  let w1 := run generation1 local_shard in
  let w2 := run generation2 w1 in
  let w3 := run late_settlement w2 in
  let w4 := run failed_reload w3 in
  (_controller w1, _mhController w1) = (Some 0%nat, Some 1%nat) /\
  ((fun t => (t_call t, t_signal t)) <$> find_task 5 w1) = Some (lc_getGame 101, Some 0%nat) /\
  (_controller w2, _mhController w2) = (Some 2%nat, Some 3%nat) /\
  signal_aborted (Some 0%nat) w2 = true /\ signal_aborted (Some 1%nat) w2 = true /\
  ((fun t => (t_call t, t_signal t)) <$> find_task 6 w2)
    = Some (sgp_getMatchHistoryLcuFormat "p1" 0 20 None, Some 3%nat) /\
  matchHistory (state w2) !! "p1"%string = None /\
  matchHistory (state w3) !! "p1"%string = Some (toBeLoaded_lcu [game101] 20) /\
  matchHistoryLoadingState (state w3) !! "p1"%string = Some loaded /\
  head (_ipc w3) = Some (ev_player "match-history-loaded" "p1") /\
  isAbleToUseSgpApi (matchHistoryUseSgpApi (settings w4)) w4 = true /\
  mh_source <$> matchHistory (state w4) !! "p1"%string = Some lcu /\
  (_controller w4, _mhController w4) = (Some 2%nat, Some 3%nat).
Proof. repeat split; vm_compute; reflexivity. Qed.

(** * Further properties *)

(** ** The roster *)

Lemma elem_of_loadable (empty p : string) (team : list string) :
  p ∈ loadable empty team <-> p ∈ team /\ p <> ""%string /\ p <> empty.
Proof.
  unfold loadable. rewrite list_elem_of_In, filter_In, <- list_elem_of_In.
  unfold truthy. rewrite andb_true_iff, !negb_true_iff, !bool_decide_eq_false.
  tauto.
Qed.

(** X1. [getPuuidsToLoadForPlayers] returns the members of the first side,
    then those of the second side, of the session of the current stage
    (champ-select session in champion select, gameflow session in game),
    without the empty and the placeholder puuid: a puuid is in the result
    exactly when it is neither of the two and belongs to a side of that
    session. Nothing is returned when the stage is unavailable or the
    session is missing. *)
Theorem puuids_to_load (w : OngoingGameMain) (p : string) :
  (p ∈ getPuuidsToLoadForPlayers w <->
   p <> ""%string /\ p <> EMPTY_PUUID (ext w) /\
   exists s,
     (phase (queryStage (state w)) = champ_select /\ champSelect_session (ext w) = Some s \/
      phase (queryStage (state w)) = in_game /\ gameflow_session (ext w) = Some s) /\
     (p ∈ sideOne s \/ p ∈ sideTwo s)) /\
  (phase (queryStage (state w)) = unavailable -> getPuuidsToLoadForPlayers w = []) /\
  (champSelect_session (ext w) = None -> gameflow_session (ext w) = None ->
   getPuuidsToLoadForPlayers w = []).
Proof.
  unfold getPuuidsToLoadForPlayers. split; [| split].
  - destruct (phase (queryStage (state w))).
    + split; [intros H; by apply elem_of_nil in H |].
      intros (_ & _ & s & [[? _] | [? _]] & _); done.
    + destruct (champSelect_session (ext w)) as [s |].
      * rewrite elem_of_app, !elem_of_loadable. split.
        -- intros [(? & ? & ?) | (? & ? & ?)]; (split; [done |]); (split; [done |]);
             exists s; (split; [by left |]); tauto.
        -- intros (? & ? & s' & [[_ [= <-]] | [? _]] & Hin); [tauto | done].
      * split; [intros H; by apply elem_of_nil in H |].
        intros (_ & _ & s & [[_ ?] | [? _]] & _); done.
    + destruct (gameflow_session (ext w)) as [s |].
      * rewrite elem_of_app, !elem_of_loadable. split.
        -- intros [(? & ? & ?) | (? & ? & ?)]; (split; [done |]); (split; [done |]);
             exists s; (split; [by right |]); tauto.
        -- intros (? & ? & s' & [[? _] | [_ [= <-]]] & Hin); [done | tauto].
      * split; [intros H; by apply elem_of_nil in H |].
        intros (_ & _ & s & [[? _] | [_ ?]] & _); done.
  - by intros ->.
  - intros -> ->. by destruct (phase (queryStage (state w))).
Qed.

(** Before champion select, and without any session, there is nothing to
    load. *)
Lemma puuids_to_load_witness :
  getPuuidsToLoadForPlayers local_shard = [] /\
  getPuuidsToLoadForPlayers
    (with_ext (fun c => {| EMPTY_PUUID := EMPTY_PUUID c;
                           sgp_isTokenReady := true;
                           sgp_serversSupported_matchHistory := false;
                           champSelect_session := None;
                           gameflow_session := None;
                           lc_auth := true; lc_summoner_me := None |}) local_shard) = [].
Proof.
  split.
  - apply (proj1 (proj2 (puuids_to_load local_shard ""))). vm_compute. reflexivity.
  - apply (proj2 (proj2 (puuids_to_load _ ""))); reflexivity.
Defined.

(** ** Generations: the clearing branch *)

Lemma abort_controller_spec w :
  let w' := exec abort_controller w in
  _controller w' = None /\ _mhController w' = _mhController w /\
  abortedSignals w' = signal_of (_controller w) ∪ abortedSignals w /\
  nextController w' = nextController w /\
  beside_controllers w' = beside_controllers w.
Proof.
  unfold abort_controller, exec, modify. cbn [snd].
  destruct (_controller w) as [c |] eqn:Hc; cbn; rewrite ?Hc; repeat split.
  symmetry. apply (left_id_L ∅ (∪)).
Qed.

Lemma abort_mhController_spec w :
  let w' := exec abort_mhController w in
  _mhController w' = None /\ _controller w' = _controller w /\
  abortedSignals w' = signal_of (_mhController w) ∪ abortedSignals w /\
  nextController w' = nextController w /\
  beside_controllers w' = beside_controllers w.
Proof.
  unfold abort_mhController, exec, modify. cbn [snd].
  destruct (_mhController w) as [c |] eqn:Hc; cbn; rewrite ?Hc; repeat split.
  symmetry. apply (left_id_L ∅ (∪)).
Qed.

(** X2. When the stage is unavailable, the feature is disabled, or the SGP
    API is selected while its token is not ready, [_handleLoad] starts no
    generation: both controllers are aborted and set to null, the pending
    debounced reload is cancelled, the state is cleared, the published tag
    is reset to ["all"], the event [clear] is sent, and no task is
    admitted. *)
Theorem handleLoad_clears (w : OngoingGameMain) :
  must_clear w = true ->
  let w' := exec _handleLoad w in
  _controller w' = None /\ _mhController w' = None /\
  abortedSignals w' =
    signal_of (_mhController w) ∪ (signal_of (_controller w) ∪ abortedSignals w) /\
  _debouncedUpdateMatchHistoryFn w' = O /\
  state w' = setMatchHistoryTag "all" (clear (state w)) /\
  _ipc w' = ev_clear :: _ipc w /\
  tasks w' = tasks w.
Proof.
  intros Hc. unfold _handleLoad.
  rewrite !exec_seq.
  set (w0 := exec (log_ _ _ _) w).
  destruct (abort_controller_spec w0) as (Hc1 & Hm1 & Ha1 & Hn1 & Hf1).
  set (w1 := exec abort_controller w0) in *.
  destruct (abort_mhController_spec w1) as (Hm2 & Hc2 & Ha2 & Hn2 & Hf2).
  set (w2 := exec abort_mhController w1) in *.
  unfold beside_controllers in Hf1, Hf2.
  injection Hf1 as Hs1 Hst1 He1 _ _ Hq1 Hq1' _ _ _ _ _ Hi1.
  injection Hf2 as Hs2 Hst2 He2 _ _ Hq2 Hq2' _ _ _ _ _ Hi2.
  change (_controller w0) with (_controller w) in *.
  change (_mhController w0) with (_mhController w) in *.
  change (abortedSignals w0) with (abortedSignals w) in *.
  clear Hn1 Hn2. clearbody w1 w2. clear w0.
  rewrite !exec_bind. cbn [read fst snd exec modify].
  cbn [state settings ext with_debounced].
  assert (must_clear w2 = must_clear w) as Hmc.
  { unfold must_clear. rewrite Hs2, Hst2, He2, Hs1, Hst1, He1. reflexivity. }
  unfold must_clear in Hmc, Hc. rewrite Hmc, Hc.
  cbv [exec mbind M_bind modify_state modify sendEvent]. cbn.
  rewrite Hc2, Hc1, Hm2, Ha2, Ha1, Hm1, Hst2, Hst1, Hi2, Hi1.
  unfold tasks. cbn. rewrite Hq2, Hq1, Hq2', Hq1'.
  repeat split.
Qed.

(** Leaving champion select: the two controllers of the generation are
    set to null and nothing is admitted. *)
Lemma handleLoad_clears_witness :
  let w := with_state (set_queryStage {| phase := unavailable; gameInfo := None |})
             (run generation1 local_shard) in
  _controller (exec _handleLoad w) = None /\
  _mhController (exec _handleLoad w) = None /\
  tasks (exec _handleLoad w) = tasks w.
Proof.
  intros w.
  assert (must_clear w = true) as Hc by (vm_compute; reflexivity).
  destruct (handleLoad_clears w Hc) as (H1 & H2 & _ & _ & _ & _ & H4).
  exact (conj H1 (conj H2 H4)).
Defined.

(** ** Loaders that fetch once *)

(** X3. [_loadPlayerSummoner] fetches the summoner of a player once: when
    the load is not forced and the summoner is already in the state, it only
    writes to the log; otherwise it admits one request to the general queue,
    with the priority of its options (6 when none is given). When the answer
    arrives, it is committed with the source [lcu] and the event
    [summoner-loaded] is sent, so a later load that is not forced admits
    nothing; an empty answer changes nothing. *)
Theorem loadPlayerSummoner_once (w : OngoingGameMain) (puuid : string)
    (signal : option nat) (force : bool) (priority : option Z) (p : Payload) :
  let load := _loadPlayerSummoner puuid signal force priority in
  let answered := exec (resume (k_summoner puuid) (Resolved (r_payload p))) w in
  (force = false -> is_Some (summoner (state w) !! puuid) ->
   exec load w =
   with_log ({| level := debug; message := "Summoner info already exists";
                args := [arg_str puuid] |} :: _log w) w) /\
  (force = true \/ summoner (state w) !! puuid = None ->
   exec load w =
   exec (add GeneralQueue (lc_getSummonerByPuuid puuid) signal
           (Prio (default LOADING_PRIORITY.SUMMONER priority)) (k_summoner puuid)) w) /\
  summoner (state answered) = <[puuid := mkSourced lcu p]> (summoner (state w)) /\
  _ipc answered = ev_player "summoner-loaded" puuid :: _ipc w /\
  tasks answered = tasks w /\
  (forall signal' priority',
     tasks (exec (_loadPlayerSummoner puuid signal' false priority') answered)
     = tasks answered) /\
  exec (resume (k_summoner puuid) (Resolved r_nothing)) w = w.
Proof.
  intros load answered. unfold load, answered, _loadPlayerSummoner.
  split; [| split; [| split; [| split; [| split; [| split]]]]].
  - intros -> Hs. rewrite exec_bind. cbn [read fst snd negb andb].
    rewrite bool_decide_eq_true_2 by done. reflexivity.
  - intros Hf. rewrite exec_bind. cbn [read fst snd].
    destruct Hf as [-> | Hn]; [reflexivity |].
    rewrite Hn, andb_comm. cbn [andb]. rewrite bool_decide_eq_false_2; [reflexivity |].
    by intros [? ?].
  - reflexivity.
  - reflexivity.
  - reflexivity.
  - intros signal' priority'. rewrite exec_bind. cbn [read fst snd negb andb].
    rewrite bool_decide_eq_true_2; [reflexivity |].
    change (is_Some (<[puuid := mkSourced lcu p]> (summoner (state w)) !! puuid)).
    rewrite lookup_insert_eq. by eexists.
  - reflexivity.
Qed.

(** Player p1 on the local shard: no summoner yet, one request; after the
    answer, none. *)
Lemma loadPlayerSummoner_once_witness :
  exec (_loadPlayerSummoner "p1" None false None) local_shard =
  exec (add GeneralQueue (lc_getSummonerByPuuid "p1") None
          (Prio (default LOADING_PRIORITY.SUMMONER None)) (k_summoner "p1")) local_shard /\
  exec (_loadPlayerSummoner "p1" None false None)
    (exec (resume (k_summoner "p1") (Resolved (r_payload 7))) local_shard)
  = with_log ({| level := debug; message := "Summoner info already exists";
                 args := [arg_str "p1"] |}
              :: _log (exec (resume (k_summoner "p1") (Resolved (r_payload 7))) local_shard))
      (exec (resume (k_summoner "p1") (Resolved (r_payload 7))) local_shard).
Proof.
  split.
  - destruct (loadPlayerSummoner_once local_shard "p1" None false None 0) as (_ & H & _).
    apply H. right. vm_compute. reflexivity.
  - destruct (loadPlayerSummoner_once
                (exec (resume (k_summoner "p1") (Resolved (r_payload 7))) local_shard)
                "p1" None false None 0) as (H & _).
    apply H; [reflexivity | vm_compute; by eexists].
Defined.

(** X4. [_loadPlayerRankedStats] fetches the ranked stats of a player once:
    when the load is not forced and the stats are already in the state, it
    only writes to the log; otherwise it admits one request to the
    match-history queue, with the priority of its options (3 when none is
    given). When the answer arrives, it is committed with the source [lcu]
    and the event [ranked-stats-loaded] is sent, so a later load that is
    not forced admits nothing; an empty answer changes nothing. *)
Theorem loadPlayerRankedStats_once (w : OngoingGameMain) (puuid : string)
    (signal : option nat) (force : bool) (priority : option Z) (p : Payload) :
  let load := _loadPlayerRankedStats puuid signal force priority in
  let answered := exec (resume (k_rankedStats puuid) (Resolved (r_payload p))) w in
  (force = false -> is_Some (rankedStats (state w) !! puuid) ->
   exec load w =
   with_log ({| level := debug; message := "Ranked stats already exists";
                args := [arg_str puuid] |} :: _log w) w) /\
  (force = true \/ rankedStats (state w) !! puuid = None ->
   exec load w =
   exec (add MhQueue (lc_getRankedStats puuid) signal
           (Prio (default LOADING_PRIORITY.RANKED_STATS priority)) (k_rankedStats puuid)) w) /\
  rankedStats (state answered) = <[puuid := mkSourced lcu p]> (rankedStats (state w)) /\
  _ipc answered = ev_player "ranked-stats-loaded" puuid :: _ipc w /\
  tasks answered = tasks w /\
  (forall signal' priority',
     tasks (exec (_loadPlayerRankedStats puuid signal' false priority') answered)
     = tasks answered) /\
  exec (resume (k_rankedStats puuid) (Resolved r_nothing)) w = w.
Proof.
  intros load answered. unfold load, answered, _loadPlayerRankedStats.
  split; [| split; [| split; [| split; [| split; [| split]]]]].
  - intros -> Hs. rewrite exec_bind. cbn [read fst snd negb andb].
    rewrite bool_decide_eq_true_2 by done. reflexivity.
  - intros Hf. rewrite exec_bind. cbn [read fst snd].
    destruct Hf as [-> | Hn]; [reflexivity |].
    rewrite Hn, andb_comm. cbn [andb]. rewrite bool_decide_eq_false_2; [reflexivity |].
    by intros [? ?].
  - reflexivity.
  - reflexivity.
  - reflexivity.
  - intros signal' priority'. rewrite exec_bind. cbn [read fst snd negb andb].
    rewrite bool_decide_eq_true_2; [reflexivity |].
    change (is_Some (<[puuid := mkSourced lcu p]> (rankedStats (state w)) !! puuid)).
    rewrite lookup_insert_eq. by eexists.
  - reflexivity.
Qed.

(** Player p1 on the local shard: no ranked stats yet, one request; after
    the answer, none. *)
Lemma loadPlayerRankedStats_once_witness :
  exec (_loadPlayerRankedStats "p1" None false None) local_shard =
  exec (add MhQueue (lc_getRankedStats "p1") None
          (Prio (default LOADING_PRIORITY.RANKED_STATS None)) (k_rankedStats "p1"))
    local_shard /\
  exec (_loadPlayerRankedStats "p1" None false None)
    (exec (resume (k_rankedStats "p1") (Resolved (r_payload 7))) local_shard)
  = with_log ({| level := debug; message := "Ranked stats already exists";
                 args := [arg_str "p1"] |}
              :: _log (exec (resume (k_rankedStats "p1") (Resolved (r_payload 7)))
                         local_shard))
      (exec (resume (k_rankedStats "p1") (Resolved (r_payload 7))) local_shard).
Proof.
  split.
  - destruct (loadPlayerRankedStats_once local_shard "p1" None false None 0)
      as (_ & H & _).
    apply H. right. vm_compute. reflexivity.
  - destruct (loadPlayerRankedStats_once
                (exec (resume (k_rankedStats "p1") (Resolved (r_payload 7))) local_shard)
                "p1" None false None 0) as (H & _).
    apply H; [reflexivity | vm_compute; by eexists].
Defined.

(** ** The saved info of a player *)

Lemma loadAdditionalGame_keeps_savedInfo gameIds force useSgpApi signal w :
  savedInfo (state (exec (_loadAdditionalGame gameIds force useSgpApi signal) w))
  = savedInfo (state w).
Proof.
  apply (keeps_exec (fun w' => savedInfo (state w') = savedInfo (state w)));
    [| reflexivity].
  unfold _loadAdditionalGame, loadAdditionalGame. repeat frame_step.
Qed.

Lemma loadPlayerSummoners_keep_savedInfo (l : list string) signal force priority w :
  savedInfo (state (exec (forEach l (fun selfPuuid =>
     _loadPlayerSummoner selfPuuid signal force priority)) w))
  = savedInfo (state w).
Proof.
  apply (keeps_exec (fun w' => savedInfo (state w') = savedInfo (state w)));
    [| reflexivity].
  unfold _loadPlayerSummoner. repeat frame_step.
Qed.

(** X5. [_loadPlayerSavedInfo] does nothing when the league client is not
    authenticated or its own summoner is unknown, and nothing when the load
    is not forced and the saved info of the player is already in the state;
    otherwise it admits one request to the general queue with priority 4.
    When the answer arrives, it is committed as it is under the player's
    puuid, whatever the loads of the encountered games and of the tagging
    players do, and the event [saved-info-loaded] is the last one sent; an
    empty answer changes nothing. *)
Theorem loadPlayerSavedInfo_spec (w : OngoingGameMain) (puuid : string)
    (signal : option nat) (force useSgpApi : bool) (res : SavedInfo) :
  let load := _loadPlayerSavedInfo puuid signal force useSgpApi in
  let answered :=
    exec (resume (k_savedInfo puuid signal force useSgpApi) (Resolved (r_saved res))) w in
  (lc_auth (ext w) = false \/ lc_summoner_me (ext w) = None -> exec load w = w) /\
  (force = false -> is_Some (savedInfo (state w) !! puuid) -> exec load w = w) /\
  (lc_auth (ext w) = true -> is_Some (lc_summoner_me (ext w)) ->
   force = true \/ savedInfo (state w) !! puuid = None ->
   exec load w =
   exec (add GeneralQueue (saved_querySavedPlayerWithGames puuid) signal
           (Prio LOADING_PRIORITY.SAVED_INFO)
           (k_savedInfo puuid signal force useSgpApi)) w) /\
  savedInfo (state answered) = <[puuid := res]> (savedInfo (state w)) /\
  head (_ipc answered) = Some (ev_player "saved-info-loaded" puuid) /\
  exec (resume (k_savedInfo puuid signal force useSgpApi) (Resolved r_nothing)) w = w.
Proof.
  intros load answered. unfold load, answered, _loadPlayerSavedInfo.
  split; [| split; [| split; [| split; [| split]]]].
  - intros Hx. rewrite !exec_bind. cbn [read fst snd].
    destruct Hx as [-> | ->]; [reflexivity |].
    rewrite orb_comm. cbn [negb orb]. rewrite bool_decide_eq_false_2; [reflexivity |].
    by intros [? ?].
  - intros -> Hs. rewrite !exec_bind. cbn [read fst snd].
    destruct (negb (lc_auth (ext w)) || negb (bool_decide (is_Some (lc_summoner_me (ext w)))));
      [reflexivity |].
    rewrite exec_bind. cbn [read fst snd negb andb].
    rewrite bool_decide_eq_true_2 by done. reflexivity.
  - intros Ha Hme Hf. rewrite !exec_bind. cbn [read fst snd].
    rewrite Ha, bool_decide_eq_true_2 by done. cbn [negb orb].
    rewrite exec_bind. cbn [read fst snd].
    destruct Hf as [-> | Hn]; [reflexivity |].
    rewrite Hn, andb_comm. cbn [andb]. rewrite bool_decide_eq_false_2; [reflexivity |].
    by intros [? ?].
  - cbn [resume]. rewrite !exec_seq.
    cbv [exec mbind M_bind modify_state modify sendEvent]. cbn [fst snd].
    cbn [state with_ipc with_state savedInfo set_savedInfo].
    pose proof (loadAdditionalGame_keeps_savedInfo (encounteredGames res) force useSgpApi
                  signal w) as H1.
    pose proof (loadPlayerSummoners_keep_savedInfo (tags res) signal force
                  (Some LOADING_PRIORITY.ADDITIONAL_SUMMONER)
                  (exec (_loadAdditionalGame (encounteredGames res) force useSgpApi signal) w))
      as H2.
    unfold exec in H1, H2. rewrite H2, H1. reflexivity.
  - reflexivity.
  - reflexivity.
Qed.

(** Player p1 on the local shard, where the league client is authenticated
    and its summoner known: one request. Without authentication, none. *)
Lemma loadPlayerSavedInfo_spec_witness :
  exec (_loadPlayerSavedInfo "p1" None false true) local_shard =
  exec (add GeneralQueue (saved_querySavedPlayerWithGames "p1") None
          (Prio LOADING_PRIORITY.SAVED_INFO) (k_savedInfo "p1" None false true))
    local_shard /\
  exec (_loadPlayerSavedInfo "p1" None false true)
    (with_ext (fun c => {| EMPTY_PUUID := EMPTY_PUUID c;
                           sgp_isTokenReady := true;
                           sgp_serversSupported_matchHistory := false;
                           champSelect_session := None;
                           gameflow_session := None;
                           lc_auth := false; lc_summoner_me := None |}) local_shard)
  = with_ext (fun c => {| EMPTY_PUUID := EMPTY_PUUID c;
                          sgp_isTokenReady := true;
                          sgp_serversSupported_matchHistory := false;
                          champSelect_session := None;
                          gameflow_session := None;
                          lc_auth := false; lc_summoner_me := None |}) local_shard /\
  exec (_loadPlayerSavedInfo "p1" None false true)
    (with_state (set_savedInfo {[ "p1"%string := saved_with_tag ]}) local_shard)
  = with_state (set_savedInfo {[ "p1"%string := saved_with_tag ]}) local_shard.
Proof.
  split; [| split].
  - destruct (loadPlayerSavedInfo_spec local_shard "p1" None false true saved_with_tag)
      as (_ & _ & H & _).
    apply H; [reflexivity | vm_compute; by eexists | right; vm_compute; reflexivity].
  - destruct (loadPlayerSavedInfo_spec
                (with_ext (fun c => {| EMPTY_PUUID := EMPTY_PUUID c;
                           sgp_isTokenReady := true;
                           sgp_serversSupported_matchHistory := false;
                           champSelect_session := None;
                           gameflow_session := None;
                           lc_auth := false; lc_summoner_me := None |}) local_shard)
                "p1" None false true saved_with_tag) as (H & _).
    apply H. left. reflexivity.
  - destruct (loadPlayerSavedInfo_spec
                (with_state (set_savedInfo {[ "p1"%string := saved_with_tag ]}) local_shard)
                "p1" None false true saved_with_tag) as (_ & H & _).
    apply H; [reflexivity | vm_compute; by eexists].
Defined.

(** ** The timeline loader *)




(** ** The debounced reload of the match histories *)

Lemma grown_with_add P q call signal p k w0 :
  (forall id, P {| tid := id; t_queue := q; t_signal := signal; t_priority := p;
                   t_call := call; t_cont := k |}) ->
  keeps (fun w => controllers w = controllers w0 /\ committed w = committed w0 /\
                  grown_with P w0 w)
    (add q call signal p k).
Proof.
  intros HP w (Hc & Hm & l1 & l2 & H1 & H2 & F). unfold add, modify. cbn [snd].
  split; [destruct q; exact Hc |]. split; [destruct q; exact Hm |].
  apply Forall_app in F as [F1 F2].
  destruct q; cbn.
  - exists (l1 ++ [{| tid := nextTask w; t_queue := MhQueue; t_signal := signal;
                      t_priority := p; t_call := call; t_cont := k |}]), l2.
    rewrite H1, <- app_assoc. split; [reflexivity |]. split; [exact H2 |].
    rewrite !Forall_app. repeat split; try assumption. by repeat constructor.
  - exists l1, (l2 ++ [{| tid := nextTask w; t_queue := GeneralQueue; t_signal := signal;
                          t_priority := p; t_call := call; t_cont := k |}]).
    rewrite H2, <- app_assoc. split; [exact H1 |]. split; [reflexivity |].
    rewrite !Forall_app. repeat split; try assumption. by repeat constructor.
Qed.

Lemma loadPlayerMatchHistory_reload puuid o n w0 :
  o_mhSignal o = Some n -> o_priority o = None ->
  keeps (fun w => controllers w = controllers w0 /\ committed w = committed w0 /\
                  grown_with (fun t => t_signal t = Some n /\
                                       matchHistory_request (t_cont t) = Some puuid /\
                                       t_priority t = Prio LOADING_PRIORITY.MATCH_HISTORY)
                    w0 w)
    (_loadPlayerMatchHistory puuid o).
Proof.
  intros Hs Hp. unfold _loadPlayerMatchHistory, publish_tag. rewrite Hs, Hp.
  repeat lazymatch goal with
         | |- keeps _ (log_ _ _ _) => unfold log_
         | |- keeps _ (modify_state _) => unfold modify_state
         | |- keeps _ (add _ _ _ _ _) => apply grown_with_add; intros; cbn; auto
         | |- keeps _ (modify _) => apply keeps_modify; intros ? Hg; exact Hg
         | _ => keeps_step
         end.
Qed.

Lemma grown_with_weaken (P Q : Task -> Prop) w0 w :
  (forall t, P t -> Q t) -> grown_with P w0 w -> grown_with Q w0 w.
Proof.
  intros HPQ (l1 & l2 & H1 & H2 & F). exists l1, l2. repeat split; try assumption.
  eapply Forall_impl; [exact F | exact HPQ].
Qed.

(** X7. [_updateMatchHistory], the function behind the debounced reload,
    does nothing when the feature is disabled or the stage is unavailable.
    Otherwise it aborts the controller of the match-history queue and puts a
    new one in its place, leaves the general controller and the committed
    data as they are, and every task it admits is a match-history request
    with priority 5 that is bound to the signal of the new controller. *)
Theorem updateMatchHistory_spec (w : OngoingGameMain) :
  let w' := exec _updateMatchHistory w in
  (enabled (settings w) = false \/ phase (queryStage (state w)) = unavailable ->
   w' = w) /\
  (enabled (settings w) = true -> phase (queryStage (state w)) <> unavailable ->
   _controller w' = _controller w /\
   _mhController w' = Some (nextController w) /\
   abortedSignals w' = signal_of (_mhController w) ∪ abortedSignals w /\
   nextController w' = S (nextController w) /\
   committed w' = committed w /\
   Forall (fun t => t_signal t = Some (nextController w) /\
                    is_Some (matchHistory_request (t_cont t)) /\
                    t_priority t = Prio LOADING_PRIORITY.MATCH_HISTORY)
     (admitted MhQueue _updateMatchHistory w ++
      admitted GeneralQueue _updateMatchHistory w)).
Proof.
  intros w'. subst w'. unfold _updateMatchHistory. split.
  - intros Hx. rewrite !exec_bind. cbn [read fst snd].
    destruct Hx as [-> | ->]; [reflexivity |].
    destruct (negb (enabled (settings w))); reflexivity.
  - intros Hen Hph.
    destruct (abort_mhController_spec w) as (Hm & Hc & Ha & Hn & Hf).
    set (w1 := exec abort_mhController w) in *.
    set (w2 := (new_mhController w1).2).
    pose (J := fun w' : OngoingGameMain =>
      controllers w' = controllers w2 /\ committed w' = committed w2 /\
      grown_with (fun t => t_signal t = Some (nextController w1) /\
                           is_Some (matchHistory_request (t_cont t)) /\
                           t_priority t = Prio LOADING_PRIORITY.MATCH_HISTORY) w2 w').
    assert (J (exec _updateMatchHistory w)) as HJ.
    { unfold _updateMatchHistory. rewrite !exec_bind. cbn [read fst snd]. rewrite Hen.
      rewrite bool_decide_eq_false_2 by done. cbn [negb].
      rewrite exec_seq, exec_bind. fold w1. rewrite exec_bind. cbn [read fst snd].
      fold w2.
      apply keeps_exec.
      - apply keeps_forEach. intros puuid. apply keeps_bind_read. intros w3.
        intros w4 (Hc4 & Hm4 & Hg4).
        destruct (loadPlayerMatchHistory_reload puuid
                    {| o_signal := None;
                       o_mhSignal := Some (new_mhController w1).1;
                       o_count := Some (matchHistoryLoadCount (settings w3));
                       o_tag := Some (matchHistoryTag (state w3));
                       o_force := false;
                       o_useSgpApi := matchHistoryUseSgpApi (settings w3);
                       o_priority := None |} (nextController w1) w4 eq_refl eq_refl w4)
          as (Hc5 & Hm5 & Hg5).
        { split; [reflexivity |]. split; [reflexivity |].
          exists [], []. rewrite !app_nil_r. repeat split. constructor. }
        split; [by rewrite Hc5 |]. split; [by rewrite Hm5 |].
        destruct Hg4 as (l1 & l2 & H1 & H2 & F).
        destruct Hg5 as (l1' & l2' & H1' & H2' & F').
        exists (l1 ++ l1'), (l2 ++ l2').
        rewrite H1', H1, H2', H2, <- !app_assoc. repeat split.
        apply Forall_app in F as [F1 F2]. apply Forall_app in F' as [F1' F2'].
        rewrite !Forall_app. repeat split; try assumption.
        + eapply Forall_impl; [exact F1' |]. intros t (? & -> & ?). by eauto.
        + eapply Forall_impl; [exact F2' |]. intros t (? & -> & ?). by eauto.
      - split; [reflexivity |]. split; [reflexivity |].
        exists [], []. rewrite !app_nil_r. repeat split. constructor. }
    fold _updateMatchHistory.
    destruct HJ as (HcJ & HmJ & l1 & l2 & H1 & H2 & F).
    unfold controllers in HcJ. injection HcJ as Hc' Hm' Ha' Hn'.
    unfold beside_controllers in Hf.
    injection Hf as _ Hst _ _ _ Hq1 Hq2 _ _ _ _ _ _.
    clear J. rewrite Hn in Hm', Hn', F.
    split; [by rewrite Hc' |]. split; [exact Hm' |]. split; [by rewrite Ha' |].
    split; [exact Hn' |]. split.
    + rewrite HmJ. unfold committed. change (state w2) with (state w1). by rewrite Hst.
    + unfold admitted. change (_mhQueue w2) with (_mhQueue w1) in H1.
      change (_queue w2) with (_queue w1) in H2.
      rewrite Hq1 in H1. rewrite Hq2 in H2.
      rewrite H1, H2, !drop_app_length. exact F.
Qed.

(** On the local shard the stage is unavailable: nothing happens. In
    champion select, the match history of player p1 is requested anew under
    the signal of a new controller. *)
Lemma updateMatchHistory_spec_witness :
  exec _updateMatchHistory local_shard = local_shard /\
  (let w := run [stage_changed {| phase := champ_select; gameInfo := None |}] local_shard in
   _controller (exec _updateMatchHistory w) = _controller w /\
   _mhController (exec _updateMatchHistory w) = Some (nextController w)).
Proof.
  split.
  - destruct (updateMatchHistory_spec local_shard) as (H & _).
    apply H. right. reflexivity.
  - intros w. destruct (updateMatchHistory_spec w) as (_ & H).
    assert (enabled (settings w) = true) as Hen by (vm_compute; reflexivity).
    assert (phase (queryStage (state w)) <> unavailable) as Hph
      by (vm_compute; discriminate).
    destruct (H Hen Hph) as (H1 & H2 & _). exact (conj H1 H2).
Defined.

(** ** The tag of the current game *)

(** X8. [_getCurrentGameMatchHistoryTag] returns the tag of the queue of
    the current game when that tag is in the known-safe set, and ["all"]
    otherwise, also when no game is known: the result is ["all"] or a
    known-safe tag, it passes the filter of the call [setMatchHistoryTag],
    and the remote path of the match-history loader publishes it as it
    is. *)
Theorem current_tag_is_safe (w : OngoingGameMain) :
  let tag := _getCurrentGameMatchHistoryTag w in
  (gameInfo (queryStage (state w)) = None -> tag = "all"%string) /\
  (forall gi, gameInfo (queryStage (state w)) = Some gi ->
     tag = if decide ("q_" +:+ pretty (queueId gi) ∈ SAFE_TAGS)
           then "q_" +:+ pretty (queueId gi) else "all"%string) /\
  (tag = "all"%string \/ tag ∈ SAFE_TAGS) /\
  SAFE_TAGS_has tag || bool_decide (tag = "all"%string) = true /\
  (forall w', exec (publish_tag (Some tag)) w' = with_state (setMatchHistoryTag tag) w').
Proof.
  intros tag.
  assert (tag = "all"%string \/ tag ∈ SAFE_TAGS) as Hsafe.
  { unfold tag, _getCurrentGameMatchHistoryTag.
    destruct (gameInfo (queryStage (state w))) as [gi |]; [| by left].
    destruct (SAFE_TAGS_has ("q_" +:+ pretty (queueId gi))) eqn:Hs; [| by left].
    right. by apply SAFE_TAGS_has_spec. }
  split; [| split; [| split; [| split]]].
  - unfold tag, _getCurrentGameMatchHistoryTag. by intros ->.
  - intros gi Hgi. unfold tag, _getCurrentGameMatchHistoryTag. rewrite Hgi.
    destruct (decide ("q_" +:+ pretty (queueId gi) ∈ SAFE_TAGS)) as [Hs | Hs].
    + apply SAFE_TAGS_has_spec in Hs. by rewrite Hs.
    + apply SAFE_TAGS_has_false in Hs. by rewrite Hs.
  - exact Hsafe.
  - destruct Hsafe as [-> | Hs]; [reflexivity |].
    apply SAFE_TAGS_has_spec in Hs. by rewrite Hs.
  - intros w'. rewrite publish_tag_frame.
    destruct Hsafe as [-> | Hs]; [reflexivity |].
    assert (truthy tag = true) as ->.
    { unfold truthy. rewrite bool_decide_eq_false_2; [reflexivity |].
      intros He. rewrite He in Hs. revert Hs. apply SAFE_TAGS_has_false.
      vm_compute. reflexivity. }
    apply SAFE_TAGS_has_spec in Hs. by rewrite Hs.
Qed.

(** A ranked solo game (queue 420) and a game of an unlisted queue. *)
Lemma current_tag_is_safe_witness :
  _getCurrentGameMatchHistoryTag
    (with_state (set_queryStage {| phase := in_game;
                                   gameInfo := Some {| queueId := 420; gi_gameId := 1 |} |})
       local_shard)
  = (if decide ("q_" +:+ pretty 420 ∈ SAFE_TAGS) then "q_" +:+ pretty 420
     else "all"%string) /\
  _getCurrentGameMatchHistoryTag local_shard = "all"%string.
Proof.
  split.
  - destruct (current_tag_is_safe
                (with_state (set_queryStage
                   {| phase := in_game;
                      gameInfo := Some {| queueId := 420; gi_gameId := 1 |} |})
                   local_shard)) as (_ & H & _).
    apply (H {| queueId := 420; gi_gameId := 1 |}). reflexivity.
  - destruct (current_tag_is_safe local_shard) as (H & _).
    apply H. reflexivity.
Defined.

Example current_tag_of_ranked_solo :
  _getCurrentGameMatchHistoryTag
    (with_state (set_queryStage {| phase := in_game;
                                   gameInfo := Some {| queueId := 420; gi_gameId := 1 |} |})
       local_shard) = "q_420"%string /\
  _getCurrentGameMatchHistoryTag
    (with_state (set_queryStage {| phase := in_game;
                                   gameInfo := Some {| queueId := 31; gi_gameId := 1 |} |})
       local_shard) = "all"%string.
Proof. split; vm_compute; reflexivity. Qed.

(** ** The controllers of a generation *)

Lemma live_abort_controller : keeps controllers_live abort_controller.
Proof.
  unfold abort_controller. apply keeps_modify. intros w (Hc & Hm & Hd & Ha).
  destruct (_controller w) as [c |] eqn:Ec;
    [| rewrite <- Ec in Hc, Hd; exact (conj Hc (conj Hm (conj Hd Ha)))].
  destruct (Hc c eq_refl) as [Hc1 Hc2].
  split; [| split; [| split]]; cbn.
  - intros c' [=].
  - intros c' Hc'. destruct (Hm c' Hc') as [Hm1 Hm2].
    split; [| exact Hm2]. rewrite elem_of_union, elem_of_singleton.
    intros [-> | Hin]; [| done]. by apply (Hd c c).
  - intros c0 c' [=].
  - intros c' [->%elem_of_singleton | Hin]%elem_of_union; [exact Hc2 | by apply Ha].
Qed.

Lemma live_abort_mhController : keeps controllers_live abort_mhController.
Proof.
  unfold abort_mhController. apply keeps_modify. intros w (Hc & Hm & Hd & Ha).
  destruct (_mhController w) as [c |] eqn:Ec;
    [| rewrite <- Ec in Hm, Hd; exact (conj Hc (conj Hm (conj Hd Ha)))].
  destruct (Hm c eq_refl) as [Hm1 Hm2].
  split; [| split; [| split]]; cbn.
  - intros c' Hc'. destruct (Hc c' Hc') as [Hc1 Hc2].
    split; [| exact Hc2]. rewrite elem_of_union, elem_of_singleton.
    intros [-> | Hin]; [| done]. by apply (Hd c c).
  - intros c' [=].
  - intros c0 c' _ [=].
  - intros c' [->%elem_of_singleton | Hin]%elem_of_union; [exact Hm2 | by apply Ha].
Qed.

Lemma live_new_controller : keeps controllers_live new_controller.
Proof.
  intros w (Hc & Hm & Hd & Ha). unfold new_controller. cbn [snd].
  split; [| split; [| split]]; cbn.
  - intros c [= <-]. split; [| lia]. intros Hin. apply Ha in Hin. lia.
  - intros c' Hc'. destruct (Hm c' Hc') as [Hm1 Hm2]. split; [done | lia].
  - intros c c' [= <-] Hc'. destruct (Hm c' Hc') as [_ Hm2]. lia.
  - intros c Hin. apply Ha in Hin. lia.
Qed.

Lemma live_new_mhController : keeps controllers_live new_mhController.
Proof.
  intros w (Hc & Hm & Hd & Ha). unfold new_mhController. cbn [snd].
  split; [| split; [| split]]; cbn.
  - intros c' Hc'. destruct (Hc c' Hc') as [Hc1 Hc2]. split; [done | lia].
  - intros c [= <-]. split; [| lia]. intros Hin. apply Ha in Hin. lia.
  - intros c c' Hc' [= <-]. destruct (Hc c Hc') as [_ Hc2]. lia.
  - intros c Hin. apply Ha in Hin. lia.
Qed.

(** What does not touch the controllers keeps them live. *)
Ltac live_side :=
  intros; unfold keeps; intros;
  try match goal with |- context [add ?q _ _ _ _] => destruct q end;
  match goal with H : controllers_live _ |- _ => exact H end.

Ltac live_step :=
  lazymatch goal with
  | |- keeps _ abort_controller => apply live_abort_controller
  | |- keeps _ abort_mhController => apply live_abort_mhController
  | |- keeps _ new_controller => apply live_new_controller
  | |- keeps _ new_mhController => apply live_new_mhController
  | |- keeps _ (_champSelect _ _ _) => apply keeps_champSelect; live_side
  | |- keeps _ (_inGame _ _ _) => apply keeps_inGame; live_side
  | |- keeps _ (_loadPlayerMatchHistory _ _) =>
      apply keeps_loadPlayerMatchHistory; [live_side | live_side | live_side | reflexivity]
  | |- keeps _ (settle _ _) => apply keeps_settle; live_side
  | |- keeps _ (onChange_gameTimelineLoadCount _) =>
      apply keeps_onChange_gameTimelineLoadCount; live_side
  | |- keeps _ (dispatch _ _ _) => unfold dispatch
  | |- keeps _ (log_ _ _ _) => unfold log_
  | |- keeps _ (sendEvent _) => unfold sendEvent
  | |- keeps _ (modify_state _) => unfold modify_state
  | |- keeps _ _debouncedUpdateMatchHistoryFn_call =>
      unfold _debouncedUpdateMatchHistoryFn_call
  | |- keeps _ _handlePQueue => unfold _handlePQueue
  | |- keeps _ (modify _) => apply keeps_modify; intros ? Hl; exact Hl
  | _ => keeps_step
  end.

Lemma live_handleLoad : keeps controllers_live _handleLoad.
Proof. unfold _handleLoad. repeat live_step. Qed.

Lemma live_clearAndReload : keeps controllers_live _clearAndReload.
Proof. unfold _clearAndReload. repeat live_step. Qed.

Lemma live_updateMatchHistory : keeps controllers_live _updateMatchHistory.
Proof. unfold _updateMatchHistory. repeat live_step. Qed.

Lemma live_step_event e : keeps controllers_live (step e).
Proof.
  destruct e; cbn [step];
    unfold _debouncedUpdateMatchHistoryFn_fire, ipc_setMatchHistoryTag, ipc_reload,
      onChange_matchHistoryLoadCount, _setting_set_gameTimelineLoadCount,
      onChange_premadeTeamThreshold, change_enabled, onChange_matchHistoryUseSgpApi,
      change_matchHistoryTagPreference;
    repeat lazymatch goal with
           | |- keeps _ _handleLoad => apply live_handleLoad
           | |- keeps _ _clearAndReload => apply live_clearAndReload
           | |- keeps _ _updateMatchHistory => apply live_updateMatchHistory
           | _ => live_step
           end.
Qed.

(** X9. Whatever happens after [onInit], a controller that the shard holds
    has not been aborted, since every [abort()] is followed by setting the
    field to null; the general controller and the one of the match-history
    queue are different objects; and every aborted signal was created
    before the next controller. *)
Theorem controllers_stay_live (s : OngoingGameSettings) (c : Collaborators)
    (es : list Event) :
  let w := run es (exec onInit (constructed s c)) in
  (forall g, _controller w = Some g ->
     signal_aborted (Some g) w = false /\ (g < nextController w)%nat) /\
  (forall g, _mhController w = Some g ->
     signal_aborted (Some g) w = false /\ (g < nextController w)%nat) /\
  (forall g g', _controller w = Some g -> _mhController w = Some g' -> g <> g') /\
  (forall g, signal_aborted (Some g) w = true -> (g < nextController w)%nat).
Proof.
  intros w.
  assert (controllers_live w) as (Hc & Hm & Hd & Ha).
  { assert (forall es w0, controllers_live w0 -> controllers_live (run es w0)) as Hrun.
    { clear. intros es. induction es as [| e es IH]; intros w0 H0; [exact H0 |].
      apply IH, live_step_event, H0. }
    apply Hrun. unfold onInit. rewrite exec_seq.
    apply keeps_exec; [apply live_handleLoad |].
    split; [| split; [| split]]; cbn.
    - intros g [=].
    - intros g [=].
    - intros g g' [=].
    - intros g Hin. by apply not_elem_of_empty in Hin. }
  unfold signal_aborted.
  split; [| split; [| split]].
  - intros g Hg. destruct (Hc g Hg) as [H1 H2].
    split; [by apply bool_decide_eq_false_2 | exact H2].
  - intros g Hg. destruct (Hm g Hg) as [H1 H2].
    split; [by apply bool_decide_eq_false_2 | exact H2].
  - exact Hd.
  - intros g Hg. apply bool_decide_eq_true in Hg. by apply Ha.
Qed.

(** The two controllers of the first generation on the local shard. *)
Lemma controllers_stay_live_witness :
  let w := run generation1 (exec onInit (constructed demo_settings (demo_ext false))) in
  exists g g', _controller w = Some g /\ _mhController w = Some g' /\ g <> g' /\
               signal_aborted (Some g) w = false /\ signal_aborted (Some g') w = false.
Proof.
  intros w.
  destruct (controllers_stay_live demo_settings (demo_ext false) generation1)
    as (Hc & Hm & Hd & _).
  fold w in Hc, Hm, Hd.
  assert (exists g, _controller w = Some g) as [g Hg] by (eexists; vm_compute; reflexivity).
  assert (exists g', _mhController w = Some g') as [g' Hg']
    by (eexists; vm_compute; reflexivity).
  exists g, g'. split; [exact Hg |]. split; [exact Hg' |].
  split; [exact (Hd g g' Hg Hg') |].
  split; [exact (proj1 (Hc g Hg)) | exact (proj1 (Hm g' Hg'))].
Defined.

(** ** The forced reload *)













(** ** The start of a generation *)

Section Generation.
Variables (mhSignal signal : nat) (w0 : OngoingGameMain).

Ltac gen_step :=
  lazymatch goal with
  | |- keeps _ (log_ _ _ _) => unfold log_
  | |- keeps _ (modify_state _) => unfold modify_state
  | |- keeps _ (add _ _ _ _ _) =>
      apply grown_with_add; intros; unfold bound_to; cbn; auto
  | |- keeps _ (modify _) => apply keeps_modify; intros ? Hg; exact Hg
  | _ => keeps_step
  end.

Lemma generation_champSelect force : keeps (generation_kept mhSignal signal w0) (_champSelect mhSignal signal force).
Proof.
  unfold generation_kept, _champSelect, _loadPlayerMatchHistory, publish_tag, _loadPlayerSummoner,
    _loadPlayerRankedStats, _loadPlayerSavedInfo, _loadPlayerChampionMasteries.
  repeat gen_step.
Qed.

Lemma generation_inGame force : keeps (generation_kept mhSignal signal w0) (_inGame mhSignal signal force).
Proof.
  unfold generation_kept, _inGame, _loadPlayerMatchHistory, publish_tag, _loadPlayerSummoner,
    _loadPlayerRankedStats, _loadPlayerSavedInfo, _loadPlayerChampionMasteries.
  repeat gen_step.
Qed.

Lemma generation_dispatch force w :
  controllers w = controllers w0 -> committed w = committed w0 ->
  _mhQueue w = _mhQueue w0 -> _queue w = _queue w0 ->
  let w' := exec (dispatch mhSignal signal force) w in
  controllers w' = controllers w0 /\ committed w' = committed w0 /\
  Forall (fun t => bound_to mhSignal signal t /\
                   roster_place (t_queue t) (t_priority t) (t_cont t))
    (drop (length (pq_tasks (_mhQueue w0))) (pq_tasks (_mhQueue w')) ++
     drop (length (pq_tasks (_queue w0))) (pq_tasks (_queue w'))).
Proof.
  intros Hc Hm Hq1 Hq2 w'.
  assert (generation_kept mhSignal signal w0 w) as HJ.
  { split; [exact Hc |]. split; [exact Hm |]. exists [], [].
    rewrite !app_nil_r, Hq1, Hq2. repeat split. constructor. }
  assert (generation_kept mhSignal signal w0 w') as (Hc' & Hm' & l1 & l2 & H1 & H2 & F).
  { unfold w', dispatch. apply keeps_exec; [| exact HJ].
    apply keeps_bind_read. intros w1.
    destruct (phase (queryStage (state w1)));
      [apply keeps_ret | apply generation_champSelect | apply generation_inGame]. }
  split; [exact Hc' |]. split; [exact Hm' |].
  rewrite H1, H2, !drop_app_length. exact F.
Qed.
End Generation.

(** X11. When the stage is champion select or in game, the feature is
    enabled and the SGP token is ready if the SGP API is selected,
    [_handleLoad] starts a generation: the controllers it held are aborted,
    two new ones take their place, the committed data stays as it is, and
    every task it admits is at a roster place and bound to a signal of the
    new generation: the match-history request to the signal of the
    match-history controller, every other request (ranked stats and
    champion mastery included, although they go to the match-history queue)
    to the signal of the general controller. *)
Theorem handleLoad_starts_generation (w : OngoingGameMain) :
  must_clear w = false ->
  let w' := exec _handleLoad w in
  let signal := nextController w in
  let mhSignal := S (nextController w) in
  _controller w' = Some signal /\
  _mhController w' = Some mhSignal /\
  abortedSignals w' =
    signal_of (_mhController w) ∪ (signal_of (_controller w) ∪ abortedSignals w) /\
  nextController w' = S (S (nextController w)) /\
  committed w' = committed w /\
  Forall (fun t => bound_to mhSignal signal t /\
                   roster_place (t_queue t) (t_priority t) (t_cont t))
    (admitted MhQueue _handleLoad w ++ admitted GeneralQueue _handleLoad w).
Proof.
  intros Hmc w' signal mhSignal. subst signal mhSignal. unfold admitted. fold w'.
  unfold w', _handleLoad. clear w'. rewrite !exec_seq.
  set (wl := exec (log_ _ _ _) w).
  destruct (abort_controller_spec wl) as (Hc1 & Hm1 & Ha1 & Hn1 & Hf1).
  set (w1 := exec abort_controller wl) in *.
  destruct (abort_mhController_spec w1) as (Hm2 & Hc2 & Ha2 & Hn2 & Hf2).
  set (w2 := exec abort_mhController w1) in *.
  unfold beside_controllers in Hf1, Hf2.
  injection Hf1 as Hs1 Hst1 He1 _ _ Hq1 Hq1' _ _ _ _ _ _.
  injection Hf2 as Hs2 Hst2 He2 _ _ Hq2 Hq2' _ _ _ _ _ _.
  change (_controller wl) with (_controller w) in *.
  change (_mhController wl) with (_mhController w) in *.
  change (abortedSignals wl) with (abortedSignals w) in *.
  change (nextController wl) with (nextController w) in *.
  change (settings wl) with (settings w) in *.
  change (state wl) with (state w) in *.
  change (ext wl) with (ext w) in *.
  change (_mhQueue wl) with (_mhQueue w) in *.
  change (_queue wl) with (_queue w) in *.
  clearbody w1 w2. clear wl.
  rewrite !exec_bind. cbn [read fst snd exec modify].
  cbn [state settings ext with_debounced].
  assert (must_clear w2 = must_clear w) as Hmc2.
  { unfold must_clear. rewrite Hs2, Hst2, He2, Hs1, Hst1, He1. reflexivity. }
  unfold must_clear in Hmc2, Hmc. rewrite Hmc2, Hmc.
  rewrite exec_bind.
  set (w3 := (new_controller (with_debounced 0 w2)).2).
  rewrite exec_bind.
  set (w4 := (new_mhController w3).2).
  change ((new_controller (with_debounced 0 w2)).1) with (nextController w2).
  change ((new_mhController w3).1) with (S (nextController w2)).
  assert (nextController w2 = nextController w) as Hn by congruence.
  rewrite Hn.
  destruct (generation_dispatch (S (nextController w)) (nextController w) w4 false w4)
    as (Hc' & Hm' & F); try reflexivity.
  unfold controllers in Hc'. injection Hc' as Hc' Hmh' Hab' Hnx'.
  rewrite Hn in Hc', Hmh', Hnx'.
  split; [exact Hc' |]. split; [exact Hmh' |].
  split; [rewrite Hab'; by rewrite Ha2, Ha1, Hm1 |].
  split; [exact Hnx' |].
  split.
  - rewrite Hm'. unfold committed. change (state w4) with (state w2).
    by rewrite Hst2, Hst1.
  - change (_mhQueue w4) with (_mhQueue w2) in F.
    change (_queue w4) with (_queue w2) in F.
    rewrite Hq2, Hq1, Hq2', Hq1' in F. exact F.
Qed.

(** Champion select starts on the local shard: the two controllers of the
    first generation are created. *)
Lemma handleLoad_starts_generation_witness :
  let w := with_state (set_queryStage {| phase := champ_select; gameInfo := None |})
             local_shard in
  _controller (exec _handleLoad w) = Some (nextController w) /\
  _mhController (exec _handleLoad w) = Some (S (nextController w)).
Proof.
  intros w.
  assert (must_clear w = false) as Hc by (vm_compute; reflexivity).
  destruct (handleLoad_starts_generation w Hc) as (H1 & H2 & _).
  exact (conj H1 H2).
Defined.

(** The tasks of that generation and the signals they are bound to. *)
Example first_generation_signals :
  let w := with_state (set_queryStage {| phase := champ_select; gameInfo := None |})
             local_shard in
  (fun t => (t_call t, t_queue t, t_signal t)) <$> tasks (exec _handleLoad w)
  = [ (lc_getRankedStats "p1", MhQueue, Some 0%nat);
      (lc_getPlayerChampionMastery "p1", MhQueue, Some 0%nat);
      (lc_getMatchHistory "p1" 0 19, GeneralQueue, Some 1%nat);
      (lc_getSummonerByPuuid "p1", GeneralQueue, Some 0%nat);
      (saved_querySavedPlayerWithGames "p1", GeneralQueue, Some 0%nat) ].
Proof. vm_compute. reflexivity. Qed.
